(** * GitGallery sync core: a shallow embedding of the TypeScript services

    Models of [src/services/sync/utils.ts] (fingerprints),
    [src/services/sync/metaIndex.ts] (sharded meta store),
    [src/services/sync/types.ts] (upload batches, deletes, upload index),
    [src/services/sync/cloudCache.ts] (eviction),
    [src/services/sync/androidDownloads.ts] (job queue) and the GitHub
    client (putFile / deleteFile / fetchFileSha).

    Conventions.  JS strings are [String.string] (ASCII code units).
    JS [Map] and plain objects with string keys are association lists with
    JS insertion-order semantics: [aset] replaces a present key in place and
    appends a new one at the end.  Timestamps and byte sizes, which the code
    only ever gets from [Date.now()], the media library and the file system,
    are integers ([Z]), except in metaIndex.ts, whose numbers are read
    back from JSON and are modelled as JS numbers (a rational, [NaN] or an
    infinity). *)

From Stdlib Require Import String Ascii List Bool ZArith NArith Lia.
From Stdlib Require QArith.
From Stdlib Require Import Sorting.Permutation Sorting.Sorted.
Import ListNotations.
Open Scope string_scope.

(* ------------------------------------------------------------------ *)
(** ** Strings and numbers *)

Module JsStr.

(** Decimal digits of a natural number, most significant first, prepended
    to [acc]; [fuel] bounds the number of digits. *)
Fixpoint dec_digits (fuel : nat) (n : N) (acc : string) : string :=
  match fuel with
  | O => acc
  | S f =>
      let acc' := String (ascii_of_N (48 + N.modulo n 10)) acc in
      let q := N.div n 10 in
      if N.eqb q 0 then acc' else dec_digits f q acc'
  end.

Definition string_of_N (n : N) : string :=
  dec_digits (S (N.to_nat (N.size n))) n "".

(** [String(n)] / template interpolation of an integer-valued number. *)
Definition string_of_Z (z : Z) : string :=
  if Z.ltb z 0 then String "-" (string_of_N (Z.to_N (- z)))
  else string_of_N (Z.to_N z).

(** Reading decimal digits back (used only in proofs). *)
Fixpoint parse_from (a : N) (s : string) : N :=
  match s with
  | EmptyString => a
  | String c s' => parse_from (a * 10 + (N_of_ascii c - 48)) s'
  end.

Fixpoint has_char (c : ascii) (s : string) : bool :=
  match s with
  | EmptyString => false
  | String d s' => if Ascii.eqb c d then true else has_char c s'
  end.

Fixpoint all_digits (s : string) : bool :=
  match s with
  | EmptyString => true
  | String c s' =>
      let n := N_of_ascii c in (N.leb 48 n && N.ltb n 58)%bool && all_digits s'
  end.

End JsStr.

(* ------------------------------------------------------------------ *)
(** ** utils.ts: [makeFingerprint] *)

Module Fingerprint.
Import JsStr.

(** The fields of a [MediaLibrary.Asset] read by [makeFingerprint].
    [None] stands for [undefined] / [null]. *)
Record Asset := mkAsset {
  id : string;
  filename : option string;
  creationTime : option Z;
  modificationTime : option Z;
  fileSize : option Z;
}.

(** [asset.filename || `asset-${asset.id}`]: [undefined], [null] and the
    empty string are falsy. *)
Definition effective_filename (a : Asset) : string :=
  match filename a with
  | Some f => if String.eqb f "" then "asset-" ++ id a else f
  | None => "asset-" ++ id a
  end.

(** [asset.creationTime ?? asset.modificationTime ?? 0] *)
Definition effective_createdAt (a : Asset) : Z :=
  match creationTime a with
  | Some t => t
  | None => match modificationTime a with Some t => t | None => 0%Z end
  end.

(** [(asset as any).fileSize ?? 0] *)
Definition effective_fileSize (a : Asset) : Z :=
  match fileSize a with Some s => s | None => 0%Z end.

(** [`${filename}|${createdAt}|${fileSize}`] *)
Definition makeFingerprint (a : Asset) : string :=
  effective_filename a ++ "|" ++ string_of_Z (effective_createdAt a) ++ "|"
    ++ string_of_Z (effective_fileSize a).

(** The three inputs as the asset reports them: its filename (as given),
    its creation/modification timestamp and its size. *)
Definition raw_inputs (a : Asset) : option string * Z * Z :=
  (filename a, effective_createdAt a, effective_fileSize a).

(** The three values that actually enter the key. *)
Definition effective_inputs (a : Asset) : string * Z * Z :=
  (effective_filename a, effective_createdAt a, effective_fileSize a).

End Fingerprint.

(* ------------------------------------------------------------------ *)
(** ** cloudCache.ts: [maybePruneRepo] *)

Module Eviction.
Local Open Scope Z_scope.

(** The parts of a cache-entry [CacheManifest] read by the pruner: preview
    and original as [(file, updatedAt)]. *)
Record CacheManifest := mkManifest {
  fingerprint : string;
  preview : option (string * Z);
  original : option (string * Z);
  lastAccessed : option Z;
  lastViewed : option Z;
}.

(** One directory of the repo cache as the pruner sees it: the result of
    [readManifest] on its manifest ([None]: missing or unreadable) and what
    [fileSize] returns for its preview and original files (0 when absent). *)
Record DirItem := mkItem {
  item_manifest : option CacheManifest;
  preview_file_size : N;
  original_file_size : N;
}.

Record Stat := mkStat {
  st_dir : nat;        (** the entry directory: its position in the listing *)
  st_size : Z;
  st_lastUsed : Z;
}.

Definition CACHE_SIZE_LIMIT_BYTES : Z := 400 * 1024 * 1024.
(** [CACHE_SIZE_LIMIT_BYTES * 0.8] rounds to exactly this double. *)
Definition EVICT_TARGET : Z := 335544320.
Definition ENTRY_MAX_AGE_MS : Z := 30 * 24 * 60 * 60 * 1000.
Definition ENTRY_MAX_AGE_WITH_ORIGINAL_MS : Z := 60 * 24 * 60 * 60 * 1000.

Definition opt0 (o : option Z) : Z := match o with Some v => v | None => 0 end.
Definition stamp (o : option (string * Z)) : Z :=
  match o with Some (_, t) => t | None => 0 end.

(** [previewSize + originalSize] *)
Definition entry_size (it : DirItem) (m : CacheManifest) : Z :=
  (match preview m with Some _ => Z.of_N (preview_file_size it) | None => 0 end) +
  (match original m with Some _ => Z.of_N (original_file_size it) | None => 0 end).

(** [Math.max(lastViewed ?? 0, lastAccessed ?? 0, preview?.updatedAt ?? 0,
    original?.updatedAt ?? 0)] *)
Definition lastUsed (m : CacheManifest) : Z :=
  Z.max (Z.max (Z.max (opt0 (lastViewed m)) (opt0 (lastAccessed m)))
               (stamp (preview m))) (stamp (original m)).

Definition maxAge (m : CacheManifest) : Z :=
  match original m with
  | Some _ => ENTRY_MAX_AGE_WITH_ORIGINAL_MS
  | None => ENTRY_MAX_AGE_MS
  end.

(** The first loop of [maybePruneRepo]: returns [totalSize], [stats] and
    the directories deleted so far (no manifest, or too old). *)
Fixpoint scan (now : Z) (i : nat) (items : list DirItem)
  (total : Z) (stats : list Stat) (removed : list nat) : Z * list Stat * list nat :=
  match items with
  | [] => (total, stats, removed)
  | it :: rest =>
      match item_manifest it with
      | None => scan now (S i) rest total stats ((removed ++ [i])%list)
      | Some m =>
          let sz := entry_size it m in
          let st := mkStat i sz (lastUsed m) in
          let removed' := if Z.ltb (maxAge m) (now - lastUsed m)
                          then (removed ++ [i])%list else removed in
          scan now (S i) rest (total + sz) ((stats ++ [st])%list) removed'
      end
  end.

(** [stats.sort((a, b) => a.lastUsed - b.lastUsed)]: a stable sort
    (insertion after every element with a smaller or equal key). *)
Fixpoint insert_by (s : Stat) (l : list Stat) : list Stat :=
  match l with
  | [] => [s]
  | h :: t => if Z.leb (st_lastUsed h) (st_lastUsed s) then h :: insert_by s t
              else s :: h :: t
  end.

Definition sort_stats (l : list Stat) : list Stat :=
  fold_left (fun acc s => insert_by s acc) l [].

(** The size pass: [for (const stat of stats) { if (currentSize <= limit *
    0.8) break; await removeEntry(stat); currentSize -= stat.size; }] *)
Fixpoint evict (currentSize : Z) (stats : list Stat) : list nat :=
  match stats with
  | [] => []
  | s :: rest =>
      if Z.leb currentSize EVICT_TARGET then []
      else st_dir s :: evict (currentSize - st_size s) rest
  end.

(** The directories removed by the size pass ([] when under budget). *)
Definition size_pass (now : Z) (items : list DirItem) : list nat :=
  let '(total, stats, _) := scan now 0 items 0 [] [] in
  if Z.leb total CACHE_SIZE_LIMIT_BYTES then []
  else evict total (sort_stats stats).

(** All directories deleted by one pruning run of [maybePruneRepo] (after
    its once-per-interval gate let it through). *)
Definition prune (now : Z) (items : list DirItem) : list nat :=
  let '(total, stats, removed) := scan now 0 items 0 [] [] in
  if Z.leb total CACHE_SIZE_LIMIT_BYTES then removed
  else (removed ++ evict total (sort_stats stats))%list.

(** Measured size before the run, and of the entries left after it. *)
Fixpoint sized (i : nat) (items : list DirItem) : list (nat * Z) :=
  match items with
  | [] => []
  | it :: rest =>
      match item_manifest it with
      | Some m => (i, entry_size it m) :: sized (S i) rest
      | None => sized (S i) rest
      end
  end.

Definition sumZ (l : list Z) : Z := fold_right Z.add 0 l.

Definition total_size (items : list DirItem) : Z :=
  sumZ (map snd (sized 0 items)).

Definition surviving_size (now : Z) (items : list DirItem) : Z :=
  let removed := prune now items in
  sumZ (map snd (filter (fun p => negb (existsb (Nat.eqb (fst p)) removed))
                        (sized 0 items))).

Definition has_original (items : list DirItem) (i : nat) : bool :=
  match nth_error items i with
  | Some it => match item_manifest it with
               | Some m => match original m with Some _ => true | None => false end
               | None => false
               end
  | None => false
  end.

Definition last_used_of (items : list DirItem) (i : nat) : option Z :=
  match nth_error items i with
  | Some it => option_map lastUsed (item_manifest it)
  | None => None
  end.

(** The statistics the first loop collects, one per entry with a manifest
    (used in proofs). *)
Fixpoint stats_of (i : nat) (items : list DirItem) : list Stat :=
  match items with
  | [] => []
  | it :: rest =>
      match item_manifest it with
      | Some m => mkStat i (entry_size it m) (lastUsed m) :: stats_of (S i) rest
      | None => stats_of (S i) rest
      end
  end.

Definition ssum (P : Stat -> bool) (l : list Stat) : Z :=
  sumZ (map st_size (filter P l)).

(** Two entries of the repo cache, last used at the same instant: the first
    has a preview and an original (200 MB together), the second only a
    preview (300 MB). *)
Definition example_now : Z := 1700000000000.

Definition example_items : list DirItem :=
  [ mkItem (Some (mkManifest "a" (Some ("preview.jpg", example_now))
                    (Some ("original.jpg", example_now)) None None))
           100000000 100000000;
    mkItem (Some (mkManifest "b" (Some ("preview.jpg", example_now)) None None None))
           300000000 0 ].

End Eviction.

(* ------------------------------------------------------------------ *)
(** ** androidDownloads.ts: [JobQueue] *)

(** The queue as a small promise machine. Job [k] (the [k]-th call of
    [enqueue]) owns three promises of the class: [wrapped] (
    [current.then(() => job())]), [caught] ([wrapped.catch(() => {})], the
    next value of [current]) and [ret] ([wrapped.finally(...)], returned to
    the caller); [jobres] is the promise the job function itself returns.
    The [current] seen by job [k] is [Promise.resolve()] for [k = 0] and
    [caught (k - 1)] afterwards. *)
Module JobQueue.

Inductive pstate := Pending | Fulfilled | Rejected.

Record Q := mkQ {
  n : nat;                    (** jobs enqueued so far *)
  size : nat;
  invoked : nat -> bool;      (** [job()] has been called *)
  jobres : nat -> pstate;
  wrapped : nat -> pstate;
  caught : nat -> pstate;
  ret : nat -> pstate;
}.

Definition init : Q :=
  mkQ 0 0 (fun _ => false) (fun _ => Pending) (fun _ => Pending)
      (fun _ => Pending) (fun _ => Pending).

Definition upd {A} (f : nat -> A) (k : nat) (v : A) : nat -> A :=
  fun j => if Nat.eqb j k then v else f j.

(** [this.current] as job [k] found it in [enqueue]. *)
Definition src (s : Q) (k : nat) : pstate :=
  match k with O => Fulfilled | S k' => caught s k' end.

(** [enqueue(job)]: [size += 1] and three fresh pending promises. *)
Definition enqueue (s : Q) : Q :=
  mkQ (S (n s)) (S (size s)) (invoked s) (jobres s) (wrapped s) (caught s) (ret s).

(** The [then] reaction of [wrapped k] on a fulfilled [current]: [job()]. *)
Definition invoke (s : Q) (k : nat) : Q :=
  mkQ (n s) (size s) (upd (invoked s) k true) (jobres s) (wrapped s) (caught s) (ret s).

(** The job's own promise settles (decided by the job, not the queue). *)
Definition job_settle (s : Q) (k : nat) (r : pstate) : Q :=
  mkQ (n s) (size s) (invoked s) (upd (jobres s) k r) (wrapped s) (caught s) (ret s).

(** [wrapped k] adopts the state of the promise returned by [job()]. *)
Definition wrap_follow (s : Q) (k : nat) : Q :=
  mkQ (n s) (size s) (invoked s) (jobres s) (upd (wrapped s) k (jobres s k))
      (caught s) (ret s).

(** [then] without a rejection handler passes a rejected [current] on. *)
Definition wrap_reject (s : Q) (k : nat) : Q :=
  mkQ (n s) (size s) (invoked s) (jobres s) (upd (wrapped s) k Rejected)
      (caught s) (ret s).

(** [wrapped.catch(() => {})]: fulfilled whichever way [wrapped] settled. *)
Definition catch_settle (s : Q) (k : nat) : Q :=
  mkQ (n s) (size s) (invoked s) (jobres s) (wrapped s)
      (upd (caught s) k Fulfilled) (ret s).

(** [wrapped.finally(() => { this.size = Math.max(0, this.size - 1) })]. *)
Definition finally_settle (s : Q) (k : nat) : Q :=
  mkQ (n s) (size s - 1) (invoked s) (jobres s) (wrapped s) (caught s)
      (upd (ret s) k (wrapped s k)).

Inductive step : Q -> Q -> Prop :=
| st_enqueue s : step s (enqueue s)
| st_invoke s k : k < n s -> invoked s k = false -> src s k = Fulfilled ->
    step s (invoke s k)
| st_job_settle s k r : invoked s k = true -> jobres s k = Pending -> r <> Pending ->
    step s (job_settle s k r)
| st_wrap_follow s k : invoked s k = true -> jobres s k <> Pending ->
    wrapped s k = Pending -> step s (wrap_follow s k)
| st_wrap_reject s k : k < n s -> invoked s k = false -> src s k = Rejected ->
    wrapped s k = Pending -> step s (wrap_reject s k)
| st_catch s k : wrapped s k <> Pending -> caught s k = Pending ->
    step s (catch_settle s k)
| st_finally s k : wrapped s k <> Pending -> ret s k = Pending ->
    step s (finally_settle s k).

Inductive reach : Q -> Prop :=
| reach_init : reach init
| reach_step s s' : reach s -> step s s' -> reach s'.

Inductive star : Q -> Q -> Prop :=
| star_refl s : star s s
| star_step s s' s'' : step s s' -> star s' s'' -> star s s''.

(** A run in which two jobs are enqueued and the first one rejects. *)
Definition example_run : Q :=
  job_settle (invoke (enqueue (enqueue init)) 0) 0 Rejected.

End JobQueue.

(* ------------------------------------------------------------------ *)
(** ** githubClient: [fetchFileSha] and [putFile] *)

(** The repository contents as the Contents API exposes them: each file
    path holds a blob sha and its content. A write ([createOrUpdateFileContents])
    names the sha it replaces ([None]: the file is new) and is refused with
    a conflict unless that is the path's current sha; a successful write
    gives the file a fresh sha. *)
Module GitHubContents.

Record Remote := mkRemote {
  files : list (string * (N * string));
  next_sha : N;
}.

Fixpoint lookup (path : string) (fs : list (string * (N * string))) : option (N * string) :=
  match fs with
  | [] => None
  | (p, v) :: rest => if String.eqb p path then Some v else lookup path rest
  end.

Fixpoint assign (path : string) (v : N * string) (fs : list (string * (N * string)))
  : list (string * (N * string)) :=
  match fs with
  | [] => [(path, v)]
  | (p, w) :: rest => if String.eqb p path then (p, v) :: rest else (p, w) :: assign path v rest
  end.

(** [fetchFileSha]: the sha of the file, [undefined] (here [None]) on 404. *)
Definition fetchFileSha (r : Remote) (path : string) : option N :=
  option_map fst (lookup path (files r)).

Inductive PutResult := PutOk (sha : N) | Conflict.

Definition sha_eqb (a b : option N) : bool :=
  match a, b with
  | Some x, Some y => N.eqb x y
  | None, None => true
  | _, _ => false
  end.

Definition createOrUpdateFileContents (r : Remote) (path content : string) (sha : option N)
  : PutResult * Remote :=
  if sha_eqb sha (fetchFileSha r path)
  then (PutOk (next_sha r),
        mkRemote (assign path (next_sha r, content) (files r)) (N.succ (next_sha r)))
  else (Conflict, r).

Record PutParams := mkPut {
  put_path : string;
  put_message : string;
  contentBase64 : string;
  put_sha : option N;
}.

(** [putFile]: [const sha = params.sha ?? await fetchFileSha(path)], then the
    write. [between] is what other writers do to the repository while
    [putFile] awaits, after the sha has been read and before the write. *)
Definition putFile (params : PutParams) (r : Remote) (between : Remote -> Remote)
  : PutResult * Remote :=
  let sha := match put_sha params with
             | Some s => Some s
             | None => fetchFileSha r (put_path params)
             end in
  createOrUpdateFileContents (between r) (put_path params) (contentBase64 params) sha.

Definition example_remote : Remote :=
  mkRemote [("gitgallery/meta/manifest.json", (1%N, "v1"))] 2.

Definition example_put : PutParams :=
  mkPut "gitgallery/meta/manifest.json" "Update manifest" "v2" None.

(** Another device updates the same file while [putFile] awaits. *)
Definition other_writer (r : Remote) : Remote :=
  snd (createOrUpdateFileContents r "gitgallery/meta/manifest.json" "v1b"
         (fetchFileSha r "gitgallery/meta/manifest.json")).

End GitHubContents.

(* ------------------------------------------------------------------ *)
(** ** types.ts: [processUploadBatch] and [cancelActiveSync] *)

(** The upload loop after [prepareAssetsForUpload]. Each prepared item's
    [uploadPreparedAsset] either completes or throws, after issuing some
    remote writes (content PUT, then the meta shard and manifest PUTs of
    [upsertMetaEntry]). [cancelActiveSync] sets the token's flag once and
    it stays set: [cancel_at = Some c] means the flag is set after [c] items
    have been attempted and before the next check of the flag. *)
Module UploadBatch.

Record Outcome := mkOutcome {
  succeeded : bool;
  remote_writes : nat;   (** PUTs issued by this item's upload *)
}.

Inductive Event := RemoteWrite (item : nat) | CancelObserved.

(** The fields of [SyncStatus] written by the batch. *)
Record SyncStatus := mkStatus {
  running : bool;
  lastBatchTotal : nat;
  lastBatchUploaded : nat;
  completedUploads : nat;
  pendingUploads : nat;
  lastError : option string;
}.

Definition flag_set (cancel_at : option nat) (attempted : nat) : bool :=
  match cancel_at with Some c => Nat.leb c attempted | None => false end.

Definition item_writes (i : nat) (o : Outcome) : list Event :=
  repeat (RemoteWrite i) (remote_writes o).

Definition cancelled_msg : string := "Sync cancelled by user".
Definition upload_failed_msg : string := "Upload failed".

(** [for (const item of prepared) { if (cancelToken.cancelled) { cancelled
    = true; break; } processed += 1; try { ... } catch { ... } }]; returns
    the status, [processed], the trace and [cancelled]. *)
Fixpoint upload_loop (cancel_at : option nat) (items : list Outcome)
  (st : SyncStatus) (processed : nat) (tr : list Event)
  : SyncStatus * nat * list Event * bool :=
  match items with
  | [] => (st, processed, tr, false)
  | o :: rest =>
      if flag_set cancel_at processed
      then (st, processed, (tr ++ [CancelObserved])%list, true)
      else
        let processed' := S processed in
        let st' :=
          if succeeded o
          then mkStatus (running st) (lastBatchTotal st) processed'
                 (S (completedUploads st)) (pendingUploads st - 1) (lastError st)
          else mkStatus (running st) (lastBatchTotal st) processed'
                 (completedUploads st) (pendingUploads st - 1) (Some upload_failed_msg) in
        upload_loop cancel_at rest st' processed' (tr ++ item_writes processed o)%list
  end.

(** [processUploadBatch] from the status update before
    [prepareAssetsForUpload] to its end; [total] is [assets.length] and
    [prepared] the outcomes of the prepared items, in order. *)
Definition processUploadBatch (cancel_at : option nat) (st0 : SyncStatus)
  (total : nat) (prepared : list Outcome) : SyncStatus * list Event :=
  let st1 := mkStatus true total 0 (completedUploads st0) total None in
  if flag_set cancel_at 0 then
    (mkStatus false 0 0 (completedUploads st1) 0 (Some cancelled_msg), [CancelObserved])
  else match prepared with
  | [] => (mkStatus false 0 0 (completedUploads st1) 0 (lastError st1), [])
  | _ =>
      let n := length prepared in
      let st2 := if Nat.eqb n total then st1
                 else mkStatus true n 0 (completedUploads st1) n None in
      let '(st3, processed, tr, broke) := upload_loop cancel_at prepared st2 0 [] in
      if flag_set cancel_at processed then
        (mkStatus false 0 processed (completedUploads st3) 0 (Some cancelled_msg),
         if broke then tr else (tr ++ [CancelObserved])%list)
      else (mkStatus false 0 0 (completedUploads st3) 0 (lastError st3), tr)
  end.

(** The remote writes of the items [i], [i + 1], ... *)
Fixpoint writes_from (i : nat) (items : list Outcome) : list Event :=
  match items with
  | [] => []
  | o :: rest => (item_writes i o ++ writes_from (S i) rest)%list
  end.

Definition count_succeeded (items : list Outcome) : nat :=
  length (filter succeeded items).

Definition initial_status : SyncStatus := mkStatus false 0 0 0 0 None.

(** The first item's upload throws after its content PUT; the second one
    would succeed. *)
Definition example_prepared : list Outcome := [mkOutcome false 1; mkOutcome true 3].

End UploadBatch.

(* ------------------------------------------------------------------ *)
(** ** types.ts: the upload index and [prepareAssetsForUpload] *)

(** [uploadIndexCache] is a JS [Map] keyed by device asset ids and by
    fingerprints; it is modelled as an association list in insertion
    order ([set] replaces in place or appends, [get] returns the first
    match). Only the entry fields read by the code below are kept. *)
Module UploadIndex.

Record UploadIndexEntry := mkEntry {
  uploaded : bool;
  repoPath : option string;
  contentHash : option string;
}.

Definition Index := list (string * UploadIndexEntry).

Fixpoint get (k : string) (m : Index) : option UploadIndexEntry :=
  match m with
  | [] => None
  | (k', v) :: rest => if String.eqb k' k then Some v else get k rest
  end.

Fixpoint set (k : string) (v : UploadIndexEntry) (m : Index) : Index :=
  match m with
  | [] => [(k, v)]
  | (k', w) :: rest => if String.eqb k' k then (k', v) :: rest else (k', w) :: set k v rest
  end.

(** An [AssetRecord] of the local store (the fields used here). *)
Record AssetRecord := mkRecord {
  rec_fingerprint : string;
  rec_assetId : option string;
  rec_uploaded : bool;
  rec_repoPath : option string;
  rec_contentHash : option string;
}.

(** A JS string is truthy when it is not empty. *)
Definition truthy (s : string) : bool := negb (String.eqb s "").

Definition updateIndexCacheForRecord (record : AssetRecord) (m : Index) : Index :=
  let entry := mkEntry (rec_uploaded record) (rec_repoPath record) (rec_contentHash record) in
  let m1 := match rec_assetId record with
            | Some id => if truthy id then set id entry m else m
            | None => m
            end in
  set (rec_fingerprint record) entry m1.

(** A [MetaEntry] of the cloud meta index (the fields used here). *)
Record MetaEntry := mkMeta {
  meta_fingerprint : string;
  meta_repoPath : option string;
  meta_contentHash : option string;
}.

Definition opt_str_eqb (a b : option string) : bool :=
  match a, b with
  | Some x, Some y => String.eqb x y
  | None, None => true
  | _, _ => false
  end.

(** [mergeMetaEntriesIntoUploadIndex]: only the fingerprint key is set. *)
Definition merge_one (m : Index) (entry : MetaEntry) : Index :=
  if negb (truthy (meta_fingerprint entry)) then m else
  let next := mkEntry true (meta_repoPath entry) (meta_contentHash entry) in
  match get (meta_fingerprint entry) m with
  | None => set (meta_fingerprint entry) next m
  | Some current =>
      if negb (uploaded current) || negb (opt_str_eqb (repoPath current) (repoPath next))
         || negb (opt_str_eqb (contentHash current) (contentHash next))
      then set (meta_fingerprint entry) next m
      else m
  end.

Definition mergeMetaEntriesIntoUploadIndex (metaEntries : list MetaEntry) (m : Index) : Index :=
  fold_left merge_one metaEntries m.

(** A device asset as [prepareAssetsForUpload] sees it: its id and
    [makeFingerprint(asset)]. *)
Record DeviceAsset := mkAsset {
  asset_id : string;
  asset_fingerprint : string;
}.

(** The skip test of the first loop of [prepareAssetsForUpload] (when
    [!options.allowBlocked]): [true] when the asset is skipped. The lookup
    is [uploadIndexCache.get(asset.id) || uploadIndexCache.get(fingerprint)]:
    an entry object is truthy whatever its [uploaded] field. *)
Definition skipped_in_prepare (blocked : list string) (m : Index) (a : DeviceAsset) : bool :=
  if existsb (String.eqb (asset_fingerprint a)) blocked then true else
  let cached := match get (asset_id a) m with
                | Some e => Some e
                | None => get (asset_fingerprint a) m
                end in
  match cached with Some e => uploaded e | None => false end.

(** The prepared list (every asset readable): assets not skipped, the
    first of each fingerprint. *)
Fixpoint prepare_loop (allowBlocked : bool) (blocked : list string) (m : Index)
  (seen : list string) (assets : list DeviceAsset) : list DeviceAsset :=
  match assets with
  | [] => []
  | a :: rest =>
      if negb allowBlocked && skipped_in_prepare blocked m a
      then prepare_loop allowBlocked blocked m seen rest
      else if existsb (String.eqb (asset_fingerprint a)) seen
      then prepare_loop allowBlocked blocked m seen rest
      else a :: prepare_loop allowBlocked blocked m (asset_fingerprint a :: seen) rest
  end.

Definition prepareAssetsForUpload (allowBlocked : bool) (blocked : list string) (m : Index)
  (assets : list DeviceAsset) : list DeviceAsset :=
  prepare_loop allowBlocked blocked m [] assets.

Definition example_asset : DeviceAsset :=
  mkAsset "A1" "IMG_0001.JPG|1700000000000|2048".

(** The index after an upload of [example_asset] failed (the batch's catch
    records it with [uploaded: false] under both keys) and the meta index
    then brought in the same fingerprint (e.g. uploaded from another
    device), merged by [hydrateRecentMeta]. *)
Definition index_after_failure_then_merge : Index :=
  mergeMetaEntriesIntoUploadIndex
    [mkMeta "IMG_0001.JPG|1700000000000|2048" (Some "photos/2023/11/14/IMG_0001.JPG") None]
    (updateIndexCacheForRecord
       (mkRecord "IMG_0001.JPG|1700000000000|2048" (Some "A1") false
                 (Some "photos/2023/11/14/IMG_0001.JPG") None)
       []).

End UploadIndex.

(* ------------------------------------------------------------------ *)
(** ** metaIndex.ts: the sharded meta store *)

Module MetaIndex.
Import JsStr QArith.
Local Open Scope Z_scope.

(** *** JS values *)

(** A JS number: a finite value (a double, seen as a rational), [NaN] or
    an infinity. *)
Inductive number := NFin (q : Q) | NNaN | NInf (negative : bool).

Definition num_of_Z (z : Z) : number := NFin (inject_Z z).

(** [Number.isFinite] *)
Definition isFinite (n : number) : bool :=
  match n with NFin _ => true | _ => false end.

(** [!value] for a number: [0] and [NaN] are falsy. *)
Definition num_falsy (n : number) : bool :=
  match n with NFin q => Qeq_bool q 0 | NNaN => true | NInf _ => false end.

(** [a - b] *)
Definition num_sub (a b : number) : number :=
  match a, b with
  | NFin x, NFin y => NFin (x - y)
  | NNaN, _ | _, NNaN => NNaN
  | NInf s, NInf t => if Bool.eqb s t then NNaN else NInf s
  | NInf s, NFin _ => NInf s
  | NFin _, NInf t => NInf (negb t)
  end.

(** JS values as the code reads them: what [JSON.parse] returns and the
    plain objects the code builds. An object lists its own enumerable
    properties in JS enumeration order (array-index keys ascending, then
    the other keys in insertion order). *)
Inductive Val :=
| VUndef
| VNull
| VBool (b : bool)
| VNum (n : number)
| VStr (s : string)
| VArr (items : list Val)
| VObj (props : list (string * Val)).

(** Canonical array-index keys: ["0"] or a digit string without a leading
    zero, below [2^32 - 1]. *)
Fixpoint digits_value (acc : Z) (s : string) : Z :=
  match s with
  | EmptyString => acc
  | String c s' => digits_value (acc * 10 + (Z.of_N (N_of_ascii c) - 48)) s'
  end.

Definition is_array_index (k : string) : bool :=
  match k with
  | EmptyString => false
  | String c rest =>
      all_digits k && (String.eqb k "0" || negb (Ascii.eqb c "0"%char))
      && Z.ltb (digits_value 0 k) 4294967295
  end.

(** Assignment [o[k] = v] of a new or existing own property, keeping the
    enumeration order. *)
Fixpoint insert_index_key {A} (k : string) (v : A) (ps : list (string * A))
  : list (string * A) :=
  match ps with
  | [] => [(k, v)]
  | (k', w) :: rest =>
      if is_array_index k' && Z.ltb (digits_value 0 k') (digits_value 0 k)
      then (k', w) :: insert_index_key k v rest
      else (k, v) :: ps
  end.

Fixpoint obj_lookup {A} (k : string) (ps : list (string * A)) : option A :=
  match ps with
  | [] => None
  | (k', v) :: rest => if String.eqb k' k then Some v else obj_lookup k rest
  end.

Fixpoint replace_key {A} (k : string) (v : A) (ps : list (string * A)) : list (string * A) :=
  match ps with
  | [] => []
  | (k', w) :: rest => if String.eqb k' k then (k', v) :: rest else (k', w) :: replace_key k v rest
  end.

(** [o[k] = v] on a plain object whose prototype is [Object.prototype]:
    ["__proto__"] is an accessor there, so assigning an object to it
    replaces the prototype and adds no own property. *)
Definition obj_set {A} (k : string) (v : A) (ps : list (string * A)) : list (string * A) :=
  if String.eqb k "__proto__" then ps
  else match obj_lookup k ps with
       | Some _ => replace_key k v ps
       | None => if is_array_index k then insert_index_key k v ps else (ps ++ [(k, v)])%list
       end.

(** [delete o[k]] *)
Fixpoint obj_delete {A} (k : string) (ps : list (string * A)) : list (string * A) :=
  match ps with
  | [] => []
  | (k', w) :: rest => if String.eqb k' k then rest else (k', w) :: obj_delete k rest
  end.

(** The properties every plain object inherits from [Object.prototype]
    (all of them truthy). *)
Definition object_prototype_keys : list string :=
  ["constructor"; "__defineGetter__"; "__defineSetter__"; "hasOwnProperty";
   "__lookupGetter__"; "__lookupSetter__"; "isPrototypeOf"; "propertyIsEnumerable";
   "toString"; "valueOf"; "__proto__"; "toLocaleString"].

(** Truthiness of [o[k]] when every own property holds an object. *)
Definition obj_get_truthy {A} (k : string) (ps : list (string * A)) : bool :=
  match obj_lookup k ps with
  | Some _ => true
  | None => existsb (String.eqb k) object_prototype_keys
  end.

(** A JS [Map] with string keys: [set] replaces in place or appends. *)
Definition map_get {A} (k : string) (m : list (string * A)) : option A := obj_lookup k m.

Definition map_set {A} (k : string) (v : A) (m : list (string * A)) : list (string * A) :=
  match obj_lookup k m with
  | Some _ => replace_key k v m
  | None => (m ++ [(k, v)])%list
  end.

Definition map_delete {A} (k : string) (m : list (string * A)) : list (string * A) :=
  obj_delete k m.

(** A JS [Set] of strings, in insertion order. *)
Definition set_add (x : string) (s : list string) : list string :=
  if existsb (String.eqb x) s then s else (s ++ [x])%list.

Definition set_delete (x : string) (s : list string) : list string :=
  filter (fun y => negb (String.eqb y x)) s.

(** Property read [v.k] ([undefined] on primitives and missing keys). *)
Definition get_prop (v : Val) (k : string) : Val :=
  match v with
  | VObj ps => match obj_lookup k ps with Some x => x | None => VUndef end
  | _ => VUndef
  end.

(** [Object.entries(v)] for an object or array. *)
Definition val_entries (v : Val) : list (string * Val) :=
  match v with
  | VObj ps => ps
  | VArr items => combine (map (fun i => string_of_N (N.of_nat i)) (seq 0 (length items))) items
  | _ => []
  end.

(** [JSON.parse(JSON.stringify(v))] for a value with no functions, cycles
    or [toJSON]: non-finite numbers become [null], [undefined] properties
    are dropped and [undefined] array items become [null]. *)
Fixpoint json_roundtrip (v : Val) : Val :=
  match v with
  | VNum (NFin q) => VNum (NFin q)
  | VNum _ => VNull
  | VArr items =>
      VArr (map (fun x => match x with VUndef => VNull | _ => json_roundtrip x end) items)
  | VObj ps =>
      VObj ((fix go (ps : list (string * Val)) : list (string * Val) :=
               match ps with
               | [] => []
               | (k, VUndef) :: rest => go rest
               | (k, x) :: rest => (k, json_roundtrip x) :: go rest
               end) ps)
  | x => x
  end.

(** [typeof v === 'string' && v.length > 0 ? v : null] ([toOptionalString]) *)
Definition toOptionalString (v : Val) : option string :=
  match v with VStr s => if String.eqb s "" then None else Some s | _ => None end.

(** [toNumber(value, fallback)] *)
Definition toNumber (v : Val) (fallback : number) : number :=
  match v with VNum (NFin q) => NFin q | _ => fallback end.

(** [toNullableNumber(value)] *)
Definition toNullableNumber (v : Val) : option number :=
  match v with VNum (NFin q) => Some (NFin q) | _ => None end.

(** [!v || typeof v !== 'object'] *)
Definition not_object (v : Val) : bool :=
  match v with VObj _ | VArr _ => false | _ => true end.

(** *** [Number(string)] *)

(** [StrWhiteSpaceChar] on single code units: tab, line feed, vertical tab,
    form feed, carriage return, space and no-break space. *)
Definition is_js_space (c : ascii) : bool :=
  let n := N_of_ascii c in
  ((N.leb 9 n && N.leb n 13) || N.eqb n 32 || N.eqb n 160)%bool.

Fixpoint trim_start (s : string) : string :=
  match s with
  | String c s' => if is_js_space c then trim_start s' else s
  | EmptyString => EmptyString
  end.

Definition trim_end (s : string) : string :=
  string_of_list_ascii (rev (list_ascii_of_string (trim_start
    (string_of_list_ascii (rev (list_ascii_of_string s)))))).

(** [s.trim()] *)
Definition trim (s : string) : string := trim_end (trim_start s).

(** Value of a digit in base [radix], if it is one. *)
Definition digit_value (radix : Z) (c : ascii) : option Z :=
  let n := Z.of_N (N_of_ascii c) in
  let v := if (48 <=? n) && (n <=? 57) then n - 48
           else if (97 <=? n) && (n <=? 122) then n - 87
           else if (65 <=? n) && (n <=? 90) then n - 55
           else 99 in
  if v <? radix then Some v else None.

(** Digits of [s] in base [radix] read from the left: the value and the
    number of digits, if [s] is only digits. *)
Fixpoint read_digits (radix : Z) (acc : Z) (len : nat) (s : string) : option (Z * nat) :=
  match s with
  | EmptyString => Some (acc, len)
  | String c s' =>
      match digit_value radix c with
      | Some d => read_digits radix (acc * radix + d) (S len) s'
      | None => None
      end
  end.

(** The longest prefix of decimal digits, and the rest. *)
Fixpoint span_digits (s : string) : string * string :=
  match s with
  | String c s' =>
      if all_digits (String c EmptyString)
      then let (d, r) := span_digits s' in (String c d, r)
      else (EmptyString, s)
  | EmptyString => (EmptyString, EmptyString)
  end.

(** A mathematical value as a double: above the largest double it rounds
    to an infinity and below half the least subnormal to zero. Values in
    between are kept exact: the model does not round them to 53 bits. *)
Definition double_of_Q (negative : bool) (q : Q) : number :=
  if Qle_bool (inject_Z (2 ^ 1024 - 2 ^ 970)) q then NInf negative
  else if Qle_bool q (1 # (2 ^ 1075)) then NFin 0
  else NFin (if negative then Qopp q else q).

(** [m * 10^e] for a digit string of [L] digits, as a double. *)
Definition decimal_value (negative : bool) (m e : Z) (L : nat) : number :=
  if m =? 0 then NFin 0
  else if 310 <? e + Z.of_nat L then NInf negative
  else if e + Z.of_nat L <? -324 then NFin 0
  else double_of_Q negative
         (if 0 <=? e then inject_Z (m * 10 ^ e) else Qmake m (Z.to_pos (10 ^ (- e)))).

(** [ExponentPart] after the [e]: an optional sign and digits. *)
Definition read_exponent (s : string) : option Z :=
  let '(neg, body) := match s with
                      | String "+" r => (false, r)
                      | String "-" r => (true, r)
                      | _ => (false, s)
                      end in
  match body, read_digits 10 0 0 body with
  | EmptyString, _ => None
  | _, Some (v, _) => Some (if neg then - v else v)
  | _, None => None
  end.

(** [StrUnsignedDecimalLiteral]: [Infinity], or digits with an optional
    fraction and exponent. *)
Definition unsigned_decimal (negative : bool) (s : string) : number :=
  if String.eqb s "Infinity" then NInf negative else
  let (int_part, r1) := span_digits s in
  let '(frac_part, r2) := match r1 with
                          | String "." r => span_digits r
                          | _ => (EmptyString, r1)
                          end in
  let exp := match r2 with
             | EmptyString => Some 0
             | String c r => if (Ascii.eqb c "e" || Ascii.eqb c "E")%bool
                             then read_exponent r else None
             end in
  match int_part, frac_part, exp with
  | EmptyString, EmptyString, _ => NNaN
  | _, _, None => NNaN
  | _, _, Some e =>
      match read_digits 10 0 0 (int_part ++ frac_part) with
      | Some (m, L) => decimal_value negative m (e - Z.of_nat (String.length frac_part)) L
      | None => NNaN
      end
  end.

(** [Number(s)] (ECMAScript StringToNumber). *)
Definition StringToNumber (s0 : string) : number :=
  let s := trim s0 in
  let radix_literal (radix : Z) (r : string) :=
    match r, read_digits radix 0 0 r with
    | EmptyString, _ => NNaN
    | _, Some (v, L) => double_of_Q false (inject_Z v)
    | _, None => NNaN
    end in
  match s with
  | EmptyString => NFin 0
  | String "0" (String c r) =>
      if (Ascii.eqb c "x" || Ascii.eqb c "X")%bool then radix_literal 16 r
      else if (Ascii.eqb c "o" || Ascii.eqb c "O")%bool then radix_literal 8 r
      else if (Ascii.eqb c "b" || Ascii.eqb c "B")%bool then radix_literal 2 r
      else unsigned_decimal false s
  | String "+" r => unsigned_decimal false r
  | String "-" r => unsigned_decimal true r
  | _ => unsigned_decimal false s
  end.

(** *** Buckets and shard paths *)

Definition META_ROOT := "gitgallery/meta".
Definition META_MANIFEST_PATH := "gitgallery/meta/manifest.json".
Definition LEGACY_META_SHARD_DIR := "gitgallery/meta/shards".
Definition SHARD_FILENAME := "meta_dict.json".
Definition MANIFEST_VERSION : number := num_of_Z 1.
Definition SHARD_VERSION : number := num_of_Z 1.
Definition DEFAULT_PRELOAD_TARGET : Z := 450.

Definition is_digit (c : ascii) : bool := all_digits (String c EmptyString).

(** One code unit of [s.trim().toLowerCase().replace(/[^0-9a-z-]/g, '-')]. *)
Definition sanitize_char (c : ascii) : ascii :=
  let n := N_of_ascii c in
  if is_digit c || (N.leb 97 n && N.leb n 122) || Ascii.eqb c "-" then c
  else if (N.leb 65 n && N.leb n 90)%bool then ascii_of_N (n + 32)
  else "-"%char.

Fixpoint map_string (f : ascii -> ascii) (s : string) : string :=
  match s with
  | EmptyString => EmptyString
  | String c s' => String (f c) (map_string f s')
  end.

(** [sanitizeBucket] *)
Definition sanitizeBucket (bucket : string) : string :=
  let cleaned := map_string sanitize_char (trim bucket) in
  if String.eqb cleaned "" then "unknown" else cleaned.

Fixpoint digits_n (n : nat) (s : string) : option (string * string) :=
  match n with
  | O => Some (EmptyString, s)
  | S k => match s with
           | String c s' =>
               if is_digit c then
                 match digits_n k s' with
                 | Some (d, r) => Some (String c d, r)
                 | None => None
                 end
               else None
           | EmptyString => None
           end
  end.

(** [bucket.match(/^(\d{4})-(\d{2})-(\d{2})$/)] *)
Definition bucketDateParts (bucket : string) : option (string * string * string) :=
  match digits_n 4 bucket with
  | Some (y, String "-" r1) =>
      match digits_n 2 r1 with
      | Some (m, String "-" r2) =>
          match digits_n 2 r2 with
          | Some (d, EmptyString) => Some (y, m, d)
          | _ => None
          end
      | _ => None
      end
  | _ => None
  end.

(** [getShardPath] *)
Definition getShardPath (bucket : string) : string :=
  match bucketDateParts bucket with
  | Some (y, m, d) => META_ROOT ++ "/" ++ y ++ "/" ++ m ++ "/" ++ d ++ "/" ++ SHARD_FILENAME
  | None =>
      if String.eqb bucket "unknown" then META_ROOT ++ "/unknown/" ++ SHARD_FILENAME
      else LEGACY_META_SHARD_DIR ++ "/" ++ sanitizeBucket bucket ++ ".json"
  end.

(** Proleptic Gregorian calendar date of a day number (days since
    1970-01-01), as [Date]'s UTC getters compute it. *)
Definition civil_from_days (days : Z) : Z * Z * Z :=
  let z := days + 719468 in
  let era := z / 146097 in
  let doe := z - era * 146097 in
  let yoe := (doe - doe / 1460 + doe / 36524 - doe / 146096) / 365 in
  let y := yoe + era * 400 in
  let doy := doe - (365 * yoe + yoe / 4 - yoe / 100) in
  let mp := (5 * doy + 2) / 153 in
  let d := doy - (153 * mp + 2) / 5 + 1 in
  let m := if mp <? 10 then mp + 3 else mp - 9 in
  (if m <=? 2 then y + 1 else y, m, d).

(** [String(n).padStart(2, '0')] for [1 <= n <= 31]. *)
Definition pad2 (n : Z) : string :=
  let s := string_of_Z n in
  if (String.length s <? 2)%nat then "0" ++ s else s.

(** [Math.trunc] of a rational. *)
Definition Qtrunc (q : Q) : Z :=
  if Qle_bool 0 q then Qnum q / Z.pos (Qden q) else - ((- Qnum q) / Z.pos (Qden q)).

(** [bucketFromTimestamp]: [null]/[undefined] is [None]. [new Date(v)]
    is invalid beyond 8.64e15 ms (TimeClip). *)
Definition bucketFromTimestamp (value : option number) : string :=
  match value with
  | None => "unknown"
  | Some v =>
      if num_falsy v || negb (isFinite v) then "unknown" else
      match v with
      | NFin q =>
          if Qle_bool (if Qle_bool 0 q then q else - q) (inject_Z 8640000000000000) then
            let '(y, m, d) := civil_from_days (Qtrunc q / 86400000) in
            string_of_Z y ++ "-" ++ pad2 m ++ "-" ++ pad2 d
          else "unknown"
      | _ => "unknown"
      end
  end.

(** [s.split(sep)] for a one-character separator. *)
Fixpoint split_on (sep : ascii) (s : string) : list string :=
  match s with
  | EmptyString => [EmptyString]
  | String c s' =>
      if Ascii.eqb c sep then EmptyString :: split_on sep s'
      else match split_on sep s' with
           | w :: ws => String c w :: ws
           | [] => [String c EmptyString]
           end
  end.

(** [bucketFromFingerprint] *)
Definition bucketFromFingerprint (fingerprint : string) : string :=
  match split_on "|" fingerprint with
  | _ :: p1 :: _ =>
      let timestamp := StringToNumber p1 in
      if isFinite timestamp then bucketFromTimestamp (Some timestamp) else "unknown"
  | _ => "unknown"
  end.

(** [/gitgallery\/library\/(\d{4})\/(\d{2})\/(\d{2})\//] at the start of
    [s]. *)
Definition library_date_at (s : string) : option string :=
  if String.prefix "gitgallery/library/" s then
    match digits_n 4 (substring 19 (String.length s) s) with
    | Some (y, String "/" r1) =>
        match digits_n 2 r1 with
        | Some (m, String "/" r2) =>
            match digits_n 2 r2 with
            | Some (d, String "/" _) => Some (y ++ "-" ++ m ++ "-" ++ d)
            | _ => None
            end
        | _ => None
        end
    | _ => None
    end
  else None.

(** The leftmost match of that pattern in [s]. *)
Fixpoint library_date_search (s : string) : option string :=
  match library_date_at s with
  | Some b => Some b
  | None => match s with
            | EmptyString => None
            | String _ s' => library_date_search s'
            end
  end.

(** [bucketFromRepoPath] ([None] is [null]/[undefined]). *)
Definition bucketFromRepoPath (path : option string) : string :=
  match path with
  | None => "unknown"
  | Some p =>
      if String.eqb p "" then "unknown" else
      match library_date_search p with Some b => b | None => "unknown" end
  end.

(** *** Records *)

(** An optional string field typed [string | null] that may also be
    absent ([SUndef]: absent or [undefined]). *)
Inductive optstr := SUndef | SNull | SStr (s : string).

(** [MetaEntry] (types.ts); [None] is [null]. *)
Record MetaEntry := mkMetaEntry {
  fingerprint : string;
  repoPath : string;
  previewRepoPath : optstr;
  createdAt : option number;
  fileSize : option number;
  contentHash : option string;
  uploadedAt : option number;
  assetId : optstr;
}.

(** [MetaShardEntry = MetaEntry & { updatedAt: number }]; the cache keeps
    copies of these. *)
Record MetaShardEntry := mkShardEntry {
  se_entry : MetaEntry;
  se_updatedAt : number;
}.

Record MetaShardDocument := mkDoc {
  doc_version : number;
  doc_bucket : string;
  generatedAt : number;
  entries : list (string * MetaShardEntry);
}.

Record ManifestShardInfo := mkInfo {
  info_path : string;
  info_count : number;
  info_updatedAt : number;
  info_sha : option string;
}.

Record MetaManifest := mkManifest {
  manifest_version : number;
  manifest_updatedAt : number;
  manifest_shards : list (string * ManifestShardInfo);
}.

Record ShardCacheEntry := mkShard {
  shard_bucket : string;
  shard_path : string;
  shard_sha : option string;
  shard_count : number;
  shard_updatedAt : number;
  shard_doc : option MetaShardDocument;
  shard_loaded : bool;
}.

Record Cache := mkCache {
  cache_manifest : MetaManifest;
  manifestSha : option string;
  cache_shards : list (string * ShardCacheEntry);
  fetchedAt : number;
}.

(** The records as JS values, as [JSON.stringify] reads them. *)
Definition optstr_val (s : optstr) : Val :=
  match s with SUndef => VUndef | SNull => VNull | SStr x => VStr x end.

Definition optnum_val (n : option number) : Val :=
  match n with None => VNull | Some x => VNum x end.

Definition nullstr_val (s : option string) : Val :=
  match s with None => VNull | Some x => VStr x end.

Definition shard_entry_val (e : MetaShardEntry) : Val :=
  let m := se_entry e in
  VObj [("fingerprint", VStr (fingerprint m)); ("repoPath", VStr (repoPath m));
        ("previewRepoPath", optstr_val (previewRepoPath m));
        ("createdAt", optnum_val (createdAt m)); ("fileSize", optnum_val (fileSize m));
        ("contentHash", nullstr_val (contentHash m));
        ("uploadedAt", optnum_val (uploadedAt m)); ("assetId", optstr_val (assetId m));
        ("updatedAt", VNum (se_updatedAt e))].

Definition doc_val (d : MetaShardDocument) : Val :=
  VObj [("version", VNum (doc_version d)); ("bucket", VStr (doc_bucket d));
        ("generatedAt", VNum (generatedAt d));
        ("entries", VObj (map (fun '(k, e) => (k, shard_entry_val e)) (entries d)))].

Definition info_val (i : ManifestShardInfo) : Val :=
  VObj [("path", VStr (info_path i)); ("count", VNum (info_count i));
        ("updatedAt", VNum (info_updatedAt i)); ("sha", nullstr_val (info_sha i))].

Definition manifest_val (m : MetaManifest) : Val :=
  VObj [("version", VNum (manifest_version m)); ("updatedAt", VNum (manifest_updatedAt m));
        ("shards", VObj (map (fun '(k, i) => (k, info_val i)) (manifest_shards m)))].

(** *** Normalisation *)

Section Normalize.

(** [Date.now()] during the call. *)
Variable now : number.

Definition is_nonempty_string (v : Val) : option string :=
  match v with VStr s => if String.eqb s "" then None else Some s | _ => None end.

(** The loop body of [normalizeManifest]. *)
Definition normalize_info (acc : list (string * ManifestShardInfo)) (kv : string * Val)
  : list (string * ManifestShardInfo) :=
  let '(key, rawInfo) := kv in
  if not_object rawInfo then acc else
  let bucket := sanitizeBucket key in
  let path := match is_nonempty_string (get_prop rawInfo "path") with
              | Some p => p
              | None => getShardPath bucket
              end in
  let count := toNumber (get_prop rawInfo "count") (num_of_Z 0) in
  let updatedAt := toNumber (get_prop rawInfo "updatedAt") (num_of_Z 0) in
  let sha := match get_prop rawInfo "sha" with VStr s => Some s | _ => None end in
  obj_set bucket (mkInfo path count updatedAt sha) acc.

(** [normalizeManifest(input)] *)
Definition normalizeManifest (input : Val) : MetaManifest :=
  let raw := get_prop input "shards" in
  let shards := if not_object raw then [] else fold_left normalize_info (val_entries raw) [] in
  mkManifest (toNumber (get_prop input "version") MANIFEST_VERSION)
             (toNumber (get_prop input "updatedAt") now) shards.

(** The loop body of [normalizeShardDocument]. *)
Definition normalize_entry (acc : list (string * MetaShardEntry)) (kv : string * Val)
  : list (string * MetaShardEntry) :=
  let '(key, rawValue) := kv in
  if not_object rawValue then acc else
  let fp := match is_nonempty_string (get_prop rawValue "fingerprint") with
            | Some f => f
            | None => key
            end in
  if String.eqb fp "" then acc else
  match toOptionalString (get_prop rawValue "repoPath") with
  | None => acc
  | Some repo =>
      let opt v := match toOptionalString v with Some s => SStr s | None => SNull end in
      let e := mkMetaEntry fp repo (opt (get_prop rawValue "previewRepoPath"))
                 (toNullableNumber (get_prop rawValue "createdAt"))
                 (toNullableNumber (get_prop rawValue "fileSize"))
                 (toOptionalString (get_prop rawValue "contentHash"))
                 (toNullableNumber (get_prop rawValue "uploadedAt"))
                 (opt (get_prop rawValue "assetId")) in
      obj_set fp (mkShardEntry e (toNumber (get_prop rawValue "updatedAt") now)) acc
  end.

(** [normalizeShardDocument(bucket, input)] *)
Definition normalizeShardDocument (bucket : string) (input : Val) : MetaShardDocument :=
  let docBucket := match is_nonempty_string (get_prop input "bucket") with
                   | Some b => sanitizeBucket b
                   | None => sanitizeBucket bucket
                   end in
  let raw := get_prop input "entries" in
  let es := if not_object raw then [] else fold_left normalize_entry (val_entries raw) [] in
  mkDoc (toNumber (get_prop input "version") SHARD_VERSION) docBucket
        (toNumber (get_prop input "generatedAt") now) es.

(** [makeEmptyShard(bucket)] *)
Definition makeEmptyShard (bucket : string) : MetaShardDocument :=
  mkDoc SHARD_VERSION (sanitizeBucket bucket) now [].

End Normalize.

(** [resolveBucket(entry)]: the first candidate that is not ['unknown']. *)
Definition resolveBucket (entry : MetaEntry) : string :=
  let candidates := [bucketFromTimestamp (createdAt entry);
                     bucketFromTimestamp (uploadedAt entry);
                     bucketFromRepoPath (Some (repoPath entry));
                     bucketFromFingerprint (fingerprint entry)] in
  sanitizeBucket (match find (fun b => negb (String.eqb b "unknown")) candidates with
                  | Some b => b
                  | None => "unknown"
                  end).

(** *** Ordering shards by freshness *)

(** [a.localeCompare(b)] on the sanitized bucket names the code compares
    (characters [0-9], [a-z] and [-]): there collation order is code-unit
    order, which is what this computes. *)
Fixpoint localeCompare (a b : string) : Z :=
  match a, b with
  | EmptyString, EmptyString => 0
  | EmptyString, String _ _ => -1
  | String _ _, EmptyString => 1
  | String c a', String d b' =>
      let x := Z.of_N (N_of_ascii c) in
      let y := Z.of_N (N_of_ascii d) in
      if x <? y then -1 else if y <? x then 1 else localeCompare a' b'
  end.

(** The comparator of [sortBucketsByFreshness]:
    [(b.updatedAt ?? 0) - (a.updatedAt ?? 0) || b.bucket.localeCompare(a.bucket)]. *)
Definition freshness_cmp (a b : ShardCacheEntry) : number :=
  let d := num_sub (shard_updatedAt b) (shard_updatedAt a) in
  if num_falsy d then num_of_Z (localeCompare (shard_bucket b) (shard_bucket a)) else d.

Definition num_positive (n : number) : bool :=
  match n with NFin q => negb (Qle_bool q 0) | NInf neg => negb neg | NNaN => false end.

(** Stable insertion: [x] goes after every [y] with [cmp(y, x) <= 0]. *)
Fixpoint insert_fresh (x : ShardCacheEntry) (l : list ShardCacheEntry) : list ShardCacheEntry :=
  match l with
  | [] => [x]
  | y :: ys => if num_positive (freshness_cmp y x) then x :: y :: ys else y :: insert_fresh x ys
  end.

(** [sortBucketsByFreshness]. The comparator orders shards by
    [updatedAt], newest first, then by bucket name, descending: shards of
    one map have distinct buckets, so every correct sort returns this
    order. *)
Definition sortBucketsByFreshness (shards : list ShardCacheEntry) : list string :=
  map shard_bucket (fold_left (fun acc s => insert_fresh s acc) shards []).

(** *** The world: remote repository, clock and module state *)

(** Content of a remote file, as [JSON.parse] of its decoded text reads
    it: a JSON value, or text that does not parse (a photo, say). *)
Inductive Content := CJson (v : Val) | CRaw.

(** The repository: each file path holds its blob sha and content. Blob
    shas are fresh strings drawn from [next_sha]. *)
Record Remote := mkRemote {
  files : list (string * (string * Content));
  next_sha : N;
}.

(** The module state of metaIndex.ts: [cache] and its five maps. *)
Record MetaState := mkMetaState {
  cache : option Cache;
  metaByFingerprint : list (string * MetaShardEntry);
  pathToFingerprint : list (string * string);
  fingerprintToBucket : list (string * string);
  bucketToFingerprints : list (string * list string);
  fingerprintToPaths : list (string * list string);
}.

Definition empty_meta : MetaState := mkMetaState None [] [] [] [] [].

(** The state of types.ts used by deletes: [metaReady], the local store
    (assets by fingerprint and the persisted blocklist), the in-memory
    auto-sync blocklist, the upload index cache and the number of
    cache-invalidation events emitted. *)
Record AppState := mkAppState {
  metaReady : bool;
  store_assets : list (string * UploadIndex.AssetRecord);
  store_blocklist : list string;
  autoSyncBlocklist : list string;
  autoSyncBlocklistLoaded : bool;
  uploadIndexCache : UploadIndex.Index;
  cacheInvalidations : nat;
}.

(** [clock] is [Date.now()]: the model reads one value per operation. *)
Record World := mkWorld {
  remote : Remote;
  clock : Z;
  meta : MetaState;
  app : AppState;
}.

Definition set_remote (r : Remote) (w : World) : World := mkWorld r (clock w) (meta w) (app w).
Definition set_meta (m : MetaState) (w : World) : World := mkWorld (remote w) (clock w) m (app w).
Definition set_app (a : AppState) (w : World) : World := mkWorld (remote w) (clock w) (meta w) a.

(** Errors thrown: an HTTP status from the GitHub API. *)
Inductive Err := HttpError (status : Z).

(** A computation reads and updates the world; a thrown error keeps the
    updates made before it. *)
Definition M (A : Type) : Type := World -> (A + Err) * World.

Definition ret {A} (a : A) : M A := fun w => (inl a, w).

Definition bind {A B} (m : M A) (k : A -> M B) : M B :=
  fun w => match m w with
           | (inl a, w') => k a w'
           | (inr e, w') => (inr e, w')
           end.

Definition throw {A} (e : Err) : M A := fun w => (inr e, w).

Notation "'let*' x ':=' m 'in' k" := (bind m (fun x => k))
  (at level 200, x pattern, m at level 100, k at level 200).

(** [try { m } catch (error) { if (error?.status === 404) h; else throw }] *)
Definition catch404 {A} (m : M A) (h : M A) : M A :=
  fun w => match m w with
           | (inr (HttpError 404), w') => h w'
           | r => r
           end.

Definition get_world : M World := fun w => (inl w, w).
Definition modify (f : World -> World) : M unit := fun w => (inl tt, f w).
Definition get_meta : M MetaState := fun w => (inl (meta w), w).
Definition modify_meta (f : MetaState -> MetaState) : M unit :=
  modify (fun w => set_meta (f (meta w)) w).
Definition now : M number := fun w => (inl (num_of_Z (clock w)), w).

(** *** The GitHub contents API *)

Inductive ItemType := ItemFile | ItemDir.

(** A [getContent] response: a file ([data] an object) or a directory
    listing ([data] an array of items). *)
Inductive ContentData :=
| GFile (path sha : string) (content : Content)
| GDir (items : list (ItemType * string)).

(** The entry of the directory [dir] that leads to [path], if [path] lies
    below [dir]. *)
Fixpoint first_segment (s : string) : string * bool :=
  match s with
  | EmptyString => (EmptyString, false)
  | String "/" _ => (EmptyString, true)
  | String c s' => let (a, deeper) := first_segment s' in (String c a, deeper)
  end.

Definition child_of (dir path : string) : option (ItemType * string) :=
  let p := dir ++ "/" in
  if String.prefix p path then
    let (name, deeper) := first_segment (substring (String.length p) (String.length path) path) in
    Some (if deeper then ItemDir else ItemFile, p ++ name)
  else None.

Fixpoint add_item (it : ItemType * string) (l : list (ItemType * string)) : list (ItemType * string) :=
  match l with
  | [] => [it]
  | x :: xs => if String.eqb (snd x) (snd it) then l else x :: add_item it xs
  end.

(** The listing of [dir]: its entries in the order of the repository's
    file list. *)
Definition dir_items (dir : string) (fs : list (string * (string * Content))) : list (ItemType * string) :=
  fold_left (fun acc '(p, _) => match child_of dir p with
                                | Some it => add_item it acc
                                | None => acc
                                end) fs [].

(** [octokit.repos.getContent({ path })]: the file, the listing of a
    directory, or a 404. *)
Definition getContent (path : string) : M ContentData :=
  fun w =>
    let fs := files (remote w) in
    match map_get path fs with
    | Some (sha, c) => (inl (GFile path sha c), w)
    | None =>
        match dir_items path fs with
        | [] => (inr (HttpError 404), w)
        | items => (inl (GDir items), w)
        end
    end.

Definition sha_matches (given : option string) (current : option string) : bool :=
  match given, current with
  | Some g, Some c => String.eqb g c
  | None, None => true
  | _, _ => false
  end.

(** A path that is a directory, or lies below a file, cannot be written. *)
Definition path_blocked (path : string) (fs : list (string * (string * Content))) : bool :=
  existsb (fun '(p, _) => String.prefix (path ++ "/") p || String.prefix (p ++ "/") path) fs.

(** [octokit.repos.createOrUpdateFileContents({ path, content, sha })]:
    a compare-and-swap on the path's sha ([None]: the file must not
    exist); it returns the new blob sha. *)
Definition createOrUpdateFileContents (path : string) (content : Content) (sha : option string)
  : M string :=
  fun w =>
    let r := remote w in
    if path_blocked path (files r) then (inr (HttpError 422), w)
    else if sha_matches sha (option_map fst (map_get path (files r))) then
      let s := string_of_N (next_sha r) in
      (inl s, set_remote (mkRemote (map_set path (s, content) (files r)) (N.succ (next_sha r))) w)
    else (inr (HttpError 409), w).

(** [octokit.repos.deleteFile({ path, sha })] *)
Definition deleteFile_api (path sha : string) : M unit :=
  fun w =>
    let r := remote w in
    match map_get path (files r) with
    | None => (inr (HttpError 404), w)
    | Some (s, _) =>
        if String.eqb s sha
        then (inl tt, set_remote (mkRemote (map_delete path (files r)) (next_sha r)) w)
        else (inr (HttpError 409), w)
    end.

(** [encode(value)] followed by decoding and [JSON.parse] on the reader's
    side. *)
Definition encode (v : Val) : Content := CJson (json_roundtrip v).

(** [decode(raw)]: [null] when the text does not parse. *)
Definition decode (c : Content) : Val :=
  match c with CJson v => v | CRaw => VNull end.

(** *** The in-memory index *)

Definition falsy_optstr (s : optstr) : option string :=
  match s with SStr x => if String.eqb x "" then None else Some x | _ => None end.

(** [registerPaths(fingerprint, [repoPath, previewRepoPath])] *)
Definition registerPaths (fp : string) (paths : list (option string)) (m : MetaState) : MetaState :=
  let '(p2f, set) :=
    fold_left (fun '(p2f, set) path =>
                 match path with
                 | Some p => if String.eqb p "" then (p2f, set) else (map_set p fp p2f, set_add p set)
                 | None => (p2f, set)
                 end) paths (pathToFingerprint m, []) in
  mkMetaState (cache m) (metaByFingerprint m) p2f (fingerprintToBucket m) (bucketToFingerprints m)
    (match set with [] => map_delete fp (fingerprintToPaths m) | _ => map_set fp set (fingerprintToPaths m) end).

(** [removeEntryFromCache(fingerprint)] *)
Definition removeEntryFromCache (fp : string) (m : MetaState) : MetaState :=
  let b2f := match map_get fp (fingerprintToBucket m) with
             | Some bucket =>
                 if String.eqb bucket "" then bucketToFingerprints m else
                 match map_get bucket (bucketToFingerprints m) with
                 | Some set =>
                     match set_delete fp set with
                     | [] => map_delete bucket (bucketToFingerprints m)
                     | set' => map_set bucket set' (bucketToFingerprints m)
                     end
                 | None => bucketToFingerprints m
                 end
             | None => bucketToFingerprints m
             end in
  let '(p2f, f2p) := match map_get fp (fingerprintToPaths m) with
                     | Some paths => (fold_left (fun acc p => map_delete p acc) paths (pathToFingerprint m),
                                      map_delete fp (fingerprintToPaths m))
                     | None => (pathToFingerprint m, fingerprintToPaths m)
                     end in
  mkMetaState (cache m) (map_delete fp (metaByFingerprint m)) p2f
    (map_delete fp (fingerprintToBucket m)) b2f f2p.

(** [evictBucketEntries(bucket)] *)
Definition evictBucketEntries (bucket : string) (m : MetaState) : MetaState :=
  match map_get bucket (bucketToFingerprints m) with
  | Some fps => fold_left (fun acc fp => removeEntryFromCache fp acc) fps m
  | None => m
  end.

(** One entry of the loop of [ingestShardDocument]. *)
Definition ingest_entry (bucket : string) (acc : MetaState * list string) (e : MetaShardEntry)
  : MetaState * list string :=
  let '(m, bucketSet) := acc in
  let fp := fingerprint (se_entry e) in
  if String.eqb fp "" then acc else
  let m1 := mkMetaState (cache m) (map_set fp e (metaByFingerprint m)) (pathToFingerprint m)
              (map_set fp bucket (fingerprintToBucket m)) (bucketToFingerprints m) (fingerprintToPaths m) in
  (registerPaths fp [Some (repoPath (se_entry e)); falsy_optstr (previewRepoPath (se_entry e))] m1,
   set_add fp bucketSet).

(** [ingestShardDocument(doc)] *)
Definition ingestShardDocument (doc : MetaShardDocument) (m : MetaState) : MetaState :=
  let '(m1, bucketSet) :=
    fold_left (ingest_entry (doc_bucket doc)) (map snd (entries doc))
      (evictBucketEntries (doc_bucket doc) m, []) in
  mkMetaState (cache m1) (metaByFingerprint m1) (pathToFingerprint m1) (fingerprintToBucket m1)
    (match bucketSet with
     | [] => map_delete (doc_bucket doc) (bucketToFingerprints m1)
     | _ => map_set (doc_bucket doc) bucketSet (bucketToFingerprints m1)
     end)
    (fingerprintToPaths m1).

(** [getMetaEntryFromCache(fingerprintOrPath)] *)
Definition getMetaEntryFromCache (key : string) (m : MetaState) : option MetaShardEntry :=
  match map_get key (metaByFingerprint m) with
  | Some e => Some e
  | None =>
      match map_get key (pathToFingerprint m) with
      | Some fp => if String.eqb fp "" then None else map_get fp (metaByFingerprint m)
      | None => None
      end
  end.

(** *** Reading and writing the manifest and shards *)

Definition get_cache : M (option Cache) := fun w => (inl (cache (meta w)), w).

Definition set_cache (c : Cache) (m : MetaState) : MetaState :=
  mkMetaState (Some c) (metaByFingerprint m) (pathToFingerprint m) (fingerprintToBucket m)
    (bucketToFingerprints m) (fingerprintToPaths m).

(** A mutation of the [cache] object ([state] in the code). *)
Definition modify_cache (f : Cache -> Cache) : M unit :=
  modify_meta (fun m => match cache m with Some c => set_cache (f c) m | None => m end).

Definition with_shards (f : list (string * ShardCacheEntry) -> list (string * ShardCacheEntry))
  (c : Cache) : Cache :=
  mkCache (cache_manifest c) (manifestSha c) (f (cache_shards c)) (fetchedAt c).

Definition with_manifest (f : MetaManifest -> MetaManifest) (c : Cache) : Cache :=
  mkCache (f (cache_manifest c)) (manifestSha c) (cache_shards c) (fetchedAt c).

Definition with_manifestSha (s : option string) (c : Cache) : Cache :=
  mkCache (cache_manifest c) s (cache_shards c) (fetchedAt c).

(** [state.shards.get(key)] *)
Definition shard_at (key : string) : M (option ShardCacheEntry) :=
  fun w => (inl (match cache (meta w) with
                 | Some c => map_get key (cache_shards c)
                 | None => None
                 end), w).

(** A shard object lives in [state.shards] under its key: its field
    updates are written back there. *)
Definition put_shard (key : string) (s : ShardCacheEntry) : M unit :=
  modify_cache (with_shards (map_set key s)).

Definition set_doc (d : option MetaShardDocument) (s : ShardCacheEntry) : ShardCacheEntry :=
  mkShard (shard_bucket s) (shard_path s) (shard_sha s) (shard_count s) (shard_updatedAt s) d
    (shard_loaded s).

Definition count_of (es : list (string * MetaShardEntry)) : number :=
  num_of_Z (Z.of_nat (length es)).

(** [fetchManifest]: the normalised manifest and its sha. *)
Definition fetchManifest : M (MetaManifest * option string) :=
  let* data := getContent META_MANIFEST_PATH in
  let* t := now in
  match data with
  | GDir _ => ret (normalizeManifest t VNull, None)
  | GFile _ sha c => ret (normalizeManifest t (decode c), Some sha)
  end.

(** [writeManifest(manifest, sha)]: the new sha. *)
Definition writeManifest (manifest : MetaManifest) (sha : option string) : M (option string) :=
  let payload := mkManifest MANIFEST_VERSION (manifest_updatedAt manifest) (manifest_shards manifest) in
  let* s := createOrUpdateFileContents META_MANIFEST_PATH (encode (manifest_val payload)) sha in
  ret (Some s).

(** [fetchShardDocument(bucket, path)]: a missing file is an empty shard. *)
Definition fetchShardDocument (bucket path : string) : M (MetaShardDocument * option string) :=
  catch404
    (let* data := getContent path in
     let* t := now in
     match data with
     | GDir _ => ret (makeEmptyShard t bucket, None)
     | GFile _ sha c => ret (normalizeShardDocument t bucket (decode c), Some sha)
     end)
    (let* t := now in ret (makeEmptyShard t bucket, None)).

(** [persistShard(shard)] for the shard stored under [key]. *)
Definition persistShard (key : string) : M unit :=
  let* s := shard_at key in
  match s with
  | None => ret tt
  | Some shard =>
      let* t := now in
      let doc0 := match shard_doc shard with Some d => d | None => makeEmptyShard t (shard_bucket shard) end in
      let doc := mkDoc SHARD_VERSION (sanitizeBucket (shard_bucket shard)) t (entries doc0) in
      let shard1 := set_doc (Some doc) shard in
      let* _ := put_shard key shard1 in
      let* sha := createOrUpdateFileContents (shard_path shard) (encode (doc_val doc)) (shard_sha shard) in
      put_shard key (mkShard (shard_bucket shard) (shard_path shard) (Some sha)
                       (count_of (entries doc)) (generatedAt doc) (Some doc) true)
  end.

(** [deleteShardFile(shard)] *)
Definition deleteShardFile (shard : ShardCacheEntry) : M unit :=
  match shard_sha shard with
  | Some sha => if String.eqb sha "" then ret tt else deleteFile_api (shard_path shard) sha
  | None => ret tt
  end.

(** [markManifestEntry(state, bucket, shard)] *)
Definition markManifestEntry (bucket : string) (shard : option ShardCacheEntry) : M unit :=
  modify_cache (with_manifest (fun m =>
    mkManifest (manifest_version m) (manifest_updatedAt m)
      (match shard with
       | None => obj_delete bucket (manifest_shards m)
       | Some s => obj_set bucket (mkInfo (shard_path s) (shard_count s) (shard_updatedAt s) (shard_sha s))
                     (manifest_shards m)
       end))).

(** *** Shard file paths *)

Definition is_line_terminator (c : ascii) : bool :=
  (Ascii.eqb c "010" || Ascii.eqb c "013")%bool.

Definition no_line_terminator (s : string) : bool :=
  forallb (fun c => negb (is_line_terminator c)) (list_ascii_of_string s).

(** The tail [\/${SHARD_FILENAME}$] of the dated, unknown and misc regex
    literals, matched against what follows the [\/]. A regex literal does
    not interpolate [${...}]: the tail is the end assertion [$], the literal
    characters [{SHARD_FILENAME}] and a final [$]. The rest [r] must be
    empty for the assertion and must be [{SHARD_FILENAME}] for the literal
    characters that follow it. *)
Definition uninterpolated_tail (r : string) : bool :=
  String.eqb r "" && String.eqb r "{SHARD_FILENAME}".

(** [s] split before its last [n] characters. *)
Definition split_last (n : nat) (s : string) : string * string :=
  let k := (String.length s - n)%nat in
  (substring 0 k s, substring k n s).

Definition strip_prefix (p s : string) : option string :=
  if String.prefix p s then Some (substring (String.length p) (String.length s) s) else None.

Definition dated_shard_bucket (s : string) : option string :=
  match strip_prefix "gitgallery/meta/" s with
  | Some r =>
      match digits_n 4 r with
      | Some (y, String "/" r1) =>
          match digits_n 2 r1 with
          | Some (m, String "/" r2) =>
              match digits_n 2 r2 with
              | Some (d, String "/" r3) =>
                  if uninterpolated_tail r3 then Some (y ++ "-" ++ m ++ "-" ++ d) else None
              | _ => None
              end
          | _ => None
          end
      | _ => None
      end
  | None => None
  end.

(** [(.+)] followed by a fixed tail of [n] characters that [tail_ok]
    accepts, at the end of the string. *)
Definition greedy_capture (n : nat) (tail_ok : string -> bool) (r : string) : option string :=
  if (n <? String.length r)%nat then
    let (mid, tail) := split_last n r in
    if no_line_terminator mid && tail_ok tail then Some mid else None
  else None.

(** [(.+)] followed by a rest that [rest_ok] accepts, with backtracking:
    the longest capture of at most [k] characters, without line
    terminators, whose rest is accepted. *)
Fixpoint greedy_from (k : nat) (rest_ok : string -> bool) (r : string) : option string :=
  match k with
  | O => None
  | S k' =>
      let mid := substring 0 k r in
      if no_line_terminator mid && rest_ok (substring k (String.length r - k) r)
      then Some mid else greedy_from k' rest_ok r
  end.

Definition or_else (a : option string) (b : unit -> option string) : option string :=
  match a with Some x => Some x | None => b tt end.

(** [bucketFromShardFilePath(path)] ([None]: [null]/[undefined]). *)
Definition bucketFromShardFilePath (path : option string) : option string :=
  match path with
  | None => None
  | Some p0 =>
      if String.eqb p0 "" then None else
      let normalized := map_string (fun c => if Ascii.eqb c "092"%char then "/"%char else c) p0 in
      or_else (dated_shard_bucket normalized) (fun _ =>
      or_else (match strip_prefix "gitgallery/meta/unknown/" normalized with
               | Some r => if uninterpolated_tail r then Some "unknown" else None
               | None => None
               end) (fun _ =>
      or_else (match strip_prefix "gitgallery/meta/shards/" normalized with
               | Some r => option_map sanitizeBucket
                             (greedy_capture 5 (fun t => String.eqb t ".json") r)
               | None => None
               end) (fun _ =>
      match strip_prefix "gitgallery/meta/misc/" normalized with
      | Some r => option_map sanitizeBucket
                    (greedy_from (String.length r) (fun t => match t with
                                                             | String "/" f => uninterpolated_tail f
                                                             | _ => false
                                                             end) r)
      | None => None
      end)))
  end.

(** *** Bootstrap and loading *)

(** [walk(path)] of [listShardFiles], pushing onto [files]. [fuel] bounds
    the depth: every directory visited is a proper prefix of a file path,
    so the length of the longest path is enough. *)
Fixpoint walk (fuel : nat) (path : string) (files : list (string * string))
  : M (list (string * string)) :=
  match fuel with
  | O => ret files
  | S f =>
      let* response := catch404 (let* d := getContent path in ret (Some d)) (ret None) in
      match response with
      | None => ret files
      | Some (GFile p _ _) =>
          match bucketFromShardFilePath (Some p) with
          | Some b => ret ((files ++ [(b, p)])%list)
          | None => ret files
          end
      | Some (GDir items) =>
          (fix go (items : list (ItemType * string)) (files : list (string * string)) :=
             match items with
             | [] => ret files
             | (ItemDir, p) :: rest => let* files' := walk f p files in go rest files'
             | (ItemFile, p) :: rest =>
                 match bucketFromShardFilePath (Some p) with
                 | Some b => go rest ((files ++ [(b, p)])%list)
                 | None => go rest files
                 end
             end) items files
      end
  end.

Definition walk_fuel (w : World) : nat :=
  S (fold_left (fun n '(p, _) => Nat.max n (String.length p)) (files (remote w)) O).

(** [listShardFiles]: the [{ bucket, path }] of every shard file found. *)
Definition listShardFiles : M (list (string * string)) :=
  fun w => walk (walk_fuel w) META_ROOT [] w.

Definition shard_info (s : ShardCacheEntry) : ManifestShardInfo :=
  mkInfo (shard_path s) (shard_count s) (shard_updatedAt s) (shard_sha s).

(** One file of the loop of [buildManifestFromExistingShards]. *)
Definition build_step (acc : MetaManifest * list (string * ShardCacheEntry)) (file : string * string)
  : M (MetaManifest * list (string * ShardCacheEntry)) :=
  let '(manifest, shards) := acc in
  let '(bucket, path) := file in
  let* (doc, sha) := fetchShardDocument bucket path in
  let shard := mkShard (doc_bucket doc) path sha (count_of (entries doc)) (generatedAt doc) (Some doc) true in
  let* _ := modify_meta (ingestShardDocument doc) in
  ret (mkManifest (manifest_version manifest) (manifest_updatedAt manifest)
         (obj_set (doc_bucket doc) (shard_info shard) (manifest_shards manifest)),
       map_set (doc_bucket doc) shard shards).

Fixpoint foldM {A B} (f : A -> B -> M A) (l : list B) (a : A) : M A :=
  match l with
  | [] => ret a
  | x :: xs => let* a' := f a x in foldM f xs a'
  end.

(** [buildManifestFromExistingShards] *)
Definition buildManifestFromExistingShards : M (MetaManifest * list (string * ShardCacheEntry)) :=
  let* files := listShardFiles in
  let* t := now in
  foldM build_step files (mkManifest MANIFEST_VERSION t [], []).

Definition clear_maps (m : MetaState) : MetaState := mkMetaState (cache m) [] [] [] [] [].

Definition shard_of_info (kv : string * ManifestShardInfo) : string * ShardCacheEntry :=
  let '(bucket, info) := kv in
  (bucket, mkShard bucket (info_path info) (info_sha info) (info_count info) (info_updatedAt info) None false).

(** [ensureBaseState] *)
Definition ensureBaseState : M Cache :=
  let* c := get_cache in
  match c with
  | Some state => ret state
  | None =>
      let* _ := modify_meta clear_maps in
      let* manifestResult := catch404 (let* r := fetchManifest in ret (Some r)) (ret None) in
      let* t := now in
      let* (manifest, manifestSha, shards) :=
        match manifestResult with
        | None =>
            let* (manifest, existing) := buildManifestFromExistingShards in
            let* sha := writeManifest manifest None in
            ret (manifest, sha,
                 fold_left (fun acc '(_, s) => map_set (shard_bucket s) s acc) existing [])
        | Some (m0, sha) =>
            let manifest := normalizeManifest t (manifest_val m0) in
            ret (manifest, sha,
                 fold_left (fun acc kv => let '(b, s) := shard_of_info kv in map_set b s acc)
                   (manifest_shards manifest) [])
        end in
      let state := mkCache manifest manifestSha shards t in
      let* _ := modify_meta (set_cache state) in
      ret state
  end.

(** [ensureShardLoaded(bucket)]: the key under which the shard is
    stored. *)
Definition ensureShardLoaded (bucket : string) : M string :=
  let* _ := ensureBaseState in
  let key := sanitizeBucket bucket in
  let* s0 := shard_at key in
  let* shard :=
    match s0 with
    | Some s => ret s
    | None =>
        let s := mkShard key (getShardPath key) None (num_of_Z 0) (num_of_Z 0) None false in
        let* _ := put_shard key s in ret s
    end in
  match shard_loaded shard, shard_doc shard with
  | true, Some _ => ret key
  | _, _ =>
      let* (doc, sha) := fetchShardDocument key (shard_path shard) in
      let shard' := mkShard (shard_bucket shard) (shard_path shard) sha (count_of (entries doc))
                      (generatedAt doc) (Some doc) true in
      let* _ := put_shard key shard' in
      let* _ := modify_meta (if (0 <? length (entries doc))%nat then ingestShardDocument doc
                             else evictBucketEntries key) in
      let* _ := markManifestEntry key (Some shard') in
      ret key
  end.

(** The loop of [preloadRecentShards]. *)
Fixpoint preload_loop (target : Z) (buckets : list string) : M unit :=
  match buckets with
  | [] => ret tt
  | bucket :: rest =>
      let* m := get_meta in
      if target <=? Z.of_nat (length (metaByFingerprint m)) then ret tt else
      let* s := shard_at bucket in
      match s with
      | None => preload_loop target rest
      | Some shard =>
          let* _ := if shard_loaded shard then
                      match shard_doc shard with
                      | Some d => modify_meta (ingestShardDocument d)
                      | None => ret tt
                      end
                    else let* _ := ensureShardLoaded bucket in ret tt in
          preload_loop target rest
      end
  end.

(** [preloadRecentShards(targetEntries)] *)
Definition preloadRecentShards (target : Z) : M unit :=
  let* state := ensureBaseState in
  let* m := get_meta in
  if target <=? Z.of_nat (length (metaByFingerprint m)) then ret tt else
  preload_loop target (sortBucketsByFreshness (map snd (cache_shards state))).

(** [loadMetaIndex] *)
Definition loadMetaIndex : M Cache :=
  let* state := ensureBaseState in
  let* _ := preloadRecentShards DEFAULT_PRELOAD_TARGET in
  ret state.

(** [invalidateMetaCache] *)
Definition invalidateMetaCache : M unit := modify_meta (fun _ => empty_meta).

(** [ensureAllMetaShardsLoaded]: [state.shards.values()] in insertion
    order, then [ensureShardLoaded] for each bucket, newest first. *)
Definition ensureAllMetaShardsLoaded : M unit :=
  let* state := ensureBaseState in
  let orderedBuckets := sortBucketsByFreshness (map snd (cache_shards state)) in
  foldM (fun _ bucket => let* _ := ensureShardLoaded bucket in ret tt) orderedBuckets tt.

(** *** Reading the cached entries *)

(** [entry.uploadedAt ?? 0] *)
Definition uploaded_or_zero (e : MetaShardEntry) : number :=
  match uploadedAt (se_entry e) with Some n => n | None => num_of_Z 0 end.

(** Stable insertion for the comparator
    [(a, b) => (b.uploadedAt ?? 0) - (a.uploadedAt ?? 0)]: [x] goes before
    the first [y] with [cmp(y, x) > 0]. [Array.prototype.sort] is stable,
    so for a consistent comparator this is the order it returns. *)
Fixpoint insert_uploaded (x : MetaShardEntry) (l : list MetaShardEntry) : list MetaShardEntry :=
  match l with
  | [] => [x]
  | y :: ys =>
      if num_positive (num_sub (uploaded_or_zero x) (uploaded_or_zero y)) then x :: y :: ys
      else y :: insert_uploaded x ys
  end.

(** [getCachedMetaEntries(limit)] ([None]: no argument). [slice(0, limit)]
    truncates a fractional limit and takes everything for [Infinity]. *)
Definition getCachedMetaEntries (limit : option number) (m : MetaState) : list MetaShardEntry :=
  let entries := fold_left (fun acc e => insert_uploaded e acc) (map snd (metaByFingerprint m)) [] in
  match limit with
  | None => entries
  | Some n =>
      if num_falsy n then entries
      else match n with
           | NFin q => if Qle_bool q 0 then entries else firstn (Z.to_nat (Qtrunc q)) entries
           | NInf _ => entries
           | NNaN => entries
           end
  end.

(** *** Removing and upserting entries *)

(** The grouping loop of [removeMetaEntries]. *)
Definition group_step (m : MetaState) (grouped : list (string * list string)) (fp : string)
  : list (string * list string) :=
  let bucket := match map_get fp (fingerprintToBucket m) with
                | Some b => b
                | None => bucketFromFingerprint fp
                end in
  let key := sanitizeBucket bucket in
  let l := match map_get key grouped with Some l => l | None => [] end in
  map_set key (l ++ [fp])%list grouped.

(** The inner loop: delete the fingerprints that [shard.doc.entries] has. *)
Definition remove_step (acc : list (string * MetaShardEntry) * MetaState * bool) (fp : string)
  : list (string * MetaShardEntry) * MetaState * bool :=
  let '(es, m, changed) := acc in
  if obj_get_truthy fp es then (obj_delete fp es, removeEntryFromCache fp m, true) else acc.

(** One bucket of the outer loop; the result is [manifestDirty]. *)
Definition remove_bucket (dirty : bool) (group : string * list string) : M bool :=
  let '(bucket, list) := group in
  let* key := ensureShardLoaded bucket in
  let* s := shard_at key in
  match s with
  | None => ret dirty
  | Some shard =>
      match shard_doc shard with
      | None => ret dirty
      | Some doc =>
          let* m := get_meta in
          let '(es, m', changed) := fold_left remove_step list (entries doc, m, false) in
          let* _ := modify_meta (fun _ => m') in
          let shard1 := set_doc (Some (mkDoc (doc_version doc) (doc_bucket doc) (generatedAt doc) es)) shard in
          let* _ := put_shard key shard1 in
          if negb changed then ret dirty else
          let* t := now in
          let doc2 := mkDoc (doc_version doc) (doc_bucket doc) t es in
          let shard2 := mkShard (shard_bucket shard) (shard_path shard) (shard_sha shard)
                          (count_of es) t (Some doc2) (shard_loaded shard) in
          let* _ := put_shard key shard2 in
          if (length es =? 0)%nat then
            let* _ := deleteShardFile shard2 in
            let* _ := modify_cache (with_shards (map_delete bucket)) in
            let* _ := modify_meta (evictBucketEntries bucket) in
            let* _ := markManifestEntry bucket None in
            ret true
          else
            let* _ := persistShard key in
            let* s3 := shard_at key in
            let* _ := match s3 with
                      | Some shard3 =>
                          let* _ := modify_meta (match shard_doc shard3 with
                                                 | Some d => ingestShardDocument d
                                                 | None => fun m => m
                                                 end) in
                          markManifestEntry bucket (Some shard3)
                      | None => ret tt
                      end in
            ret true
      end
  end.

(** [state.manifest.updatedAt = Date.now(); state.manifestSha = await
    writeManifest(...)] *)
Definition touch_and_write_manifest : M unit :=
  let* t := now in
  let* _ := modify_cache (with_manifest (fun m => mkManifest (manifest_version m) t (manifest_shards m))) in
  let* c := get_cache in
  match c with
  | Some state =>
      let* sha := writeManifest (cache_manifest state) (manifestSha state) in
      modify_cache (with_manifestSha sha)
  | None => ret tt
  end.

(** [removeMetaEntries(fingerprints)] *)
Definition removeMetaEntries (fingerprints : list string) : M unit :=
  match fingerprints with
  | [] => ret tt
  | _ =>
      let* _ := ensureBaseState in
      let* m := get_meta in
      let grouped := fold_left (group_step m) fingerprints [] in
      let* manifestDirty := foldM remove_bucket grouped false in
      if manifestDirty then touch_and_write_manifest else ret tt
  end.

(** [upsertMetaEntry(entry)] *)
Definition upsertMetaEntry (entry : MetaEntry) : M unit :=
  let* _ := ensureBaseState in
  let bucket := resolveBucket entry in
  let* key := ensureShardLoaded bucket in
  let* s := shard_at key in
  match s with
  | None => ret tt
  | Some shard =>
      let* t := now in
      let doc := match shard_doc shard with Some d => d | None => makeEmptyShard t bucket end in
      let es := obj_set (fingerprint entry) (mkShardEntry entry t) (entries doc) in
      let doc' := mkDoc (doc_version doc) (doc_bucket doc) t es in
      let* _ := put_shard key (mkShard (shard_bucket shard) (shard_path shard) (shard_sha shard)
                                 (count_of es) t (Some doc') (shard_loaded shard)) in
      let* _ := persistShard key in
      let* s2 := shard_at key in
      let* _ := match s2 with
                | Some shard2 =>
                    let* _ := modify_meta (match shard_doc shard2 with
                                           | Some d => ingestShardDocument d
                                           | None => fun m => m
                                           end) in
                    markManifestEntry bucket (Some shard2)
                | None => ret tt
                end in
      touch_and_write_manifest
  end.

(** *** Deleting a repository file (types.ts, githubClient) *)

Definition get_app : M AppState := fun w => (inl (app w), w).
Definition modify_app (f : AppState -> AppState) : M unit := modify (fun w => set_app (f (app w)) w).

(** [ensureMetaLoaded(false)] *)
Definition ensureMetaLoaded : M unit :=
  let* a := get_app in
  if metaReady a then ret tt else
  let* _ := loadMetaIndex in
  modify_app (fun a => mkAppState true (store_assets a) (store_blocklist a) (autoSyncBlocklist a)
                         (autoSyncBlocklistLoaded a) (uploadIndexCache a) (cacheInvalidations a)).

(** [fetchFileSha(path)] *)
Definition fetchFileSha (path : string) : M (option string) :=
  catch404 (let* d := getContent path in
            match d with
            | GDir _ => ret None
            | GFile _ sha _ => ret (Some sha)
            end)
           (ret None).

(** [deleteFile(path, message)]: nothing happens when no sha is known. *)
Definition deleteFile (path : string) : M unit :=
  let* sha := fetchFileSha path in
  match sha with
  | Some s => if String.eqb s "" then ret tt else deleteFile_api path s
  | None => ret tt
  end.

(** [localStore.getAsset] and [localStore.deleteAsset]: the local store's
    asset table, keyed by fingerprint. *)
Definition getAsset (fp : string) : M (option UploadIndex.AssetRecord) :=
  let* a := get_app in ret (map_get fp (store_assets a)).

Definition deleteAsset (fp : string) : M unit :=
  modify_app (fun a => mkAppState (metaReady a) (map_delete fp (store_assets a)) (store_blocklist a)
                         (autoSyncBlocklist a) (autoSyncBlocklistLoaded a) (uploadIndexCache a)
                         (cacheInvalidations a)).

(** [removeFromIndexCache(fingerprint, assetId)] *)
Definition removeFromIndexCache (fp : string) (assetId : option string) : M unit :=
  modify_app (fun a =>
    let idx := map_delete fp (uploadIndexCache a) in
    let idx' := match assetId with
                | Some id => if String.eqb id "" then idx else map_delete id idx
                | None => idx
                end in
    mkAppState (metaReady a) (store_assets a) (store_blocklist a) (autoSyncBlocklist a)
      (autoSyncBlocklistLoaded a) idx' (cacheInvalidations a)).

(** [ensureAutoSyncBlocklist]: load the persisted blocklist once. *)
Definition ensureAutoSyncBlocklist : M unit :=
  modify_app (fun a =>
    if autoSyncBlocklistLoaded a then a else
    mkAppState (metaReady a) (store_assets a) (store_blocklist a)
      (fold_left (fun s fp => if String.eqb fp "" then s else set_add fp s) (store_blocklist a) [])
      true (uploadIndexCache a) (cacheInvalidations a)).

(** [blockAutoSyncFingerprint(fingerprint)] *)
Definition blockAutoSyncFingerprint (fp : string) : M unit :=
  if String.eqb fp "" then ret tt else
  let* _ := ensureAutoSyncBlocklist in
  modify_app (fun a =>
    if existsb (String.eqb fp) (autoSyncBlocklist a) then a else
    mkAppState (metaReady a) (store_assets a) (set_add fp (store_blocklist a))
      (set_add fp (autoSyncBlocklist a)) (autoSyncBlocklistLoaded a) (uploadIndexCache a)
      (cacheInvalidations a)).

(** [cacheInvalidatedEmitter.emit()] *)
Definition emitCacheInvalidated : M unit :=
  modify_app (fun a => mkAppState (metaReady a) (store_assets a) (store_blocklist a)
                         (autoSyncBlocklist a) (autoSyncBlocklistLoaded a) (uploadIndexCache a)
                         (S (cacheInvalidations a))).

(** [deleteRepoFile(path, { skipInvalidation })], leaving out the sync
    status and completion reporting. *)
Definition deleteRepoFile (path : string) (skipInvalidation : bool) : M unit :=
  let* _ := ensureMetaLoaded in
  let* _ := deleteFile path in
  let* m := get_meta in
  let* _ := match getMetaEntryFromCache path m with
            | Some cached =>
                let fp := fingerprint (se_entry cached) in
                let* _ := removeMetaEntries [fp] in
                let* existing := getAsset fp in
                let* _ := deleteAsset fp in
                let* _ := removeFromIndexCache fp (match existing with
                                                   | Some r => UploadIndex.rec_assetId r
                                                   | None => None
                                                   end) in
                blockAutoSyncFingerprint fp
            | None => ret tt
            end in
  if skipInvalidation then ret tt else emitCacheInvalidated.

(** [unblockAutoSyncFingerprint(fingerprint)] *)
Definition unblockAutoSyncFingerprint (fp : string) : M unit :=
  if String.eqb fp "" then ret tt else
  let* _ := ensureAutoSyncBlocklist in
  modify_app (fun a =>
    if negb (existsb (String.eqb fp) (autoSyncBlocklist a)) then a else
    mkAppState (metaReady a) (store_assets a) (set_delete fp (store_blocklist a))
      (set_delete fp (autoSyncBlocklist a)) (autoSyncBlocklistLoaded a) (uploadIndexCache a)
      (cacheInvalidations a)).

(** The loop of [deleteRepoFilesBulk]: the [catch] records a path whose
    [deleteRepoFile] throws as failed; what the call did before it threw
    stays done. *)
Fixpoint bulk_delete_loop (paths deleted failed : list string) : M (list string * list string) :=
  match paths with
  | [] => ret (deleted, failed)
  | p :: rest => fun w =>
      match deleteRepoFile p true w with
      | (inl _, w1) => bulk_delete_loop rest (deleted ++ [p])%list failed w1
      | (inr _, w1) => bulk_delete_loop rest deleted (failed ++ [p])%list w1
      end
  end.

(** [deleteRepoFilesBulk(paths)], leaving out the sync status and
    completion reporting. *)
Definition deleteRepoFilesBulk (paths : list string) : M (list string * list string) :=
  match paths with
  | [] => ret ([], [])
  | _ :: _ =>
      let* (deleted, failed) := bulk_delete_loop paths [] [] in
      let* _ := if (0 <? length deleted)%nat then emitCacheInvalidated else ret tt in
      ret (deleted, failed)
  end.

(** *** Scenarios *)

Definition empty_app : AppState := mkAppState false [] [] [] false [] O.

(** A fresh app start on an empty repository at time [t]. *)
Definition fresh_world (t : Z) : World := mkWorld (mkRemote [] 1) t empty_meta empty_app.

(** Time passes between two operations. *)
Definition at_time (t : Z) (w : World) : World := mkWorld (remote w) t (meta w) (app w).

(** Run [m], ignoring its result. *)
Definition exec {A} (m : M A) (w : World) : World := snd (m w).

Definition day_B : Z := 1704153600000.  (* 2024-01-02T00:00:00Z *)
Definition day_C : Z := 1704240000000.  (* 2024-01-03T00:00:00Z *)

(** The meta entry [uploadPreparedAsset] writes for a photo of 2048 bytes
    taken at [created] ([None]: unknown), uploaded at [uploaded]. *)
Definition photo (fp repo id : string) (created : option Z) (uploaded : Z) : MetaEntry :=
  mkMetaEntry fp repo SNull (option_map num_of_Z created) (Some (num_of_Z 2048)) None
    (Some (num_of_Z uploaded)) (SStr id).

(** A photo with no creation time, and one taken on 2024-01-02. *)
Definition fp1 := "IMG_0001.JPG|0|2048".
Definition fp2 := "IMG_0002.JPG|1704153600000|2048".
(** A photo taken on 2024-01-04 that was never uploaded. *)
Definition fp3 := "IMG_0003.JPG|1704326400000|2048".

(** [fp1] is uploaded on 2024-01-02 and uploaded again on 2024-01-03: its
    meta entry is then also written to the 2024-01-03 shard. [fp2] is
    uploaded next, into the 2024-01-02 shard. The app restarts and loads
    the index. *)
Definition c1_loaded : World :=
  let w1 := exec (upsertMetaEntry (photo fp1 "gitgallery/library/x/IMG_0001.JPG" "A1" None (day_B + 1000)))
              (fresh_world (day_B + 1000)) in
  let w2 := exec (upsertMetaEntry (photo fp1 "gitgallery/library/x/IMG_0001.JPG" "A1" None (day_C + 1000)))
              (at_time (day_C + 1000) w1) in
  let w3 := exec (upsertMetaEntry (photo fp2 "gitgallery/library/x/IMG_0002.JPG" "A2" (Some day_B) (day_C + 2000)))
              (at_time (day_C + 2000) w2) in
  exec loadMetaIndex (at_time (day_C + 3000) (exec invalidateMetaCache w3)).

Definition c1_after_remove : (unit + Err) * World :=
  removeMetaEntries [fp3; fp1; fp2] (at_time (day_C + 4000) c1_loaded).

Definition manifest_rows (w : World) : list (string * ManifestShardInfo) :=
  match cache (meta w) with Some c => manifest_shards (cache_manifest c) | None => [] end.

Definition shard_entry_for (e : MetaEntry) (t : Z) : string * MetaShardEntry :=
  (fingerprint e, mkShardEntry e (num_of_Z t)).

(** A shard file as the app writes it. *)
Definition shard_file (bucket : string) (t : Z) (es : list MetaEntry) : Content :=
  encode (doc_val (mkDoc SHARD_VERSION bucket (num_of_Z t) (map (fun e => shard_entry_for e t) es))).

Definition photo_on (day : Z) (name : string) : MetaEntry :=
  photo (name ++ "|" ++ string_of_Z day ++ "|2048") ("gitgallery/library/" ++ name) name (Some day) day.

(** No manifest; the 2024-01-02 shard exists only in the dated layout
    (two entries). *)
Definition c2_dated_path := "gitgallery/meta/2024/01/02/meta_dict.json".

Definition c2_world : World :=
  mkWorld (mkRemote [(c2_dated_path, ("1", shard_file "2024-01-02" day_B
                                             [photo_on day_B "a.jpg"; photo_on day_B "b.jpg"]))] 2)
          (day_C + 1000) empty_meta empty_app.

(** A photo on 2024-01-02 stored at [c8_path], and a fresher 2024-01-03
    shard of 450 entries. *)
Definition c8_path := "gitgallery/library/2024/01/02/IMG_0001.JPG".
Definition c8_photo : MetaEntry :=
  photo ("IMG_0001.JPG|" ++ string_of_Z day_B ++ "|2048") c8_path "A1" (Some day_B) day_B.
Definition c8_day_C : list MetaEntry :=
  map (fun n => photo_on day_C ("D" ++ string_of_N (N.of_nat n) ++ ".JPG")) (seq 0 450).

Definition c8_manifest : MetaManifest :=
  mkManifest MANIFEST_VERSION (num_of_Z (day_C + 1000))
    [("2024-01-02", mkInfo (getShardPath "2024-01-02") (num_of_Z 1) (num_of_Z day_B) (Some "2"));
     ("2024-01-03", mkInfo (getShardPath "2024-01-03") (num_of_Z 450) (num_of_Z day_C) (Some "3"))].

Definition c8_world : World :=
  mkWorld (mkRemote [(c8_path, ("1", CRaw));
                     (getShardPath "2024-01-02", ("2", shard_file "2024-01-02" day_B [c8_photo]));
                     (getShardPath "2024-01-03", ("3", shard_file "2024-01-03" day_C c8_day_C));
                     (META_MANIFEST_PATH, ("4", encode (manifest_val c8_manifest)))] 5)
          (day_C + 2000) empty_meta
          (mkAppState false
             [(fingerprint c8_photo,
               UploadIndex.mkRecord (fingerprint c8_photo) (Some "A1") true (Some c8_path) None)]
             [] [] false [] O).

(** An entry whose [repoPath] is empty. *)
Definition c4_entry : MetaEntry :=
  mkMetaEntry "IMG_0004.JPG|1704153600000|2048" "" SNull (Some (num_of_Z day_B))
    (Some (num_of_Z 2048)) None (Some (num_of_Z day_C)) (SStr "A4").

(** The shard document found at the path of the shard stored under [key]
    in the cache of [w], fetched afresh. *)
Definition refetch_shard (key : string) (w : World) : option MetaShardDocument :=
  match cache (meta w) with
  | Some c =>
      match map_get key (cache_shards c) with
      | Some s => match fst (fetchShardDocument key (shard_path s) w) with
                  | inl (d, _) => Some d
                  | inr _ => None
                  end
      | None => None
      end
  | None => None
  end.

(** *** Reachable states *)

(** A shard document as the code builds them: keyed by fingerprint, each
    key once. *)
Definition doc_ok (d : MetaShardDocument) : Prop :=
  NoDup (map fst (entries d)) /\
  Forall (fun '(k, e) => fingerprint (se_entry e) = k) (entries d).

Definition shard_ok (s : ShardCacheEntry) : Prop :=
  forall d, shard_doc s = Some d -> doc_ok d.

Definition shards_ok (l : list (string * ShardCacheEntry)) : Prop :=
  NoDup (map fst l) /\ Forall (fun ks => shard_ok (snd ks)) l.

(** Every shard document held in the cache is well formed. *)
Definition Inv (w : World) : Prop :=
  forall c, cache (meta w) = Some c -> shards_ok (cache_shards c).

(** The states of the app: it starts with an empty meta state and runs the
    exported operations (each may also fail half-way); meanwhile time
    passes, other devices change the repository and the rest of the app
    changes its own state. *)
Inductive reachable : World -> Prop :=
| reach_start w : meta w = empty_meta -> reachable w
| reach_env w r t a : reachable w -> reachable (mkWorld r t (meta w) a)
| reach_load w : reachable w -> reachable (snd (loadMetaIndex w))
| reach_invalidate w : reachable w -> reachable (snd (invalidateMetaCache w))
| reach_upsert w e : reachable w -> reachable (snd (upsertMetaEntry e w))
| reach_remove w fps : reachable w -> reachable (snd (removeMetaEntries fps w))
| reach_delete w p skip : reachable w -> reachable (snd (deleteRepoFile p skip w)).

(** [m] keeps [Inv], and its results satisfy [R] when started where [Inv]
    holds. *)
Definition spec {A} (m : M A) (R : A -> Prop) : Prop :=
  forall w, Inv w -> Inv (snd (m w)) /\ (forall a, fst (m w) = inl a -> R a).

(** The shard object stored under [key] in the cache, if any. *)
Definition shard_of (key : string) (w : World) : option ShardCacheEntry :=
  match cache (meta w) with
  | Some c => map_get key (cache_shards c)
  | None => None
  end.

(** The optional fields that survive [JSON.stringify], [JSON.parse] and
    [normalizeShardDocument] unchanged: [null] or a non-empty string; no
    number or a finite one. *)
Definition optstr_roundtrips (s : optstr) : bool :=
  match s with SNull => true | SStr x => negb (String.eqb x "") | SUndef => false end.

Definition optnum_roundtrips (n : option number) : bool :=
  match n with None => true | Some (NFin _) => true | Some _ => false end.

(** A meta entry that the shard file can represent: a non-empty
    fingerprint other than ["__proto__"], a non-empty [repoPath], and
    optional fields as above ([contentHash] absent or non-empty). *)
Definition entry_roundtrips (e : MetaEntry) : bool :=
  negb (String.eqb (fingerprint e) "") && negb (String.eqb (fingerprint e) "__proto__") &&
  negb (String.eqb (repoPath e) "") &&
  optstr_roundtrips (previewRepoPath e) && optstr_roundtrips (assetId e) &&
  match contentHash e with None => true | Some h => negb (String.eqb h "") end &&
  optnum_roundtrips (createdAt e) && optnum_roundtrips (fileSize e) &&
  optnum_roundtrips (uploadedAt e).

(** A photo entry whose fields all survive the shard's JSON form. *)
Definition c4_photo : MetaEntry :=
  photo "IMG_0005.JPG|1704153600000|2048" "photos/2024/01/IMG_0005.JPG" "A5" (Some day_B) day_C.

(** The repository after [c4_photo] was upserted on an empty one. *)
Definition c8_ok_world : World := snd (upsertMetaEntry c4_photo (fresh_world (day_C + 1000))).

(** [m] leaves the app state as it is. *)
Definition keeps_app {A} (m : M A) : Prop := forall w, app (snd (m w)) = app w.

End MetaIndex.

(* ------------------------------------------------------------------ *)
(** ** utils.ts: file names, repository paths and batches *)

(** Strings here are made of code units below 256 (Latin-1 text): on them
    [normalize('NFC')] changes nothing, the class [\s] and [trim] match the
    code units 9-13, 32 and 160 ([MetaIndex.is_js_space]), and
    [toLowerCase] maps A-Z and the Latin-1 capitals. *)
Module Utils.
Import JsStr.

(** [/[\u0000-\u001F\u007F-\u009F]/] *)
Definition is_control (c : ascii) : bool :=
  let n := N_of_ascii c in (N.leb n 31 || (N.leb 127 n && N.leb n 159))%bool.

(** [s.replace(/[\u0000-\u001F\u007F-\u009F]/g, '')] *)
Fixpoint remove_controls (s : string) : string :=
  match s with
  | EmptyString => EmptyString
  | String c s' => if is_control c then remove_controls s' else String c (remove_controls s')
  end.

(** The classes [[\\/]] and [[:*?<>|]] plus the double quote: backslash,
    slash, colon, star, question mark, double quote, angle brackets and bar. *)
Definition is_separator (c : ascii) : bool :=
  existsb (Ascii.eqb c) ["092"; "/"; ":"; "*"; "?"; "034"; "<"; ">"; "|"]%char.

(** The two separator replacements of [sanitizeFilename], each by ['-']. *)
Definition dash_separators (s : string) : string :=
  MetaIndex.map_string (fun c => if is_separator c then "-"%char else c) s.

(** [s.replace(/[p]+/g, r)] for a one-character replacement [r]: every
    maximal run of code units satisfying [p] becomes one [r]; [in_run]
    tells whether the previous code unit was in such a run. *)
Fixpoint replace_runs (p : ascii -> bool) (r : ascii) (in_run : bool) (s : string) : string :=
  match s with
  | EmptyString => EmptyString
  | String c s' =>
      if p c then (if in_run then replace_runs p r true s' else String r (replace_runs p r true s'))
      else String c (replace_runs p r false s')
  end.

(** [/[a-zA-Z0-9._ -]/] *)
Definition is_allowed (c : ascii) : bool :=
  let n := N_of_ascii c in
  ((N.leb 97 n && N.leb n 122) || (N.leb 65 n && N.leb n 90) || (N.leb 48 n && N.leb n 57)
   || Ascii.eqb c "." || Ascii.eqb c "_" || Ascii.eqb c " " || Ascii.eqb c "-")%bool.

Fixpoint strip_leading (c0 : ascii) (s : string) : string :=
  match s with
  | String c s' => if Ascii.eqb c c0 then strip_leading c0 s' else s
  | EmptyString => EmptyString
  end.

Definition rev_string (s : string) : string :=
  string_of_list_ascii (rev (list_ascii_of_string s)).

(** [s.replace(/^-+|-+$/g, '')] *)
Definition strip_hyphens (s : string) : string :=
  rev_string (strip_leading "-" (rev_string (strip_leading "-" s))).

(** [sanitizeFilename(filename, fallback)]; no step of its body throws on
    a string, so the [catch] branch is not reached. *)
Definition sanitizeFilename (filename fallback : string) : string :=
  let next := remove_controls filename in
  let next := dash_separators next in
  let next := MetaIndex.trim (replace_runs MetaIndex.is_js_space " " false next) in
  let next := replace_runs (fun c => negb (is_allowed c)) "-" false next in
  let next := strip_hyphens next in
  if (String.eqb next "" || String.eqb next "." || String.eqb next "..")%bool then fallback
  else next.

(** [sanitizeFolderName] *)
Definition sanitizeFolderName (name : string) : string :=
  let sanitized := sanitizeFilename name "Unsorted" in
  if String.eqb sanitized "" then "Unsorted" else sanitized.

(** [buildFileSegment(filename, fingerprint)] for a string [filename]
    (its only caller, [determineRepoPath], passes one). *)
Definition buildFileSegment (filename fingerprint : string) : string :=
  let original := if String.eqb (MetaIndex.trim filename) "" then "" else filename in
  let sanitized := sanitizeFilename original ("asset-" ++ fingerprint) in
  if has_char "." sanitized then sanitized else sanitized ++ ".jpg".

(** [s.replace(/\\/g, '/')] *)
Definition backslash_to_slash (s : string) : string :=
  MetaIndex.map_string (fun c => if Ascii.eqb c "092"%char then "/"%char else c) s.

Fixpoint drop_slashes (s : string) : string :=
  match s with
  | String c s' => if Ascii.eqb c "/" then drop_slashes s' else s
  | EmptyString => EmptyString
  end.

(** [s.replace(/\/+/, '/')]: no [g] flag, so only the first run of slashes
    is collapsed. *)
Fixpoint collapse_first_slashes (s : string) : string :=
  match s with
  | EmptyString => EmptyString
  | String c s' =>
      if Ascii.eqb c "/" then String "/" (drop_slashes s') else String c (collapse_first_slashes s')
  end.

(** [normalizePath] *)
Definition normalizePath (path : string) : string :=
  collapse_first_slashes (backslash_to_slash path).

(** [determineRepoPath] *)
Definition determineRepoPath (folderName filename fingerprint : string) : string :=
  let folderSegment := sanitizeFolderName folderName in
  let fileSegment := buildFileSegment filename fingerprint in
  normalizePath ("gitgallery/images/" ++ folderSegment ++ "/" ++ fileSegment).

(** The loop of [chunk]: [for (let i = ...; i < items.length; i += size)
    chunks.push(items.slice(i, i + size))]; [fuel] bounds the number of
    rounds. *)
Fixpoint chunk_from {T} (fuel : nat) (items : list T) (size i : nat) : list (list T) :=
  match fuel with
  | O => []
  | S f =>
      if Nat.ltb i (length items)
      then firstn size (skipn i items) :: chunk_from f items size (i + size)
      else []
  end.

(** [chunk(items, size)] for an integral [size]; a loop with a positive
    step runs at most [items.length] rounds. *)
Definition chunk {T} (items : list T) (size : Z) : list (list T) :=
  if Z.leb size 0 then [items]
  else chunk_from (length items) items (Z.to_nat size) 0.

(** [resolveBranch] on a string (the empty string is falsy). *)
Definition resolveBranch (branch : string) : string :=
  if String.eqb (MetaIndex.trim branch) "" then "main" else branch.

(** [toLowerCase] on a Latin-1 code unit. *)
Definition lower_char (c : ascii) : ascii :=
  let n := N_of_ascii c in
  if ((N.leb 65 n && N.leb n 90) || (N.leb 192 n && N.leb n 222 && negb (N.eqb n 215)))%bool
  then ascii_of_N (n + 32) else c.

Definition toLowerCase (s : string) : string := MetaIndex.map_string lower_char s.

(** [guessMimeTypeFromExtension] (types.ts) *)
Definition guessMimeTypeFromExtension (ext : string) : string :=
  let e := toLowerCase ext in
  if (String.eqb e "jpg" || String.eqb e "jpeg")%bool then "image/jpeg"
  else if String.eqb e "png" then "image/png"
  else if String.eqb e "gif" then "image/gif"
  else if (String.eqb e "heic" || String.eqb e "heif")%bool then "image/heic"
  else if String.eqb e "webp" then "image/webp"
  else if String.eqb e "bmp" then "image/bmp"
  else if (String.eqb e "tiff" || String.eqb e "tif")%bool then "image/tiff"
  else if String.eqb e "svg" then "image/svg+xml"
  else "application/octet-stream".

(** [buildAndroidDownloadName(baseName, timestamp)] (types.ts) for an
    integral [timestamp] ([Date.now()]): the pair [(fileName, mimeType)].
    [parts.pop()] returns the last element and [parts.join('.')] joins
    the others. *)
Definition buildAndroidDownloadName (baseName : string) (timestamp : Z) : string * string :=
  let s := sanitizeFilename baseName "asset" in
  let sanitized := if String.eqb s "" then "download-" ++ string_of_Z timestamp else s in
  let parts := MetaIndex.split_on "." sanitized in
  let '(namePart, ext) :=
    if Nat.ltb 1 (length parts) then
      let np := String.concat "." (removelast parts) in
      (if String.eqb np "" then "download-" ++ string_of_Z timestamp else np, last parts "")
    else
      (sanitized,
       if has_char "." baseName then last (MetaIndex.split_on "." baseName) "" else "") in
  let ext := if String.eqb ext "" then "bin" else ext in
  (namePart ++ "-" ++ string_of_Z timestamp ++ "." ++ ext, guessMimeTypeFromExtension ext).

End Utils.

(* ------------------------------------------------------------------ *)
(** ** cloudCache.ts: cache directories *)

Module CloudCachePaths.
Import Utils.

(** [RepoInfo] *)
Record RepoInfo := mkRepoInfo { owner : string; name : string; branch : string }.

(** [/[a-zA-Z0-9_\-\.]/] *)
Definition is_segment_char (c : ascii) : bool :=
  let n := N_of_ascii c in
  ((N.leb 97 n && N.leb n 122) || (N.leb 65 n && N.leb n 90) || (N.leb 48 n && N.leb n 57)
   || Ascii.eqb c "_" || Ascii.eqb c "-" || Ascii.eqb c ".")%bool.

(** [sanitizeSegment] *)
Definition sanitizeSegment (value : string) : string :=
  MetaIndex.map_string (fun c => if is_segment_char c then c else "_"%char) value.

(** [normalizeDir] *)
Definition normalizeDir (value : string) : string :=
  if String.prefix "/" (rev_string value) then value else value ++ "/".

(** [s.replace(/\/+$/, '')] *)
Definition strip_trailing_slashes (s : string) : string :=
  rev_string (drop_slashes (rev_string s)).

(** [joinPath] *)
Definition joinPath (base child : string) : string :=
  strip_trailing_slashes base ++ "/" ++ drop_slashes child.

(** [ROOT_DIR] for the cache (or document) directory [baseDir]. *)
Definition ROOT_DIR (baseDir : string) : string :=
  normalizeDir (baseDir ++ "gitgallery/cloud-cache").

(** [repoKey] *)
Definition repoKey (repo : RepoInfo) : string :=
  let b := resolveBranch (branch repo) in
  sanitizeSegment (owner repo) ++ "__" ++ sanitizeSegment (name repo) ++ "__" ++ sanitizeSegment b.

(** [entryLockKey] *)
Definition entryLockKey (repo : RepoInfo) (fingerprint : string) : string :=
  repoKey repo ++ "::" ++ fingerprint.

(** The directory [repoDirectory(repo)] returns. *)
Definition repoDirectory (baseDir : string) (repo : RepoInfo) : string :=
  joinPath (ROOT_DIR baseDir) (repoKey repo).

(** The directory [ensureEntryDir(repo, fingerprint)] returns. *)
Definition ensureEntryDir (baseDir : string) (repo : RepoInfo) (fingerprint : string) : string :=
  joinPath (repoDirectory baseDir repo) (sanitizeSegment fingerprint).

End CloudCachePaths.

(* ------------------------------------------------------------------ *)
(** ** The typed event emitter of the GitHub client *)

(** Callbacks are compared by identity ([!==]); they are named here by a
    number and do not call back into the emitter. *)
Module Emitter.
Import MetaIndex.

Record Subscription := mkSubscription { callback : nat; once_flag : bool }.

(** [listeners]: a [Map] from event names to subscription arrays. *)
Definition Listeners := list (string * list Subscription).

(** [on(event, callback)]: the array is extended in place and stored. *)
Definition on (event : string) (cb : nat) (l : Listeners) : Listeners :=
  let subs := match map_get event l with Some s => s | None => [] end in
  map_set event (subs ++ [mkSubscription cb false])%list l.

(** [once(event, callback)] *)
Definition once (event : string) (cb : nat) (l : Listeners) : Listeners :=
  let subs := match map_get event l with Some s => s | None => [] end in
  map_set event (subs ++ [mkSubscription cb true])%list l.

(** [off(event, callback)], also what the function returned by [on] and
    [once] calls. *)
Definition off (event : string) (cb : nat) (l : Listeners) : Listeners :=
  match map_get event l with
  | None => l
  | Some subs => map_set event (filter (fun s => negb (Nat.eqb (callback s) cb)) subs) l
  end.

(** [emit(event, payload)]: the callbacks called, in order, and the new
    listeners. *)
Definition emit (event : string) (l : Listeners) : list nat * Listeners :=
  match map_get event l with
  | None | Some [] => ([], l)
  | Some subs => (map callback subs, map_set event (filter (fun s => negb (once_flag s)) subs) l)
  end.

(** Calls of the emitter's methods. *)
Inductive Op :=
| OpOn (event : string) (cb : nat)
| OpOnce (event : string) (cb : nat)
| OpOff (event : string) (cb : nat)
| OpEmit (event : string)
| OpClear.

Definition step (op : Op) (l : Listeners) : list (string * nat) * Listeners :=
  match op with
  | OpOn e cb => ([], on e cb l)
  | OpOnce e cb => ([], once e cb l)
  | OpOff e cb => ([], off e cb l)
  | OpEmit e => let '(cbs, l') := emit e l in (map (fun cb => (e, cb)) cbs, l')
  | OpClear => ([], [])
  end.

(** Running a sequence of calls: the (event, callback) invocations in
    order, and the final listeners. *)
Fixpoint run (ops : list Op) (l : Listeners) : list (string * nat) * Listeners :=
  match ops with
  | [] => ([], l)
  | op :: rest =>
      let '(calls, l1) := step op l in
      let '(calls', l2) := run rest l1 in ((calls ++ calls')%list, l2)
  end.

(** How many of the [calls] are calls of [cb] for [event]. *)
Definition times_called (event : string) (cb : nat) (calls : list (string * nat)) : nat :=
  length (filter (fun p => (String.eqb (fst p) event && Nat.eqb (snd p) cb)%bool) calls).

(** The number of [emit(event)] calls among [ops]. *)
Definition emits (event : string) (ops : list Op) : nat :=
  length (filter (fun op => match op with OpEmit e => String.eqb e event | _ => false end) ops).

(** [op] subscribes [cb] to [event] ([on] or [once]). *)
Definition subscribes (event : string) (cb : nat) (op : Op) : bool :=
  match op with
  | OpOn e c | OpOnce e c => (String.eqb e event && Nat.eqb c cb)%bool
  | _ => false
  end.

(** [op] changes the subscriptions of [cb] to [event]: [on], [once] or
    [off] for that pair, or [clear()]. *)
Definition touches (event : string) (cb : nat) (op : Op) : bool :=
  match op with
  | OpOn e c | OpOnce e c | OpOff e c => (String.eqb e event && Nat.eqb c cb)%bool
  | OpEmit _ => false
  | OpClear => true
  end.

End Emitter.

(* ================================================================== *)
(** * Proofs *)

Module JsStrFacts.
Import JsStr.

Lemma sapp_assoc : forall a b c : string, ((a ++ b) ++ c = a ++ (b ++ c))%string.
Proof. induction a as [|x a IH]; intros; simpl; [reflexivity | now rewrite IH]. Qed.

Lemma dec_digits_parse : forall f n acc,
  (n < 2 ^ N.of_nat f)%N -> parse_from 0 (dec_digits f n acc) = parse_from n acc.
Proof.
  induction f as [|f IH]; intros n acc Hn; cbn [dec_digits].
  - replace n with 0%N by (simpl in Hn; lia). reflexivity.
  - assert (Hd : (N.modulo n 10 < 10)%N) by (apply N.mod_lt; lia).
    assert (Hdm : n = (10 * (n / 10) + n mod 10)%N) by (apply N.div_mod; lia).
    destruct (N.eqb_spec (n / 10) 0) as [Hq|Hq].
    + cbn [parse_from]. rewrite N_ascii_embedding by lia. f_equal. lia.
    + rewrite IH.
      * cbn [parse_from]. rewrite N_ascii_embedding by lia. f_equal.
        clear IH Hn Hq. set (q := (n / 10)%N) in *. set (r := (n mod 10)%N) in *. lia.
      * rewrite Nat2N.inj_succ, N.pow_succ_r' in Hn.
        apply N.Div0.div_lt_upper_bound. lia.
Qed.

Lemma parse_string_of_N : forall n, parse_from 0 (string_of_N n) = n.
Proof.
  intro n. unfold string_of_N. rewrite dec_digits_parse; [reflexivity|].
  rewrite Nat2N.inj_succ, N2Nat.id, N.pow_succ_r'.
  pose proof (N.size_gt n). lia.
Qed.

Lemma string_of_N_inj : forall m n, string_of_N m = string_of_N n -> m = n.
Proof.
  intros m n H. rewrite <- (parse_string_of_N m), <- (parse_string_of_N n), H.
  reflexivity.
Qed.

Lemma dec_digits_shape : forall f n acc, all_digits acc = true ->
  all_digits (dec_digits f n acc) = true /\
  (dec_digits f n acc = acc -> f = O).
Proof.
  induction f as [|f IH]; intros n acc Hacc; cbn [dec_digits]; [split; auto|].
  assert (Hd : (N.modulo n 10 < 10)%N) by (apply N.mod_lt; lia).
  assert (Hacc' : all_digits (String (ascii_of_N (48 + n mod 10)) acc) = true).
  { cbn [all_digits]. rewrite N_ascii_embedding by lia. rewrite Hacc.
    apply andb_true_intro; split; [|reflexivity].
    apply andb_true_intro; split; [apply N.leb_le, N.le_add_r | apply N.ltb_lt; lia]. }
  destruct (N.eqb (n / 10) 0).
  - split; [exact Hacc'|]. intro Heq.
    apply (f_equal String.length) in Heq. simpl in Heq. lia.
  - destruct (IH (n / 10)%N _ Hacc') as [H1 H2]. split; [exact H1|].
    intro Heq. exfalso.
    (* the result is at least one character longer than [acc] *)
    assert (Hlen : forall g m b, (String.length b <= String.length (dec_digits g m b))%nat).
    { clear. induction g as [|g IHg]; intros m b; simpl; [lia|].
      destruct (N.eqb (m / 10) 0); simpl; [lia|].
      specialize (IHg (m / 10)%N (String (ascii_of_N (48 + m mod 10)%N) b)). simpl in IHg. lia. }
    specialize (Hlen f (n / 10)%N (String (ascii_of_N (48 + n mod 10)%N) acc)).
    rewrite Heq in Hlen. simpl in Hlen. lia.
Qed.

Lemma string_of_N_digits : forall n,
  all_digits (string_of_N n) = true /\ string_of_N n <> "".
Proof.
  intro n. unfold string_of_N.
  destruct (dec_digits_shape (S (N.to_nat (N.size n))) n "" eq_refl) as [H1 H2].
  split; [exact H1|]. intro H. discriminate (H2 H).
Qed.

Lemma all_digits_no_bar : forall s, all_digits s = true -> has_char "|" s = false.
Proof.
  induction s as [|c s IH]; cbn [has_char all_digits]; [reflexivity|]. intro H.
  apply andb_prop in H as [Hc Hs]. apply andb_prop in Hc as [Hlo Hhi].
  apply N.leb_le in Hlo. apply N.ltb_lt in Hhi.
  destruct (Ascii.eqb_spec "|" c) as [<-|]; [vm_compute in Hlo, Hhi; congruence|].
  now apply IH.
Qed.

Lemma string_of_Z_no_bar : forall z, has_char "|" (string_of_Z z) = false.
Proof.
  intro z. unfold string_of_Z.
  destruct (Z.ltb z 0); simpl;
    apply all_digits_no_bar, string_of_N_digits.
Qed.

Lemma string_of_Z_inj : forall a b, string_of_Z a = string_of_Z b -> a = b.
Proof.
  intros a b. unfold string_of_Z.
  destruct (Z.ltb_spec a 0) as [Ha|Ha], (Z.ltb_spec b 0) as [Hb|Hb]; intro H.
  - injection H as H. apply string_of_N_inj in H. lia.
  - destruct (string_of_N_digits (Z.to_N b)) as [Hd Hne].
    destruct (string_of_N (Z.to_N b)) as [|c s] eqn:E; [congruence|].
    injection H as Hc _. subst c. simpl in Hd. discriminate.
  - destruct (string_of_N_digits (Z.to_N a)) as [Hd Hne].
    destruct (string_of_N (Z.to_N a)) as [|c s] eqn:E; [congruence|].
    injection H as Hc _. subst c. simpl in Hd. discriminate.
  - apply string_of_N_inj in H. lia.
Qed.

(** Cutting a string at its last separator. *)
Lemma split_last_bar : forall x y a b,
  has_char "|" a = false -> has_char "|" b = false ->
  (x ++ String "|" a = y ++ String "|" b)%string -> x = y /\ a = b.
Proof.
  assert (Hbar : forall u v, has_char "|" (u ++ String "|" v) = true).
  { induction u as [|e u IHu]; intro v; [reflexivity|].
    cbn [has_char append]. rewrite IHu. now destruct (Ascii.eqb "|" e). }
  induction x as [|c x IH]; intros [|d y] a b Ha Hb H; simpl in H.
  - injection H as H. auto.
  - injection H as Hd H. subst. rewrite Hbar in Ha. discriminate.
  - injection H as Hc H. subst. rewrite Hbar in Hb. discriminate.
  - injection H as Hc H. subst. destruct (IH y a b Ha Hb H) as [-> ->]. auto.
Qed.

End JsStrFacts.

Module FingerprintFacts.
Import JsStr JsStrFacts Fingerprint.

Lemma makeFingerprint_split : forall a,
  makeFingerprint a =
  ((effective_filename a ++ String "|" (string_of_Z (effective_createdAt a)))
     ++ String "|" (string_of_Z (effective_fileSize a)))%string.
Proof. intro a. unfold makeFingerprint. rewrite sapp_assoc. reflexivity. Qed.

(** C6 (as amended).  [makeFingerprint] is a function of the three values
    that enter the key: the filename, or [asset-<id>] when the filename is
    missing or empty; [creationTime], else [modificationTime], else 0; the
    file size, else 0.  Two assets get the same fingerprint exactly when these
    three values agree: equal values give the same key and any difference in
    one of them gives a different key. *)
Theorem makeFingerprint_key_iff : forall a b,
  makeFingerprint a = makeFingerprint b <-> effective_inputs a = effective_inputs b.
Proof.
  intros a b. split.
  - rewrite !makeFingerprint_split. intro H.
    apply split_last_bar in H as [H Hs]; try apply string_of_Z_no_bar.
    apply split_last_bar in H as [Hf Ht]; try apply string_of_Z_no_bar.
    apply string_of_Z_inj in Hs. apply string_of_Z_inj in Ht.
    unfold effective_inputs. rewrite Hf, Ht, Hs. reflexivity.
  - unfold effective_inputs, makeFingerprint. intro H. injection H as Hf Ht Hs.
    rewrite Hf, Ht, Hs. reflexivity.
Qed.

(** C6 refuted as stated.  An asset with an empty filename takes its key
    name from its id: two assets with equal (empty) filename, timestamp and
    size but different ids get different keys, and an asset whose filename
    is [asset-x] collides with an id-[x] asset that has an empty filename. *)
Lemma makeFingerprint_not_a_function_of_name_time_size :
  let a := mkAsset "x" (Some "") (Some 1700000000000%Z) None (Some 2048%Z) in
  let b := mkAsset "y" (Some "") (Some 1700000000000%Z) None (Some 2048%Z) in
  let c := mkAsset "y" (Some "asset-x") (Some 1700000000000%Z) None (Some 2048%Z) in
  raw_inputs a = raw_inputs b /\ makeFingerprint a <> makeFingerprint b /\
  raw_inputs a <> raw_inputs c /\ makeFingerprint a = makeFingerprint c.
Proof. vm_compute. repeat split; congruence. Qed.

End FingerprintFacts.

Module EvictionFacts.
Import Eviction.
Local Open Scope Z_scope.

Lemma sumZ_app : forall a b, sumZ (a ++ b) = sumZ a + sumZ b.
Proof. induction a; intros; simpl; [lia | rewrite IHa; lia]. Qed.

Lemma ssum_app : forall P a b, ssum P (a ++ b) = ssum P a + ssum P b.
Proof. intros. unfold ssum. now rewrite filter_app, map_app, sumZ_app. Qed.

Lemma entry_size_nonneg : forall it m, 0 <= entry_size it m.
Proof. intros. unfold entry_size. destruct (preview m), (original m); lia. Qed.

Lemma scan_eq : forall now items i total stats removed,
  exists r, scan now i items total stats removed =
    (total + sumZ (map st_size (stats_of i items)),
     (stats ++ stats_of i items)%list, (removed ++ r)%list).
Proof.
  intros now items. induction items as [|it rest IH]; intros i total stats removed; simpl.
  - exists []. rewrite !app_nil_r. f_equal. f_equal. lia.
  - destruct (item_manifest it) as [m|].
    + destruct (IH (S i) (total + entry_size it m) (stats ++ [mkStat i (entry_size it m) (lastUsed m)])%list
        (if Z.ltb (maxAge m) (now - lastUsed m) then (removed ++ [i])%list else removed)) as [r Hr].
      rewrite Hr. simpl.
      exists ((if Z.ltb (maxAge m) (now - lastUsed m) then [i] else []) ++ r)%list.
      rewrite <- !app_assoc. simpl. f_equal; [f_equal; lia|].
      destruct (Z.ltb _ _); simpl; [now rewrite <- app_assoc | reflexivity].
    + destruct (IH (S i) total stats (removed ++ [i])%list) as [r Hr]. rewrite Hr.
      exists (i :: r). now rewrite <- app_assoc.
Qed.

Lemma sized_stats : forall items i,
  sized i items = map (fun s => (st_dir s, st_size s)) (stats_of i items).
Proof.
  induction items as [|it rest IH]; intro i; simpl; [reflexivity|].
  destruct (item_manifest it); simpl; now rewrite IH.
Qed.

Lemma stats_of_size : forall items i s, In s (stats_of i items) -> 0 <= st_size s.
Proof.
  induction items as [|it rest IH]; intros i s H; simpl in H; [contradiction|].
  destruct (item_manifest it) as [m|]; [destruct H as [<-|H]|]; eauto.
  apply entry_size_nonneg.
Qed.

Lemma stats_of_sound : forall items i s, In s (stats_of i items) ->
  (i <= st_dir s)%nat /\
  last_used_of items (st_dir s - i) = Some (st_lastUsed s).
Proof.
  induction items as [|it rest IH]; intros i s H; simpl in H; [contradiction|].
  destruct (item_manifest it) as [m|] eqn:Em; [destruct H as [<-|H]|].
  - simpl. rewrite Nat.sub_diag. unfold last_used_of. simpl. rewrite Em. auto.
  - destruct (IH (S i) s H) as [Hle Hl]. split; [lia|].
    replace (st_dir s - i)%nat with (S (st_dir s - S i)) by lia. exact Hl.
  - destruct (IH (S i) s H) as [Hle Hl]. split; [lia|].
    replace (st_dir s - i)%nat with (S (st_dir s - S i)) by lia. exact Hl.
Qed.

Lemma stats_of_complete : forall items i j u,
  last_used_of items j = Some u ->
  exists s, In s (stats_of i items) /\ st_dir s = (i + j)%nat /\ st_lastUsed s = u.
Proof.
  induction items as [|it rest IH]; intros i j u H; unfold last_used_of in H;
    destruct j as [|j]; simpl in H; try discriminate.
  - destruct (item_manifest it) as [m|] eqn:Em; simpl in H; [|discriminate].
    injection H as <-. exists (mkStat i (entry_size it m) (lastUsed m)).
    simpl. rewrite Em. simpl. split; [now left|split; [lia|reflexivity]].
  - destruct (IH (S i) j u H) as [s [Hin [Hd Hu]]].
    exists s. simpl. repeat split; [|lia|auto].
    destruct (item_manifest it); [right|]; exact Hin.
Qed.

(** Insertion sort keeps the elements and orders them by [lastUsed]. *)
Lemma insert_by_ssum : forall P s l,
  ssum P (insert_by s l) = ssum P [s] + ssum P l.
Proof.
  intros P s l. induction l as [|h t IH]; simpl; [unfold ssum; simpl; lia|].
  destruct (Z.leb _ _).
  - change (h :: insert_by s t) with ([h] ++ insert_by s t)%list.
    change (h :: t) with ([h] ++ t)%list.
    rewrite !ssum_app, IH. lia.
  - change (s :: h :: t) with ([s] ++ [h] ++ t)%list.
    change (h :: t) with ([h] ++ t)%list. rewrite !ssum_app. lia.
Qed.

Lemma sort_stats_ssum : forall P l, ssum P (sort_stats l) = ssum P l.
Proof.
  intros P l. unfold sort_stats.
  assert (G : forall acc, ssum P (fold_left (fun acc s => insert_by s acc) l acc) =
                          ssum P acc + ssum P l).
  { induction l as [|s l IH]; intro acc; simpl; [unfold ssum; simpl; lia|].
    rewrite IH, insert_by_ssum.
    change (s :: l) with ([s] ++ l)%list. rewrite ssum_app. lia. }
  rewrite G. change (ssum P []) with 0. lia.
Qed.

Lemma insert_by_in : forall s l x, In x (insert_by s l) <-> x = s \/ In x l.
Proof.
  intros s l x. induction l as [|h t IH]; simpl; [intuition congruence|].
  destruct (Z.leb _ _); simpl; intuition congruence.
Qed.

Lemma sort_stats_in : forall l x, In x (sort_stats l) <-> In x l.
Proof.
  intros l x. unfold sort_stats.
  assert (G : forall acc, In x (fold_left (fun acc s => insert_by s acc) l acc) <->
                          In x acc \/ In x l).
  { induction l as [|s l IH]; intro acc; simpl; [tauto|].
    pose proof (IH (insert_by s acc)) as [H1 H2]. pose proof (insert_by_in s acc x) as [H3 H4].
    split.
    - intro K. destruct (H1 K) as [K'|K']; [destruct (H3 K') as [->|K'']|]; auto.
    - intros [K|[<-|K]]; apply H2; [left; apply H4; auto | left; apply H4; auto | right; auto]. }
  rewrite G. simpl. tauto.
Qed.

Definition le_used (a b : Stat) : Prop := st_lastUsed a <= st_lastUsed b.

Lemma insert_by_sorted : forall s l,
  StronglySorted le_used l -> StronglySorted le_used (insert_by s l).
Proof.
  intros s l. induction l as [|h t IH]; intro H; simpl.
  - repeat constructor.
  - apply StronglySorted_inv in H as [Ht Hh].
    destruct (Z.leb_spec (st_lastUsed h) (st_lastUsed s)).
    + constructor; [now apply IH|].
      apply Forall_forall. intros x Hx. apply insert_by_in in Hx as [->|Hx].
      * unfold le_used. lia.
      * exact (proj1 (Forall_forall _ _) Hh x Hx).
    + constructor; [constructor; assumption|].
      constructor; [unfold le_used; lia|].
      apply Forall_forall. intros x Hx.
      pose proof (proj1 (Forall_forall _ _) Hh x Hx). unfold le_used in *. lia.
Qed.

Lemma sort_stats_sorted : forall l, StronglySorted le_used (sort_stats l).
Proof.
  intro l. unfold sort_stats.
  assert (G : forall acc, StronglySorted le_used acc ->
            StronglySorted le_used (fold_left (fun acc s => insert_by s acc) l acc)).
  { induction l as [|s l IH]; intros acc Hacc; simpl; [exact Hacc|].
    apply IH, insert_by_sorted, Hacc. }
  apply G. constructor.
Qed.

Lemma sorted_app_le : forall a b x y,
  StronglySorted le_used (a ++ b) -> In x a -> In y b -> le_used x y.
Proof.
  induction a as [|h t IH]; intros b x y H Hx Hy; [contradiction|].
  simpl in H. apply StronglySorted_inv in H as [H Hf].
  destruct Hx as [<-|Hx].
  - exact (proj1 (Forall_forall _ _) Hf y (in_or_app _ _ _ (or_intror Hy))).
  - eauto.
Qed.

(** The size pass removes a prefix of the sorted statistics and stops once
    the running total is at the target or the list is exhausted. *)
Lemma evict_prefix : forall l cur, exists k,
  evict cur l = map st_dir (firstn k l) /\
  (cur - sumZ (map st_size (firstn k l)) <= EVICT_TARGET \/ k = length l).
Proof.
  induction l as [|s l IH]; intro cur; simpl.
  - exists O. simpl. auto.
  - destruct (Z.leb_spec cur EVICT_TARGET).
    + exists O. simpl. split; [reflexivity|left; lia].
    + destruct (IH (cur - st_size s)) as [k [Hk Hb]].
      exists (S k). simpl. rewrite Hk. split; [reflexivity|].
      destruct Hb as [Hb|Hb]; [left; lia|right; lia].
Qed.

Definition not_in (r : list nat) (s : Stat) : bool := negb (existsb (Nat.eqb (st_dir s)) r).

Lemma ssum_mono : forall (P Q : Stat -> bool) l,
  (forall s, In s l -> 0 <= st_size s) ->
  (forall s, In s l -> P s = true -> Q s = true) -> ssum P l <= ssum Q l.
Proof.
  intros P Q l. induction l as [|s l IH]; intros Hn Hpq; unfold ssum in *; simpl; [lia|].
  specialize (IH (fun x Hx => Hn x (or_intror Hx)) (fun x Hx => Hpq x (or_intror Hx))).
  specialize (Hn s (or_introl eq_refl)). specialize (Hpq s (or_introl eq_refl)).
  destruct (P s), (Q s); simpl; try lia; discriminate (Hpq eq_refl).
Qed.

Lemma ssum_le_sum : forall P l, (forall s, In s l -> 0 <= st_size s) ->
  ssum P l <= sumZ (map st_size l).
Proof.
  intros P l. induction l as [|s l IH]; intro Hn; unfold ssum in *; simpl; [lia|].
  specialize (IH (fun x Hx => Hn x (or_intror Hx))). specialize (Hn s (or_introl eq_refl)).
  destruct (P s); simpl; lia.
Qed.

Lemma ssum_removed_zero : forall l e, incl l e -> ssum (not_in (map st_dir e)) l = 0.
Proof.
  induction l as [|s l IH]; intros e Hinc; unfold ssum in *; simpl; [reflexivity|].
  unfold not_in at 1.
  assert (Hs : existsb (Nat.eqb (st_dir s)) (map st_dir e) = true).
  { apply existsb_exists. exists (st_dir s). split; [apply in_map, Hinc; now left|].
    apply Nat.eqb_refl. }
  rewrite Hs. simpl. apply IH. intros x Hx. apply Hinc. now right.
Qed.

Lemma not_in_app : forall a b s, not_in (a ++ b) s = true -> not_in b s = true.
Proof.
  intros a b s. unfold not_in. rewrite existsb_app.
  destruct (existsb _ a), (existsb _ b); auto.
Qed.

Lemma filter_pairs : forall (f : nat -> bool) l,
  map snd (filter (fun p => f (fst p)) (map (fun s => (st_dir s, st_size s)) l)) =
  map st_size (filter (fun s => f (st_dir s)) l).
Proof.
  intros f l. induction l as [|s l IH]; simpl; [reflexivity|].
  destruct (f (st_dir s)); simpl; now rewrite IH.
Qed.

Lemma ssum_true : forall l, ssum (fun _ => true) l = sumZ (map st_size l).
Proof. intro l. unfold ssum. now rewrite filter_true. Qed.

Lemma total_size_stats : forall items,
  total_size items = sumZ (map st_size (stats_of 0 items)).
Proof.
  intro items. unfold total_size. rewrite sized_stats, map_map. reflexivity.
Qed.

(** C7 (amended). Eviction run over budget: the surviving entries weigh at
    most [CACHE_SIZE_LIMIT_BYTES * 0.8]; and every entry removed by the size
    pass was last used no later than any surviving entry. Nothing in the
    ordering looks at whether an entry has a cached original. *)
Theorem maybePruneRepo_over_budget_lru : forall now items,
  total_size items > CACHE_SIZE_LIMIT_BYTES ->
  surviving_size now items <= EVICT_TARGET /\
  (forall i j ui uj, In i (size_pass now items) -> ~ In j (prune now items) ->
     last_used_of items i = Some ui -> last_used_of items j = Some uj -> ui <= uj).
Proof.
  intros now items Hover.
  destruct (scan_eq now items 0 0 [] []) as [r Hs]. simpl in Hs.
  rewrite total_size_stats in Hover.
  set (S := stats_of 0 items) in *.
  assert (HS : forall s, In s S -> 0 <= st_size s) by apply stats_of_size.
  set (sorted := sort_stats S).
  assert (Hsorted_in : forall x, In x sorted <-> In x S) by apply sort_stats_in.
  destruct (evict_prefix sorted (sumZ (map st_size S))) as [k [Hk Hb]].
  set (E := firstn k sorted) in *. set (R := skipn k sorted).
  assert (HER : sorted = (E ++ R)%list) by (symmetry; apply firstn_skipn).
  assert (Hgate : Z.leb (sumZ (map st_size S)) CACHE_SIZE_LIMIT_BYTES = false)
    by (apply Z.leb_gt; lia).
  unfold surviving_size, size_pass, prune. rewrite Hs. cbv beta iota zeta.
  fold sorted. rewrite Hgate, Hk. split.
  - rewrite sized_stats.
    rewrite (filter_pairs (fun d => negb (existsb (Nat.eqb d) (r ++ map st_dir E)%list))).
    change (sumZ (map st_size (filter (not_in (r ++ map st_dir E)%list) S)) <= EVICT_TARGET).
    fold (ssum (not_in (r ++ map st_dir E)%list) S).
    assert (H1 : ssum (not_in (r ++ map st_dir E)%list) S <= ssum (not_in (map st_dir E)) S).
    { apply ssum_mono; [exact HS|]. intros x _. apply not_in_app. }
    rewrite <- (sort_stats_ssum (not_in (map st_dir E)) S) in H1. fold sorted in H1.
    rewrite HER, ssum_app, ssum_removed_zero in H1 by (intros x Hx; exact Hx).
    assert (HR : forall x, In x R -> 0 <= st_size x).
    { intros x Hx. apply HS, Hsorted_in. rewrite HER. apply in_or_app. now right. }
    pose proof (ssum_le_sum (not_in (map st_dir E)) R HR) as H2.
    pose proof (sort_stats_ssum (fun _ => true) S) as H3. fold sorted in H3.
    rewrite !ssum_true, HER, map_app, sumZ_app in H3.
    eapply Z.le_trans; [exact H1|].
    destruct Hb as [Hb|Hb].
    + set (a := sumZ (map st_size S)) in *. set (b := sumZ (map st_size E)) in *.
      set (c := sumZ (map st_size R)) in *. set (d := ssum (not_in (map st_dir E)) R) in *.
      clearbody a b c d. clear - H3 H2 Hb. lia.
    + assert (R = []) as HR0.
      { unfold R. rewrite Hb. apply skipn_all. }
      clear - HR0. rewrite HR0. unfold ssum, EVICT_TARGET. simpl. lia.
  - intros i j ui uj Hi Hj Hui Huj.
    apply in_map_iff in Hi as [x [Hxi HxE]].
    assert (HxS : In x S).
    { apply Hsorted_in. rewrite HER. apply in_or_app. now left. }
    destruct (stats_of_sound items 0 x HxS) as [_ Hx].
    rewrite Nat.sub_0_r, Hxi, Hui in Hx. injection Hx as ->.
    destruct (stats_of_complete items 0 j uj Huj) as [y [HyS [Hyj Hyu]]].
    simpl in Hyj. subst uj.
    assert (HyR : In y R).
    { assert (Hy : In y (E ++ R)%list) by (rewrite <- HER; now apply Hsorted_in).
      apply in_app_or in Hy as [Hy|Hy]; [|exact Hy].
      exfalso. apply Hj. apply in_or_app. right. rewrite <- Hyj. now apply in_map. }
    pose proof (sort_stats_sorted S) as Hsrt. fold sorted in Hsrt. rewrite HER in Hsrt.
    exact (sorted_app_le E R x y Hsrt HxE HyR).
Qed.

(** C7 (witness): the theorem applied to [example_items]. *)
Lemma maybePruneRepo_over_budget_lru_witness :
  total_size example_items > CACHE_SIZE_LIMIT_BYTES /\
  (surviving_size example_now example_items <= EVICT_TARGET /\
   (forall i j ui uj, In i (size_pass example_now example_items) ->
      ~ In j (prune example_now example_items) ->
      last_used_of example_items i = Some ui ->
      last_used_of example_items j = Some uj -> ui <= uj)).
Proof.
  split; [vm_compute; reflexivity|].
  apply maybePruneRepo_over_budget_lru. vm_compute. reflexivity.
Defined.

(** C7 (counterexample): two entries with the same last use, over budget;
    the one with a cached original is removed and the preview-only one
    survives, because the stable sort keeps listing order on ties. *)
Lemma maybePruneRepo_original_evicted_first :
  total_size example_items > CACHE_SIZE_LIMIT_BYTES /\
  has_original example_items 0 = true /\ has_original example_items 1 = false /\
  last_used_of example_items 0 = last_used_of example_items 1 /\
  In 0%nat (prune example_now example_items) /\
  ~ In 1%nat (prune example_now example_items).
Proof.
  repeat split; try (vm_compute; reflexivity).
  - vm_compute. now left.
  - vm_compute. intros [H|H]; [discriminate|exact H].
Qed.

End EvictionFacts.

Module JobQueueFacts.
Import JobQueue.

Definition Inv (s : Q) : Prop :=
  (forall k, invoked s k = true -> src s k = Fulfilled /\ k < n s) /\
  (forall k, caught s k <> Rejected) /\
  (forall k, caught s k = Fulfilled -> wrapped s k <> Pending) /\
  (forall k, wrapped s k <> Pending -> invoked s k = true /\ jobres s k <> Pending) /\
  (forall k, jobres s k <> Pending -> invoked s k = true).

Ltac upd_cases :=
  unfold upd in *;
  repeat match goal with
         | |- context [Nat.eqb ?a ?b] => destruct (Nat.eqb_spec a b); subst
         | H : context [Nat.eqb ?a ?b] |- _ => destruct (Nat.eqb_spec a b); subst
         end.

Lemma inv_init : Inv init.
Proof.
  unfold Inv, init; cbn; repeat split; intros; try discriminate; congruence.
Qed.

Lemma src_not_rejected : forall s k, Inv s -> src s k <> Rejected.
Proof.
  intros s [|k] (_ & Hb & _); cbn; [discriminate|apply Hb].
Qed.

Lemma inv_step : forall s s', Inv s -> step s s' -> Inv s'.
Proof.
  intros s s' Hinv Hst. assert (Hsrc : forall k, src s k <> Rejected) by (intro k; exact (src_not_rejected s k Hinv)).
  destruct Hinv as (Ha & Hb & Hc & Hd & He).
  destruct Hst as [s|s k Hk Hi Hs|s k r Hi Hj Hr|s k Hi Hj Hw|s k Hk Hi Hs Hw
                  |s k Hw Hc'|s k Hw Hr]; unfold Inv; unfold src in *; cbn;
    refine (conj _ (conj _ (conj _ (conj _ _)))).
  (* enqueue *)
  - intros j Hx. destruct (Ha j Hx) as [H1 H2]. split; [exact H1|lia].
  - exact Hb.
  - exact Hc.
  - exact Hd.
  - exact He.
  (* invoke *)
  - intros j Hx. upd_cases; [split; assumption|apply Ha, Hx].
  - exact Hb.
  - exact Hc.
  - intros j Hx. destruct (Hd j Hx) as [H1 H2]. split; [upd_cases; auto|exact H2].
  - intros j Hx. upd_cases; auto.
  (* job_settle *)
  - exact Ha.
  - exact Hb.
  - exact Hc.
  - intros j Hx. destruct (Hd j Hx) as [H1 H2]. split; [exact H1|upd_cases; auto].
  - intros j Hx. upd_cases; auto.
  (* wrap_follow *)
  - exact Ha.
  - exact Hb.
  - intros j Hx. upd_cases; [exact Hj|apply Hc, Hx].
  - intros j Hx. upd_cases; [split; assumption|apply Hd, Hx].
  - exact He.
  (* wrap_reject: impossible, [current] is never rejected *)
  - exfalso. exact (Hsrc k Hs).
  - exfalso. exact (Hsrc k Hs).
  - exfalso. exact (Hsrc k Hs).
  - exfalso. exact (Hsrc k Hs).
  - exfalso. exact (Hsrc k Hs).
  (* catch *)
  - intros j Hx. destruct (Ha j Hx) as [H1 H2]. split; [|exact H2].
    destruct j as [|j]; [exact H1|]. upd_cases; [reflexivity|exact H1].
  - intros j. upd_cases; [discriminate|apply Hb].
  - intros j Hx. upd_cases; [exact Hw|apply Hc, Hx].
  - exact Hd.
  - exact He.
  (* finally *)
  - exact Ha.
  - exact Hb.
  - exact Hc.
  - exact Hd.
  - exact He.
Qed.

Lemma reach_inv : forall s, reach s -> Inv s.
Proof.
  induction 1; [exact inv_init|]. eapply inv_step; eassumption.
Qed.

Lemma star_trans : forall a b c, star a b -> star b c -> star a c.
Proof.
  intros a b c H. induction H; intro H'; [exact H'|]. econstructor; eauto.
Qed.

Lemma star_one : forall a b, step a b -> star a b.
Proof. intros a b H. econstructor; [exact H|constructor]. Qed.

Lemma star_inv : forall a b, star a b -> Inv a -> Inv b.
Proof.
  induction 1; intro H'; [exact H'|]. apply IHstar. eapply inv_step; eassumption.
Qed.

(** Every job before an invoked one has seen its own promise settle. *)
Lemma invoked_after_settled : forall s k, Inv s -> invoked s k = true ->
  forall j, j < k -> jobres s j <> Pending.
Proof.
  intros s k (Ha & Hb & Hc & Hd & He). induction k as [|k IH]; intros Hk j Hj; [lia|].
  destruct (Ha (S k) Hk) as [Hs _]. cbn in Hs.
  destruct (Hd k (Hc k Hs)) as [Hik Hjk].
  destruct (Nat.eq_dec j k) as [->|Hne]; [exact Hjk|].
  apply (IH Hik). lia.
Qed.

(** Once job [k]'s promise has settled, the queue's own reactions (no
    further action of any job) reach the call of job [k + 1]. *)
Lemma next_job_runs : forall s k, Inv s -> S k < n s -> jobres s k <> Pending ->
  exists s', star s s' /\ invoked s' (S k) = true.
Proof.
  intros s k Hinv Hn Hjk.
  destruct (invoked s (S k)) eqn:Hnext; [exists s; split; [constructor|exact Hnext]|].
  pose proof Hinv as (Ha & Hb & Hc & Hd & He).
  assert (Hik : invoked s k = true) by (apply He, Hjk).
  assert (H1 : exists s1, star s s1 /\ n s1 = n s /\ invoked s1 (S k) = false /\
                          wrapped s1 k <> Pending).
  { destruct (wrapped s k) eqn:Hw.
    - exists (wrap_follow s k). split; [apply star_one; constructor; assumption|].
      cbn. unfold upd. rewrite Nat.eqb_refl. repeat split; auto.
    - exists s. split; [constructor|]. rewrite Hw. repeat split; try assumption; try reflexivity; discriminate.
    - exists s. split; [constructor|]. rewrite Hw. repeat split; try assumption; try reflexivity; discriminate. }
  destruct H1 as (s1 & Hs1 & Hn1 & Hi1 & Hw1).
  pose proof (star_inv _ _ Hs1 Hinv) as (_ & Hb1 & _).
  assert (H2 : exists s2, star s1 s2 /\ n s2 = n s /\ invoked s2 (S k) = false /\
                          caught s2 k = Fulfilled).
  { destruct (caught s1 k) eqn:Hc1.
    - exists (catch_settle s1 k). split; [apply star_one; constructor; assumption|].
      cbn. unfold upd. rewrite Nat.eqb_refl. repeat split; auto.
    - exists s1. repeat split; auto. constructor.
    - exfalso. exact (Hb1 k Hc1). }
  destruct H2 as (s2 & Hs2 & Hn2 & Hi2 & Hc2).
  exists (invoke s2 (S k)). split.
  - eapply star_trans; [exact Hs1|]. eapply star_trans; [exact Hs2|].
    apply star_one. constructor; [lia|exact Hi2|exact Hc2].
  - cbn. unfold upd. now rewrite Nat.eqb_refl.
Qed.

(** C9. In every reachable state of a [JobQueue]: a job's function is only
    called after the promise of every earlier job's function has settled
    (so jobs never overlap); and once a job's promise has settled, fulfilled
    or rejected, the queue goes on to call the next enqueued job. *)
Theorem JobQueue_serial_and_recovers : forall s, reach s ->
  (forall j k, j < k -> invoked s k = true -> jobres s j <> Pending) /\
  (forall k, S k < n s -> (jobres s k = Fulfilled \/ jobres s k = Rejected) ->
     exists s', star s s' /\ invoked s' (S k) = true).
Proof.
  intros s Hr. pose proof (reach_inv s Hr) as Hinv. split.
  - intros j k Hjk Hk. exact (invoked_after_settled s k Hinv Hk j Hjk).
  - intros k Hk Hset. apply next_job_runs; [exact Hinv|exact Hk|].
    destruct Hset as [-> | ->]; discriminate.
Qed.

(** C9 (witness): two jobs, the first one rejected. *)
Lemma JobQueue_serial_and_recovers_witness :
  reach example_run /\
  ((forall j k, j < k -> invoked example_run k = true -> jobres example_run j <> Pending) /\
   (forall k, S k < n example_run ->
      (jobres example_run k = Fulfilled \/ jobres example_run k = Rejected) ->
      exists s', star example_run s' /\ invoked s' (S k) = true)).
Proof.
  assert (R : reach example_run).
  { unfold example_run.
    eapply reach_step; [eapply reach_step; [eapply reach_step;
      [eapply reach_step; [exact reach_init|apply st_enqueue]|apply st_enqueue]|]|].
    - apply st_invoke; cbn; [apply Nat.lt_0_succ|reflexivity|reflexivity].
    - apply st_job_settle; cbn; [reflexivity|reflexivity|discriminate]. }
  split; [exact R|]. exact (JobQueue_serial_and_recovers example_run R).
Defined.

End JobQueueFacts.

Module GitHubContentsFacts.
Import GitHubContents.

Lemma lookup_assign_same : forall path v fs, lookup path (assign path v fs) = Some v.
Proof.
  intros path v fs. induction fs as [|[p w] rest IH]; cbn.
  - now rewrite String.eqb_refl.
  - destruct (String.eqb_spec p path) as [->|Hne]; cbn.
    + now rewrite String.eqb_refl.
    + apply String.eqb_neq in Hne. now rewrite Hne.
Qed.

Lemma sha_eqb_true : forall a b, sha_eqb a b = true <-> a = b.
Proof.
  intros [x|] [y|]; cbn; split; intro H; try discriminate; try reflexivity.
  - apply N.eqb_eq in H. now subst.
  - injection H as ->. apply N.eqb_refl.
Qed.

(** C10 (amended). [putFile] without an expected sha succeeds exactly when
    the file's sha at the moment of the write is still the one it read
    before (in particular when nobody else writes the path in between), and
    then the path holds the new content under the returned sha; a write by
    someone else in that window makes it fail with a conflict. *)
Theorem putFile_without_sha : forall params r between,
  put_sha params = None ->
  (fst (putFile params r between) <> Conflict <->
     fetchFileSha (between r) (put_path params) = fetchFileSha r (put_path params)) /\
  (forall s r', putFile params r between = (PutOk s, r') ->
     lookup (put_path params) (files r') = Some (s, contentBase64 params)).
Proof.
  intros params r between Hsha. unfold putFile, createOrUpdateFileContents.
  rewrite Hsha. split.
  - destruct (sha_eqb _ _) eqn:E; cbn.
    + apply sha_eqb_true in E. split; [intros _; now symmetry|discriminate].
    + split; [intro H; now contradiction H|].
      intro Heq. rewrite Heq in E. rewrite (proj2 (sha_eqb_true _ _) eq_refl) in E.
      discriminate.
  - intros s r'. destruct (sha_eqb _ _); [|discriminate].
    intro H. injection H as <- <-. cbn. apply lookup_assign_same.
Qed.

(** C10 (witness): the theorem on [example_put], with no other writer. *)
Lemma putFile_without_sha_witness :
  put_sha example_put = None /\
  ((fst (putFile example_put example_remote (fun x => x)) <> Conflict <->
      fetchFileSha example_remote (put_path example_put) =
      fetchFileSha example_remote (put_path example_put)) /\
   (forall s r', putFile example_put example_remote (fun x => x) = (PutOk s, r') ->
      lookup (put_path example_put) (files r') = Some (s, contentBase64 example_put))).
Proof.
  split; [reflexivity|]. apply putFile_without_sha. reflexivity.
Defined.

(** C10 (counterexample): [putFile] without a sha reads sha 1; another
    device then writes the file; the write is refused with a conflict. *)
Lemma putFile_without_sha_conflicts :
  put_sha example_put = None /\
  fetchFileSha example_remote (put_path example_put) = Some 1%N /\
  fetchFileSha (other_writer example_remote) (put_path example_put) = Some 2%N /\
  fst (putFile example_put example_remote other_writer) = Conflict.
Proof. vm_compute. repeat split. Qed.

End GitHubContentsFacts.

Module UploadBatchFacts.
Import UploadBatch.

Lemma upload_loop_cancel : forall c items p st tr,
  (p <= c <= p + length items)%nat ->
  exists st', upload_loop (Some c) items st p tr =
    (st', c,
     (tr ++ writes_from p (firstn (c - p) items) ++
        (if Nat.ltb c (p + length items) then [CancelObserved] else []))%list,
     Nat.ltb c (p + length items)).
Proof.
  intros c items. induction items as [|o rest IH]; intros p st tr Hc; cbn [upload_loop length] in *.
  - assert (c = p) by lia. subst. exists st.
    rewrite Nat.sub_diag, Nat.add_0_r, Nat.ltb_irrefl. cbn. now rewrite !app_nil_r.
  - unfold flag_set. destruct (Nat.leb_spec c p) as [Hle|Hlt].
    + assert (c = p) by lia. subst. exists st.
      rewrite Nat.sub_diag. cbn [firstn writes_from].
      replace (Nat.ltb p (p + S (length rest))) with true by (symmetry; apply Nat.ltb_lt; lia).
      reflexivity.
    + match goal with |- exists _, upload_loop _ _ ?s _ _ = _ => set (st' := s) end.
      destruct (IH (S p) st' (tr ++ item_writes p o)%list) as [st'' Hr]; [lia|].
      exists st''. rewrite Hr.
      replace (c - p)%nat with (S (c - S p)) by lia. cbn [firstn writes_from].
      replace (S p + length rest)%nat with (p + S (length rest))%nat by lia.
      now rewrite <- !app_assoc.
Qed.

(** C3 (amended). If the flag is set after [c] of the prepared items have
    been attempted, the batch ends with [lastBatchUploaded = c], the number
    of items attempted before the flag was observed, failed ones included;
    the remote writes issued are exactly those of these [c] items and none
    follows the observation. *)
Theorem processUploadBatch_cancel : forall c st0 total prepared,
  (c <= length prepared)%nat ->
  lastBatchUploaded (fst (processUploadBatch (Some c) st0 total prepared)) = c /\
  snd (processUploadBatch (Some c) st0 total prepared) =
    (writes_from 0 (firstn c prepared) ++ [CancelObserved])%list.
Proof.
  intros c st0 total prepared Hc. unfold processUploadBatch.
  destruct c as [|c'].
  - cbn. auto.
  - set (c := S c') in *. unfold flag_set at 1. cbn [Nat.leb].
    destruct prepared as [|o rest]; [cbn in Hc; lia|].
    set (st2 := if Nat.eqb _ total then _ else _).
    destruct (upload_loop_cancel c (o :: rest) 0 st2 [] ltac:(lia)) as [st' Hr].
    rewrite Hr. unfold flag_set. rewrite Nat.leb_refl. cbn [fst snd lastBatchUploaded].
    rewrite Nat.sub_0_r. split; [reflexivity|].
    destruct (Nat.ltb c _); cbn; now rewrite ?app_nil_r.
Qed.

(** C3 (witness). *)
Lemma processUploadBatch_cancel_witness :
  (1 <= length example_prepared)%nat /\
  (lastBatchUploaded (fst (processUploadBatch (Some 1) initial_status 2 example_prepared)) = 1%nat /\
   snd (processUploadBatch (Some 1) initial_status 2 example_prepared) =
     (writes_from 0 (firstn 1 example_prepared) ++ [CancelObserved])%list).
Proof.
  split; [cbn; lia|]. apply processUploadBatch_cancel. cbn; lia.
Defined.

(** C3 (counterexample): the first upload throws, then the user cancels;
    the batch ends with [lastBatchUploaded = 1] though no upload
    succeeded. *)
Lemma processUploadBatch_counts_failed_item :
  lastBatchUploaded (fst (processUploadBatch (Some 1) initial_status 2 example_prepared)) = 1%nat /\
  count_succeeded (firstn 1 example_prepared) = 0%nat.
Proof. vm_compute. split; reflexivity. Qed.

End UploadBatchFacts.

Module UploadIndexFacts.
Import UploadIndex.

(** C5 (failing input). The fingerprint of [example_asset] maps to an entry
    with [uploaded = true], no override is given and nothing is blocked,
    yet preparation keeps the asset, so the batch uploads it again. *)
Lemma prepare_keeps_uploaded_fingerprint :
  option_map uploaded (get (asset_fingerprint example_asset) index_after_failure_then_merge)
    = Some true /\
  option_map uploaded (get (asset_id example_asset) index_after_failure_then_merge)
    = Some false /\
  prepareAssetsForUpload false [] index_after_failure_then_merge [example_asset]
    = [example_asset].
Proof. vm_compute. repeat split. Qed.

End UploadIndexFacts.

Module MetaIndexFacts.
Import MetaIndex.

(** C1 (failing input). From an empty repository: [fp1] is uploaded on
    2024-01-02 and uploaded again on 2024-01-03, then [fp2] is uploaded into
    the 2024-01-02 shard; the app restarts and loads the index. Then
    [removeMetaEntries([fp3, fp1, fp2])] completes without error, but
    afterwards (a) the cached manifest has a row for 2024-01-04, the bucket
    of [fp3], whose count is 0, and (b) [fp1] still resolves through
    [getMetaEntryFromCache]. *)
Lemma removeMetaEntries_leaves_zero_row_and_entry :
  fst c1_after_remove = inl tt /\
  option_map info_count (map_get "2024-01-04" (manifest_rows (snd c1_after_remove)))
    = Some (num_of_Z 0) /\
  getMetaEntryFromCache fp1 (meta (snd c1_after_remove)) <> None.
Proof. vm_compute. split; [reflexivity | split; [reflexivity | discriminate]]. Qed.

(** C2 (failing input). No manifest, and the 2024-01-02 shard exists in the
    dated layout with two entries. The walk lists no file, because the
    dated regex never matches; the bootstrap completes, and its manifest
    has no row for 2024-01-02. *)
Lemma bootstrap_misses_dated_shard :
  fst (getContent META_MANIFEST_PATH c2_world) = inr (HttpError 404) /\
  fst (listShardFiles c2_world) = inl [] /\
  match ensureBaseState c2_world with
  | (inl state, _) => map_get "2024-01-02" (manifest_shards (cache_manifest state)) = None
  | (inr _, _) => False
  end /\
  match fst (fetchShardDocument "2024-01-02" c2_dated_path c2_world) with
  | inl (d, _) => doc_bucket d = "2024-01-02" /\ length (entries d) = 2%nat
  | inr _ => False
  end.
Proof. vm_compute. repeat split. Qed.

(** C4 (counterexample). Upserting [c4_entry] (empty [repoPath]) on an
    empty repository completes, but the shard of its bucket, fetched
    afresh, has no entry under its fingerprint. *)
Lemma upsert_empty_repoPath_not_round_tripped :
  fst (upsertMetaEntry c4_entry (fresh_world (day_C + 1000))) = inl tt /\
  match refetch_shard (sanitizeBucket (resolveBucket c4_entry))
          (snd (upsertMetaEntry c4_entry (fresh_world (day_C + 1000)))) with
  | Some d => map_get (fingerprint c4_entry) (entries d) = None
  | None => False
  end.
Proof. vm_compute. split; reflexivity. Qed.

(** C8 (counterexample). The app starts and preloads shards until 450
    entries are cached: only the fresher 2024-01-03 shard is loaded. Then
    [deleteRepoFile(c8_path)] deletes the remote file and completes, but
    the meta entry stays in the 2024-01-02 shard, the local record stays
    and the fingerprint is not blocklisted. The invalidation event is
    emitted all the same. *)
Lemma deleteRepoFile_cache_miss_skips_cleanup :
  let '(r, w) := deleteRepoFile c8_path false c8_world in
  r = inl tt /\
  map_get c8_path (files (remote w)) = None /\
  (match refetch_shard "2024-01-02" w with
   | Some d => map_get (fingerprint c8_photo) (entries d) <> None
   | None => False
   end) /\
  map_get (fingerprint c8_photo) (store_assets (app w)) <> None /\
  existsb (String.eqb (fingerprint c8_photo)) (autoSyncBlocklist (app w)) = false /\
  cacheInvalidations (app w) = 1%nat.
Proof. vm_compute. repeat split; discriminate. Qed.

(** ** Objects and maps *)

Section Objects.
Context {A : Type}.
Implicit Types (ps : list (string * A)) (k : string) (v : A).

Lemma obj_lookup_In k ps v : obj_lookup k ps = Some v -> In (k, v) ps.
Proof.
  induction ps as [|[k' w] rest IH]; simpl; [discriminate|].
  destruct (String.eqb_spec k' k); intros H; [inversion H; subst; auto | auto].
Qed.

Lemma obj_lookup_None k ps : obj_lookup k ps = None -> ~ In k (map fst ps).
Proof.
  induction ps as [|[k' w] rest IH]; simpl; [auto|].
  destruct (String.eqb_spec k' k); [discriminate|]. intros H [E|E]; [congruence|].
  exact (IH H E).
Qed.

Lemma obj_lookup_notin k ps : ~ In k (map fst ps) -> obj_lookup k ps = None.
Proof.
  induction ps as [|[k' w] rest IH]; simpl; [auto|].
  destruct (String.eqb_spec k' k); intros H; [exfalso; auto | auto].
Qed.

Lemma replace_key_fst k v ps : map fst (replace_key k v ps) = map fst ps.
Proof.
  induction ps as [|[k' w] rest IH]; simpl; [auto|].
  destruct (String.eqb k' k); simpl; congruence.
Qed.

Lemma replace_key_In k v ps x : In x (replace_key k v ps) -> In x ps \/ x = (k, v).
Proof.
  induction ps as [|[k' w] rest IH]; simpl; [auto|].
  destruct (String.eqb_spec k' k) as [->|]; simpl; intros [H|H]; auto.
  destruct (IH H); auto.
Qed.

Lemma insert_index_key_perm k v ps :
  Permutation ((k, v) :: ps) (insert_index_key k v ps).
Proof.
  induction ps as [|[k' w] rest IH]; simpl; [auto|].
  destruct (_ && _); [|auto].
  eapply perm_trans; [apply perm_swap|]. constructor. exact IH.
Qed.

Lemma obj_set_In k v ps x : In x (obj_set k v ps) -> In x ps \/ x = (k, v).
Proof.
  unfold obj_set. destruct (String.eqb k "__proto__"); [auto|].
  destruct (obj_lookup k ps); [apply replace_key_In|].
  destruct (is_array_index k).
  - intros H. apply (Permutation_in _ (Permutation_sym (insert_index_key_perm k v ps))) in H.
    destruct H; auto.
  - intros H. apply in_app_or in H as [H|[H|[]]]; auto.
Qed.

Lemma obj_set_NoDup k v ps : NoDup (map fst ps) -> NoDup (map fst (obj_set k v ps)).
Proof.
  intros Hn. unfold obj_set. destruct (String.eqb k "__proto__"); [auto|].
  destruct (obj_lookup k ps) eqn:E; [rewrite replace_key_fst; auto|].
  apply obj_lookup_None in E.
  destruct (is_array_index k).
  - eapply Permutation_NoDup; [apply Permutation_map, insert_index_key_perm|].
    simpl. constructor; auto.
  - rewrite map_app. simpl. apply NoDup_app; auto.
    + constructor; [auto | constructor].
    + intros x H1 H2. destruct H2 as [<-|[]]. auto.
Qed.

Lemma obj_set_Forall (P : string * A -> Prop) k v ps :
  Forall P ps -> P (k, v) -> Forall P (obj_set k v ps).
Proof.
  intros H1 H2. apply Forall_forall. intros x Hx.
  destruct (obj_set_In k v ps x Hx) as [H| ->]; [|auto].
  exact (proj1 (Forall_forall P ps) H1 x H).
Qed.

Lemma obj_delete_In k ps x : In x (obj_delete k ps) -> In x ps.
Proof.
  induction ps as [|[k' w] rest IH]; simpl; [auto|].
  destruct (String.eqb k' k); simpl; intros H; [auto|]. destruct H; auto.
Qed.

Lemma obj_delete_NoDup k ps : NoDup (map fst ps) -> NoDup (map fst (obj_delete k ps)).
Proof.
  induction ps as [|[k' w] rest IH]; simpl; [auto|].
  intros Hn. inversion Hn as [|? ? Hnot Hrest]; subst.
  destruct (String.eqb k' k); simpl; [auto|]. constructor; auto.
  intros Hin. apply in_map_iff in Hin as [[a b] [Ea Hin]]. simpl in Ea; subst.
  apply Hnot. apply obj_delete_In in Hin. exact (in_map fst _ _ Hin).
Qed.

Lemma obj_delete_Forall (P : string * A -> Prop) k ps : Forall P ps -> Forall P (obj_delete k ps).
Proof.
  intros H. apply Forall_forall. intros x Hx.
  exact (proj1 (Forall_forall P ps) H x (obj_delete_In k ps x Hx)).
Qed.

Lemma obj_lookup_delete_same k ps : NoDup (map fst ps) -> obj_lookup k (obj_delete k ps) = None.
Proof.
  intros Hn. apply obj_lookup_notin. intros Hin.
  induction ps as [|[k' w] rest IH]; simpl in *; [auto|].
  inversion Hn as [|? ? Hnot Hrest]; subst.
  destruct (String.eqb_spec k' k) as [->|]; simpl in Hin; [auto|].
  destruct Hin; [congruence | auto].
Qed.

Lemma obj_lookup_delete_other k k' ps : k' <> k -> obj_lookup k (obj_delete k' ps) = obj_lookup k ps.
Proof.
  intros Hne. induction ps as [|[k'' w] rest IH]; simpl; [auto|].
  destruct (String.eqb_spec k'' k') as [->|]; simpl.
  - destruct (String.eqb_spec k' k); [congruence|auto].
  - destruct (String.eqb k'' k); auto.
Qed.

Lemma obj_lookup_replace k k' v ps :
  obj_lookup k (replace_key k' v ps)
  = if String.eqb k' k then option_map (fun _ => v) (obj_lookup k' ps) else obj_lookup k ps.
Proof.
  induction ps as [|[k'' w] rest IH]; simpl.
  - destruct (String.eqb k' k); auto.
  - destruct (String.eqb_spec k'' k') as [->|Hne]; simpl.
    + destruct (String.eqb_spec k' k); auto.
    + rewrite IH. destruct (String.eqb_spec k'' k) as [->|]; destruct (String.eqb_spec k' k); congruence.
Qed.

Lemma obj_lookup_insert_index k k' v ps :
  obj_lookup k' ps = None ->
  obj_lookup k (insert_index_key k' v ps) = if String.eqb k' k then Some v else obj_lookup k ps.
Proof.
  induction ps as [|[k'' w] rest IH]; simpl; intros Hn.
  - auto.
  - destruct (String.eqb_spec k'' k') as [|Hne]; [discriminate|].
    destruct (_ && _); simpl.
    + rewrite IH by exact Hn. destruct (String.eqb_spec k'' k) as [->|]; destruct (String.eqb_spec k' k); congruence.
    + reflexivity.
Qed.

Lemma obj_lookup_app k ps ps' :
  obj_lookup k (ps ++ ps') = match obj_lookup k ps with Some v => Some v | None => obj_lookup k ps' end.
Proof.
  induction ps as [|[k'' w] rest IH]; simpl; [auto|]. destruct (String.eqb k'' k); auto.
Qed.

Lemma obj_lookup_set k k' v ps :
  obj_lookup k (obj_set k' v ps)
  = if String.eqb k' "__proto__" then obj_lookup k ps
    else if String.eqb k' k then Some v else obj_lookup k ps.
Proof.
  unfold obj_set. destruct (String.eqb k' "__proto__"); [auto|].
  destruct (obj_lookup k' ps) eqn:E.
  - rewrite obj_lookup_replace, E. destruct (String.eqb k' k); auto.
  - destruct (is_array_index k'); [apply obj_lookup_insert_index; exact E|].
    rewrite obj_lookup_app. simpl.
    destruct (String.eqb_spec k' k) as [->|]; [rewrite E; auto|].
    destruct (obj_lookup k ps); auto.
Qed.

Lemma map_get_set k k' v ps :
  map_get k (map_set k' v ps) = if String.eqb k' k then Some v else map_get k ps.
Proof.
  unfold map_get, map_set. destruct (obj_lookup k' ps) eqn:E.
  - rewrite obj_lookup_replace, E. destruct (String.eqb k' k); auto.
  - rewrite obj_lookup_app. simpl.
    destruct (String.eqb_spec k' k) as [->|]; [rewrite E; auto|].
    destruct (obj_lookup k ps); auto.
Qed.

Lemma map_get_set_In k k' v ps s : map_get k (map_set k' v ps) = Some s -> s = v \/ map_get k ps = Some s.
Proof. rewrite map_get_set. destruct (String.eqb k' k); intros H; [inversion H|]; auto. Qed.

End Objects.

(** ** The in-memory maps never touch [cache] *)

Lemma registerPaths_cache fp ps m : cache (registerPaths fp ps m) = cache m.
Proof. unfold registerPaths. destruct (fold_left _ _ _). reflexivity. Qed.

Lemma removeEntryFromCache_cache fp m : cache (removeEntryFromCache fp m) = cache m.
Proof. unfold removeEntryFromCache. destruct (map_get fp (fingerprintToPaths m)); reflexivity. Qed.

Lemma fold_removeEntry_cache fps m :
  cache (fold_left (fun acc fp => removeEntryFromCache fp acc) fps m) = cache m.
Proof.
  revert m; induction fps as [|fp fps IH]; intros m; simpl; [auto|].
  rewrite IH. apply removeEntryFromCache_cache.
Qed.

Lemma evictBucketEntries_cache b m : cache (evictBucketEntries b m) = cache m.
Proof. unfold evictBucketEntries. destruct (map_get _ _); [apply fold_removeEntry_cache | auto]. Qed.

Lemma fold_ingest_entry_cache b es acc :
  cache (fst (fold_left (ingest_entry b) es acc)) = cache (fst acc).
Proof.
  revert acc; induction es as [|e es IH]; intros acc; simpl; [auto|].
  rewrite IH. destruct acc as [m set]. unfold ingest_entry.
  destruct (String.eqb _ _); [auto|]. simpl. rewrite registerPaths_cache. reflexivity.
Qed.

Lemma ingestShardDocument_cache d m : cache (ingestShardDocument d m) = cache m.
Proof.
  unfold ingestShardDocument.
  pose proof (fold_ingest_entry_cache (doc_bucket d) (map snd (entries d))
                (evictBucketEntries (doc_bucket d) m, [])) as H.
  destruct (fold_left _ _ _) as [m1 set]. simpl in *. rewrite H. apply evictBucketEntries_cache.
Qed.

Lemma fold_remove_step_cache l es m ch :
  cache (snd (fst (fold_left remove_step l (es, m, ch)))) = cache m.
Proof.
  revert es m ch; induction l as [|fp l IH]; intros es m ch; simpl; [auto|].
  destruct (obj_get_truthy fp es); rewrite IH; [apply removeEntryFromCache_cache | auto].
Qed.

Lemma fold_remove_step_doc l es m ch :
  NoDup (map fst es) -> Forall (fun '(k, e) => fingerprint (se_entry e) = k) es ->
  let es' := fst (fst (fold_left remove_step l (es, m, ch))) in
  NoDup (map fst es') /\ Forall (fun '(k, e) => fingerprint (se_entry e) = k) es'.
Proof.
  revert es m ch; induction l as [|fp l IH]; intros es m ch H1 H2; simpl; [auto|].
  destruct (obj_get_truthy fp es); apply IH; auto.
  - apply obj_delete_NoDup; auto.
  - apply obj_delete_Forall; auto.
Qed.

(** ** Reasoning about [Inv] *)

Lemma Inv_same_cache w w' : cache (meta w') = cache (meta w) -> Inv w -> Inv w'.
Proof. unfold Inv. intros E H c Hc. apply H. congruence. Qed.

Lemma Inv_no_cache w : cache (meta w) = None -> Inv w.
Proof. unfold Inv. intros E c Hc. congruence. Qed.

Lemma shards_ok_nil : shards_ok [].
Proof. split; constructor. Qed.

Lemma shards_ok_set k s l : shard_ok s -> shards_ok l -> shards_ok (map_set k s l).
Proof.
  unfold shards_ok, map_set. intros Hs [Hn Hl]. destruct (obj_lookup k l) eqn:E.
  - split; [rewrite replace_key_fst; exact Hn|].
    apply Forall_forall. intros x Hx. apply replace_key_In in Hx as [Hx| ->]; [|auto].
    exact (proj1 (Forall_forall _ _) Hl x Hx).
  - apply obj_lookup_None in E. split.
    + rewrite map_app. simpl. apply NoDup_app; auto.
      * constructor; [auto | constructor].
      * intros x Hx [<-|[]]. exact (E Hx).
    + apply Forall_app. split; auto.
Qed.

Lemma shards_ok_delete k l : shards_ok l -> shards_ok (map_delete k l).
Proof. intros [Hn Hl]. split; [apply obj_delete_NoDup | apply obj_delete_Forall]; assumption. Qed.

Lemma shards_ok_get k l s : shards_ok l -> map_get k l = Some s -> shard_ok s.
Proof.
  intros [_ Hl] E. apply obj_lookup_In in E.
  exact (proj1 (Forall_forall _ _) Hl _ E).
Qed.

Lemma spec_bind {A B} (m : M A) (k : A -> M B) R Q :
  spec m R -> (forall a, R a -> spec (k a) Q) -> spec (bind m k) Q.
Proof.
  intros Hm Hk w Hw. unfold bind. specialize (Hm w Hw).
  destruct (m w) as [[a|e] w1]; simpl in *.
  - destruct Hm as [H1 H2]. exact (Hk a (H2 a eq_refl) w1 H1).
  - split; [apply Hm | discriminate].
Qed.

Lemma spec_ret {A} (a : A) (R : A -> Prop) : R a -> spec (ret a) R.
Proof. intros Ha w Hw. simpl. split; [auto | intros ? E; inversion E; subst; auto]. Qed.

Lemma spec_weaken {A} (m : M A) (R R' : A -> Prop) :
  spec m R -> (forall a, R a -> R' a) -> spec m R'.
Proof. intros H HR w Hw. destruct (H w Hw). split; auto. Qed.

Lemma spec_keep {A} (m : M A) :
  (forall w, cache (meta (snd (m w))) = cache (meta w)) -> spec m (fun _ => True).
Proof. intros H w Hw. split; [exact (Inv_same_cache _ _ (H w) Hw) | auto]. Qed.

Lemma spec_catch404 {A} (m h : M A) R : spec m R -> spec h R -> spec (catch404 m h) R.
Proof.
  intros Hm Hh w Hw. unfold catch404. specialize (Hm w Hw).
  destruct (m w) as [[a|[st]] w1] eqn:E; [exact Hm|].
  destruct (Z.eq_dec st 404) as [->|Hne]; [apply Hh, Hm|].
  destruct st as [|p|p]; try exact Hm.
  repeat (destruct p as [p|p|]; try exact Hm); exfalso; apply Hne; reflexivity.
Qed.

Lemma spec_foldM {A B} (f : A -> B -> M A) (P : A -> Prop) l a :
  P a -> (forall a x, P a -> spec (f a x) P) -> spec (foldM f l a) P.
Proof.
  revert a; induction l as [|x l IH]; intros a Ha Hf; simpl.
  - apply spec_ret; auto.
  - eapply spec_bind; [apply Hf; exact Ha | intros a' Ha'; apply IH; auto].
Qed.

Lemma spec_getContent p : spec (getContent p) (fun _ => True).
Proof.
  apply spec_keep. intros w. unfold getContent.
  destruct (map_get _ _) as [[? ?]|]; [auto|]. destruct (dir_items _ _); auto.
Qed.

Lemma spec_now : spec now (fun _ => True).
Proof. apply spec_keep. auto. Qed.

Lemma spec_get_meta : spec get_meta (fun _ => True).
Proof. apply spec_keep. auto. Qed.

Lemma spec_get_cache : spec get_cache (fun o => forall c, o = Some c -> shards_ok (cache_shards c)).
Proof. intros w Hw. split; [exact Hw|]. intros a Ea c Ec. subst a. inversion Ea. apply Hw. auto. Qed.

Lemma spec_get_app : spec get_app (fun _ => True).
Proof. apply spec_keep. auto. Qed.

Lemma spec_modify_app f : spec (modify_app f) (fun _ => True).
Proof. apply spec_keep. auto. Qed.

Lemma spec_createOrUpdate p c sha : spec (createOrUpdateFileContents p c sha) (fun _ => True).
Proof.
  apply spec_keep. intros w. unfold createOrUpdateFileContents.
  destruct (path_blocked _ _); [auto|]. destruct (sha_matches _ _); auto.
Qed.

Lemma spec_deleteFile_api p sha : spec (deleteFile_api p sha) (fun _ => True).
Proof.
  apply spec_keep. intros w. unfold deleteFile_api.
  destruct (map_get _ _) as [[s ?]|]; [|auto]. destruct (String.eqb s sha); auto.
Qed.

Lemma spec_modify_meta f : (forall m, cache (f m) = cache m) -> spec (modify_meta f) (fun _ => True).
Proof. intros H. apply spec_keep. intros w. simpl. apply H. Qed.

Lemma spec_modify_cache f :
  (forall c, shards_ok (cache_shards c) -> shards_ok (cache_shards (f c))) ->
  spec (modify_cache f) (fun _ => True).
Proof.
  intros Hf w Hw. split; [|auto]. simpl. unfold Inv in *.
  destruct (cache (meta w)) as [c0|] eqn:E; simpl.
  - intros c Hc. inversion Hc; subst. apply Hf, Hw; reflexivity.
  - intros c Hc. rewrite E in Hc. discriminate.
Qed.

Lemma spec_shard_at key : spec (shard_at key) (fun o => forall s, o = Some s -> shard_ok s).
Proof.
  intros w Hw. split; [exact Hw|]. intros a Ea s Es. subst a. simpl in Ea. inversion Ea as [Es].
  destruct (cache (meta w)) as [c|] eqn:E; [|discriminate].
  exact (shards_ok_get _ _ _ (Hw c E) Es).
Qed.

Lemma spec_put_shard key s : shard_ok s -> spec (put_shard key s) (fun _ => True).
Proof. intros Hs. apply spec_modify_cache. intros c Hc. simpl. apply shards_ok_set; auto. Qed.

Lemma spec_markManifestEntry b s : spec (markManifestEntry b s) (fun _ => True).
Proof. apply spec_modify_cache. auto. Qed.

Create HintDb metaspec.
#[local] Hint Resolve spec_getContent spec_now spec_get_meta spec_get_cache spec_get_app
  spec_modify_app spec_createOrUpdate spec_deleteFile_api spec_shard_at spec_put_shard
  spec_markManifestEntry : metaspec.

Lemma doc_ok_empty t b : doc_ok (makeEmptyShard t b).
Proof. split; constructor. Qed.

Lemma fold_normalize_entry_ok t l acc :
  NoDup (map fst acc) -> Forall (fun '(k, e) => fingerprint (se_entry e) = k) acc ->
  let es := fold_left (normalize_entry t) l acc in
  NoDup (map fst es) /\ Forall (fun '(k, e) => fingerprint (se_entry e) = k) es.
Proof.
  revert acc; induction l as [|[key raw] l IH]; intros acc H1 H2; simpl; [auto|].
  apply IH; unfold normalize_entry; cbv zeta;
    destruct (not_object raw); auto;
    destruct (String.eqb _ ""); auto;
    destruct (toOptionalString _); auto.
  - apply obj_set_NoDup; auto.
  - apply obj_set_Forall; auto.
Qed.

Lemma doc_ok_normalize t b v : doc_ok (normalizeShardDocument t b v).
Proof.
  unfold normalizeShardDocument, doc_ok. simpl.
  destruct (not_object _); [split; constructor|].
  apply fold_normalize_entry_ok; constructor.
Qed.

Lemma spec_fetchShardDocument b p : spec (fetchShardDocument b p) (fun r => doc_ok (fst r)).
Proof.
  unfold fetchShardDocument. apply spec_catch404.
  - eapply spec_bind; [apply spec_getContent|]. intros d _.
    eapply spec_bind; [apply spec_now|]. intros t _.
    destruct d; apply spec_ret; simpl; [apply doc_ok_normalize | apply doc_ok_empty].
  - eapply spec_bind; [apply spec_now|]. intros t _. apply spec_ret. apply doc_ok_empty.
Qed.

Lemma spec_persistShard key : spec (persistShard key) (fun _ => True).
Proof.
  unfold persistShard. eapply spec_bind; [apply spec_shard_at|]. intros [shard|] Hs; [|apply spec_ret; auto].
  specialize (Hs shard eq_refl).
  eapply spec_bind; [apply spec_now|]. intros t _.
  assert (Hd : doc_ok (mkDoc SHARD_VERSION (sanitizeBucket (shard_bucket shard)) t
                 (entries (match shard_doc shard with Some d => d
                           | None => makeEmptyShard t (shard_bucket shard) end)))).
  { destruct (shard_doc shard) as [d0|] eqn:E; [apply (Hs d0 E) | apply doc_ok_empty]. }
  eapply spec_bind; [apply spec_put_shard; intros d Ed; simpl in Ed; inversion Ed; subst; exact Hd|].
  intros _ _. eapply spec_bind; [apply spec_createOrUpdate|]. intros sha _.
  apply spec_put_shard. intros d Ed. simpl in Ed. inversion Ed; subst. exact Hd.
Qed.

Lemma spec_deleteShardFile s : spec (deleteShardFile s) (fun _ => True).
Proof.
  unfold deleteShardFile. destruct (shard_sha s); [|apply spec_ret; auto].
  destruct (String.eqb _ _); [apply spec_ret; auto | apply spec_deleteFile_api].
Qed.

Lemma spec_ingest d : spec (modify_meta (ingestShardDocument d)) (fun _ => True).
Proof. apply spec_modify_meta. apply ingestShardDocument_cache. Qed.

Lemma spec_evict b : spec (modify_meta (evictBucketEntries b)) (fun _ => True).
Proof. apply spec_modify_meta. apply evictBucketEntries_cache. Qed.

Lemma spec_set_cache c : shards_ok (cache_shards c) -> spec (modify_meta (set_cache c)) (fun _ => True).
Proof. intros Hc w Hw. split; [|auto]. intros c' E. simpl in E. inversion E; subst. exact Hc. Qed.

(** The walk of [listShardFiles] only reads. *)
Lemma walk_world fuel : forall p fs w, snd (walk fuel p fs w) = w.
Proof.
  induction fuel as [|f IH]; intros p fs w; [reflexivity|].
  cbn [walk]. unfold bind at 1.
  assert (Hc : snd (catch404 (let* d := getContent p in ret (Some d)) (ret None) w) = w).
  { unfold catch404, bind, getContent. destruct (map_get p _) as [[? ?]|]; [reflexivity|].
    destruct (dir_items p _); reflexivity. }
  destruct (catch404 _ _ w) as [[[d|]|e] w1]; simpl in Hc; subst w1; [|reflexivity|reflexivity].
  destruct d as [p' sha c|items].
  - destruct (bucketFromShardFilePath _); reflexivity.
  - revert fs. induction items as [|[[|] q] rest IHi]; intros fs; [reflexivity| |].
    + destruct (bucketFromShardFilePath _); apply IHi.
    + unfold bind. pose proof (IH q fs w) as Hw.
      destruct (walk f q fs w) as [[fs'|e] w1]; simpl in Hw; subst w1; [apply IHi | reflexivity].
Qed.

Lemma listShardFiles_world w : snd (listShardFiles w) = w.
Proof. apply walk_world. Qed.

Lemma spec_listShardFiles : spec listShardFiles (fun _ => True).
Proof. apply spec_keep. intros w. rewrite listShardFiles_world. reflexivity. Qed.

Lemma spec_build_step acc f :
  shards_ok (snd acc) -> spec (build_step acc f) (fun acc' => shards_ok (snd acc')).
Proof.
  destruct acc as [manifest shards], f as [bucket path]. simpl. intros Hs.
  unfold build_step. eapply spec_bind; [apply spec_fetchShardDocument|]. intros [doc sha] Hd.
  simpl in Hd. eapply spec_bind; [apply spec_ingest|]. intros _ _.
  apply spec_ret. simpl. apply shards_ok_set; auto.
  intros d Ed. simpl in Ed. inversion Ed; subst. exact Hd.
Qed.

Lemma spec_fetchManifest : spec fetchManifest (fun _ => True).
Proof.
  unfold fetchManifest. eapply spec_bind; [apply spec_getContent|]. intros d _.
  eapply spec_bind; [apply spec_now|]. intros t _. destruct d; apply spec_ret; auto.
Qed.

Lemma spec_writeManifest m sha : spec (writeManifest m sha) (fun _ => True).
Proof.
  unfold writeManifest. eapply spec_bind; [apply spec_createOrUpdate|]. intros s _. apply spec_ret; auto.
Qed.

Lemma fold_shard_of_info_ok l acc :
  shards_ok acc ->
  shards_ok (fold_left (fun acc kv => let '(b, s) := shard_of_info kv in map_set b s acc) l acc).
Proof.
  revert acc; induction l as [|[b info] l IH]; intros acc H; simpl; [auto|].
  apply IH. apply shards_ok_set; auto. intros d E. discriminate.
Qed.

Lemma fold_existing_ok (l : list (string * ShardCacheEntry)) acc :
  Forall (fun ks => shard_ok (snd ks)) l -> shards_ok acc ->
  shards_ok (fold_left (fun acc '(_, s) => map_set (shard_bucket s) s acc) l acc).
Proof.
  revert acc; induction l as [|[b s] l IH]; intros acc Hl H; simpl; [auto|].
  inversion Hl; subst. apply IH; auto. apply shards_ok_set; auto.
Qed.

Lemma spec_ensureBaseState : spec ensureBaseState (fun c => shards_ok (cache_shards c)).
Proof.
  unfold ensureBaseState. eapply spec_bind; [apply spec_get_cache|]. intros [state|] Hst.
  - apply spec_ret. apply Hst; auto.
  - eapply spec_bind; [apply spec_modify_meta; reflexivity|]. intros _ _.
    eapply spec_bind with (R := fun _ => True).
    { apply spec_catch404; [|apply spec_ret; auto].
      eapply spec_bind; [apply spec_fetchManifest|]. intros r _. apply spec_ret; auto. }
    intros mr _. eapply spec_bind; [apply spec_now|]. intros t _.
    eapply spec_bind with (R := fun r => shards_ok (snd r)).
    + destruct mr as [[m0 sha]|].
      * apply spec_ret. simpl. apply fold_shard_of_info_ok. apply shards_ok_nil.
      * eapply spec_bind with (R := fun r => shards_ok (snd r)).
        { unfold buildManifestFromExistingShards.
          eapply spec_bind; [apply spec_listShardFiles|]. intros files _.
          eapply spec_bind; [apply spec_now|]. intros t' _.
          apply spec_foldM; [apply shards_ok_nil|]. intros acc f Hacc. apply spec_build_step; auto. }
        intros [manifest existing] He. simpl in He.
        eapply spec_bind; [apply spec_writeManifest|]. intros sha _.
        apply spec_ret. simpl. apply fold_existing_ok; [apply He | apply shards_ok_nil].
    + intros [[manifest sha] shards] Hs. simpl in Hs.
      eapply spec_bind; [apply spec_set_cache; exact Hs|]. intros _ _. apply spec_ret. exact Hs.
Qed.

Lemma spec_ensureShardLoaded b : spec (ensureShardLoaded b) (fun _ => True).
Proof.
  unfold ensureShardLoaded. eapply spec_bind; [apply spec_ensureBaseState|]. intros _ _.
  eapply spec_bind; [apply spec_shard_at|]. intros s0 Hs0.
  eapply spec_bind with (R := shard_ok).
  { destruct s0 as [s|]; [apply spec_ret, Hs0; auto|].
    eapply spec_bind; [apply spec_put_shard; intros d E; discriminate|]. intros _ _.
    apply spec_ret. intros d E. discriminate. }
  intros shard Hsh.
  assert (Hk : spec (let* (doc, sha) := fetchShardDocument (sanitizeBucket b) (shard_path shard) in
      let shard' := mkShard (shard_bucket shard) (shard_path shard) sha (count_of (entries doc))
                      (generatedAt doc) (Some doc) true in
      let* _ := put_shard (sanitizeBucket b) shard' in
      let* _ := modify_meta (if (0 <? length (entries doc))%nat then ingestShardDocument doc
                             else evictBucketEntries (sanitizeBucket b)) in
      let* _ := markManifestEntry (sanitizeBucket b) (Some shard') in
      ret (sanitizeBucket b)) (fun _ => True)).
  { eapply spec_bind; [apply spec_fetchShardDocument|]. intros [doc sha] Hd. simpl in Hd.
    eapply spec_bind; [apply spec_put_shard; intros d E; simpl in E; inversion E; subst; exact Hd|].
    intros _ _. eapply spec_bind.
    { destruct (_ <? _)%nat; [apply spec_ingest | apply spec_evict]. }
    intros _ _. eapply spec_bind; [apply spec_markManifestEntry|]. intros _ _. apply spec_ret; auto. }
  destruct (shard_loaded shard), (shard_doc shard); try exact Hk. apply spec_ret; auto.
Qed.

Lemma spec_preload_loop target l : spec (preload_loop target l) (fun _ => True).
Proof.
  induction l as [|b l IH]; simpl; [apply spec_ret; auto|].
  eapply spec_bind; [apply spec_get_meta|]. intros m _.
  destruct (target <=? _)%Z; [apply spec_ret; auto|].
  eapply spec_bind; [apply spec_shard_at|]. intros [shard|] _; [|exact IH].
  eapply spec_bind; [|intros _ _; exact IH].
  destruct (shard_loaded shard).
  - destruct (shard_doc shard); [apply spec_ingest | apply spec_ret; auto].
  - eapply spec_bind; [apply spec_ensureShardLoaded|]. intros _ _. apply spec_ret; auto.
Qed.

Lemma spec_preloadRecentShards target : spec (preloadRecentShards target) (fun _ => True).
Proof.
  unfold preloadRecentShards. eapply spec_bind; [apply spec_ensureBaseState|]. intros st _.
  eapply spec_bind; [apply spec_get_meta|]. intros m _.
  destruct (target <=? _)%Z; [apply spec_ret; auto | apply spec_preload_loop].
Qed.

Lemma spec_loadMetaIndex : spec loadMetaIndex (fun _ => True).
Proof.
  unfold loadMetaIndex. eapply spec_bind; [apply spec_ensureBaseState|]. intros st _.
  eapply spec_bind; [apply spec_preloadRecentShards|]. intros _ _. apply spec_ret; auto.
Qed.

Lemma spec_invalidateMetaCache : spec invalidateMetaCache (fun _ => True).
Proof. intros w Hw. split; [apply Inv_no_cache; reflexivity | auto]. Qed.

Lemma spec_touch_and_write_manifest : spec touch_and_write_manifest (fun _ => True).
Proof.
  unfold touch_and_write_manifest. eapply spec_bind; [apply spec_now|]. intros t _.
  eapply spec_bind; [apply spec_modify_cache; auto|]. intros _ _.
  eapply spec_bind; [apply spec_get_cache|]. intros [st|] _; [|apply spec_ret; auto].
  eapply spec_bind; [apply spec_writeManifest|]. intros sha _. apply spec_modify_cache; auto.
Qed.

Lemma spec_bind_get_meta {B} (f : MetaState -> M B) Q :
  (forall w, Inv w -> Inv (snd (f (meta w) w)) /\ (forall a, fst (f (meta w) w) = inl a -> Q a)) ->
  spec (bind get_meta f) Q.
Proof. intros H w Hw. exact (H w Hw). Qed.

Lemma spec_remove_bucket dirty g : spec (remove_bucket dirty g) (fun _ => True).
Proof.
  destruct g as [bucket l]. unfold remove_bucket.
  eapply spec_bind; [apply spec_ensureShardLoaded|]. intros key _.
  eapply spec_bind; [apply spec_shard_at|]. intros [shard|] Hs; [|apply spec_ret; auto].
  specialize (Hs shard eq_refl).
  destruct (shard_doc shard) as [doc|] eqn:Ed; [|apply spec_ret; auto].
  destruct (Hs doc Ed) as [Hn Hf].
  apply spec_bind_get_meta. intros w Hw.
  pose proof (fold_remove_step_cache l (entries doc) (meta w) false) as Hc.
  pose proof (fold_remove_step_doc l (entries doc) (meta w) false Hn Hf) as Hes.
  destruct (fold_left remove_step l (entries doc, meta w, false)) as [[es m'] changed].
  simpl in Hc, Hes. destruct Hes as [Hn' Hf'].
  assert (Hw' : Inv (set_meta m' w)) by (apply (Inv_same_cache w); [exact Hc | exact Hw]).
  match goal with
  | |- context [ bind (modify_meta (fun _ => m')) ?K w ] =>
      assert (HK : spec (K tt) (fun _ => True));
      [| change (bind (modify_meta (fun _ => m')) K w) with (K tt (set_meta m' w));
         exact (HK _ Hw') ]
  end.
  assert (Hok : forall v b g, doc_ok (mkDoc v b g es)) by (intros; split; auto).
  eapply spec_bind; [apply spec_put_shard; intros d E; simpl in E; inversion E; subst; apply Hok|].
  intros _ _. destruct (negb changed); [apply spec_ret; auto|].
  eapply spec_bind; [apply spec_now|]. intros t _.
  eapply spec_bind; [apply spec_put_shard; intros d E; simpl in E; inversion E; subst; apply Hok|].
  intros _ _. destruct (length es =? 0)%nat.
  - eapply spec_bind; [apply spec_deleteShardFile|]. intros _ _.
    eapply spec_bind; [apply spec_modify_cache; intros c Hc'; apply shards_ok_delete; exact Hc'|].
    intros _ _. eapply spec_bind; [apply spec_evict|]. intros _ _.
    eapply spec_bind; [apply spec_markManifestEntry|]. intros _ _. apply spec_ret; auto.
  - eapply spec_bind; [apply spec_persistShard|]. intros _ _.
    eapply spec_bind; [apply spec_shard_at|]. intros s3 _.
    eapply spec_bind with (R := fun _ => True); [|intros _ _; apply spec_ret; auto].
    destruct s3 as [shard3|]; [|apply spec_ret; auto].
    eapply spec_bind; [|intros _ _; apply spec_markManifestEntry].
    destruct (shard_doc shard3); [apply spec_ingest | apply spec_modify_meta; auto].
Qed.

Lemma spec_removeMetaEntries fps : spec (removeMetaEntries fps) (fun _ => True).
Proof.
  unfold removeMetaEntries. destruct fps as [|fp fps]; [apply spec_ret; auto|].
  eapply spec_bind; [apply spec_ensureBaseState|]. intros _ _.
  eapply spec_bind; [apply spec_get_meta|]. intros m _.
  eapply spec_bind; [apply spec_foldM with (P := fun _ => True); [auto|]; intros; apply spec_remove_bucket|].
  intros dirty _. destruct dirty; [apply spec_touch_and_write_manifest | apply spec_ret; auto].
Qed.

Lemma spec_upsertMetaEntry e : spec (upsertMetaEntry e) (fun _ => True).
Proof.
  unfold upsertMetaEntry. eapply spec_bind; [apply spec_ensureBaseState|]. intros _ _.
  eapply spec_bind; [apply spec_ensureShardLoaded|]. intros key _.
  eapply spec_bind; [apply spec_shard_at|]. intros [shard|] Hs; [|apply spec_ret; auto].
  specialize (Hs shard eq_refl).
  eapply spec_bind; [apply spec_now|]. intros t _.
  eapply spec_bind.
  { apply spec_put_shard. intros d E. simpl in E. inversion E; subst. split; simpl.
    - apply obj_set_NoDup. destruct (shard_doc shard) as [d0|] eqn:Ed; [apply (Hs d0 Ed) | constructor].
    - apply obj_set_Forall; [|reflexivity].
      destruct (shard_doc shard) as [d0|] eqn:Ed; [apply (Hs d0 Ed) | constructor]. }
  intros _ _. eapply spec_bind; [apply spec_persistShard|]. intros _ _.
  eapply spec_bind; [apply spec_shard_at|]. intros s2 _.
  eapply spec_bind with (R := fun _ => True); [|intros _ _; apply spec_touch_and_write_manifest].
  destruct s2 as [shard2|]; [|apply spec_ret; auto].
  eapply spec_bind; [|intros _ _; apply spec_markManifestEntry].
  destruct (shard_doc shard2); [apply spec_ingest | apply spec_modify_meta; auto].
Qed.

Lemma spec_ensureMetaLoaded : spec ensureMetaLoaded (fun _ => True).
Proof.
  unfold ensureMetaLoaded. eapply spec_bind; [apply spec_get_app|]. intros a _.
  destruct (metaReady a); [apply spec_ret; auto|].
  eapply spec_bind; [apply spec_loadMetaIndex|]. intros _ _. apply spec_modify_app.
Qed.

Lemma spec_fetchFileSha p : spec (fetchFileSha p) (fun _ => True).
Proof.
  unfold fetchFileSha. apply spec_catch404; [|apply spec_ret; auto].
  eapply spec_bind; [apply spec_getContent|]. intros d _. destruct d; apply spec_ret; auto.
Qed.

Lemma spec_deleteFile p : spec (deleteFile p) (fun _ => True).
Proof.
  unfold deleteFile. eapply spec_bind; [apply spec_fetchFileSha|]. intros [s|] _; [|apply spec_ret; auto].
  destruct (String.eqb s ""); [apply spec_ret; auto | apply spec_deleteFile_api].
Qed.

Lemma spec_blockAutoSyncFingerprint fp : spec (blockAutoSyncFingerprint fp) (fun _ => True).
Proof.
  unfold blockAutoSyncFingerprint. destruct (String.eqb fp ""); [apply spec_ret; auto|].
  eapply spec_bind; [apply spec_modify_app|]. intros _ _. apply spec_modify_app.
Qed.

Lemma spec_deleteRepoFile p skip : spec (deleteRepoFile p skip) (fun _ => True).
Proof.
  unfold deleteRepoFile. eapply spec_bind; [apply spec_ensureMetaLoaded|]. intros _ _.
  eapply spec_bind; [apply spec_deleteFile|]. intros _ _.
  eapply spec_bind; [apply spec_get_meta|]. intros m _.
  eapply spec_bind with (R := fun _ => True).
  - destruct (getMetaEntryFromCache p m) as [cached|]; [|apply spec_ret; auto].
    eapply spec_bind; [apply spec_removeMetaEntries|]. intros _ _.
    unfold getAsset. eapply spec_bind.
    { eapply spec_bind; [apply spec_get_app|]. intros a _. apply spec_ret with (R := fun _ => True); auto. }
    intros existing _. eapply spec_bind; [apply spec_modify_app|]. intros _ _.
    eapply spec_bind; [apply spec_modify_app|]. intros _ _. apply spec_blockAutoSyncFingerprint.
  - intros _ _. destruct skip; [apply spec_ret; auto | apply spec_modify_app].
Qed.

(** Every reachable state satisfies [Inv]. *)
Lemma reachable_Inv w : reachable w -> Inv w.
Proof.
  induction 1 as [w E|w r t a _ IH|w _ IH|w _ IH|w e _ IH|w fps _ IH|w p skip _ IH].
  - apply Inv_no_cache. rewrite E. reflexivity.
  - exact IH.
  - apply spec_loadMetaIndex, IH.
  - apply spec_invalidateMetaCache, IH.
  - apply spec_upsertMetaEntry, IH.
  - apply spec_removeMetaEntries, IH.
  - apply spec_deleteRepoFile, IH.
Qed.

(** ** Shard documents through JSON and [normalizeShardDocument] *)

Lemma get_fingerprint_roundtrip E :
  get_prop (json_roundtrip (shard_entry_val E)) "fingerprint" = VStr (fingerprint (se_entry E)).
Proof. reflexivity. Qed.

Lemma not_object_roundtrip E : not_object (json_roundtrip (shard_entry_val E)) = false.
Proof. reflexivity. Qed.

Lemma normalize_entry_other t acc k E :
  fingerprint (se_entry E) = k ->
  normalize_entry t acc (k, json_roundtrip (shard_entry_val E)) = acc \/
  exists v, normalize_entry t acc (k, json_roundtrip (shard_entry_val E)) = obj_set k v acc.
Proof.
  intros Hk. unfold normalize_entry. rewrite not_object_roundtrip, get_fingerprint_roundtrip, Hk.
  cbv beta iota zeta. unfold is_nonempty_string.
  destruct (String.eqb k "") eqn:E0; cbv iota; rewrite ?E0; [auto|].
  destruct (toOptionalString _); [right; eexists; reflexivity | auto].
Qed.

Lemma shard_entry_roundtrip E :
  entry_roundtrips (se_entry E) = true ->
  json_roundtrip (shard_entry_val E) =
  VObj [("fingerprint", VStr (fingerprint (se_entry E))); ("repoPath", VStr (repoPath (se_entry E)));
        ("previewRepoPath", optstr_val (previewRepoPath (se_entry E)));
        ("createdAt", optnum_val (createdAt (se_entry E)));
        ("fileSize", optnum_val (fileSize (se_entry E)));
        ("contentHash", nullstr_val (contentHash (se_entry E)));
        ("uploadedAt", optnum_val (uploadedAt (se_entry E)));
        ("assetId", optstr_val (assetId (se_entry E)));
        ("updatedAt", json_roundtrip (VNum (se_updatedAt E)))].
Proof.
  destruct E as [[fp repo prev cr fs ch up aid] upd]. intros H.
  unfold entry_roundtrips in H. simpl in H. repeat (apply andb_prop in H as [H ?]).
  destruct prev; try discriminate; destruct aid; try discriminate;
  destruct cr as [[]|]; try discriminate; destruct fs as [[]|]; try discriminate;
  destruct up as [[]|]; try discriminate; destruct ch;
  cbn [json_roundtrip shard_entry_val se_entry fingerprint repoPath previewRepoPath createdAt
       fileSize contentHash uploadedAt assetId se_updatedAt optstr_val optnum_val nullstr_val];
  reflexivity.
Qed.

Lemma optstr_field s :
  optstr_roundtrips s = true ->
  match toOptionalString (optstr_val s) with Some x => SStr x | None => SNull end = s.
Proof.
  destruct s as [| |x]; simpl; try discriminate; [auto|].
  intros H. destruct (String.eqb x ""); [discriminate | reflexivity].
Qed.

Lemma optnum_field n : optnum_roundtrips n = true -> toNullableNumber (optnum_val n) = n.
Proof. destruct n as [[]|]; simpl; auto; discriminate. Qed.

Lemma hash_field h :
  match h with None => true | Some x => negb (String.eqb x "") end = true ->
  toOptionalString (nullstr_val h) = h.
Proof.
  destruct h as [x|]; simpl; [|auto]. intros H. destruct (String.eqb x ""); [discriminate | auto].
Qed.

Lemma normalize_entry_self t acc E :
  entry_roundtrips (se_entry E) = true ->
  exists u, normalize_entry t acc (fingerprint (se_entry E), json_roundtrip (shard_entry_val E))
            = obj_set (fingerprint (se_entry E)) (mkShardEntry (se_entry E) u) acc.
Proof.
  intros H. pose proof (shard_entry_roundtrip E H) as R.
  destruct E as [[fp repo prev cr fs ch up aid] upd].
  cbn [se_entry fingerprint repoPath previewRepoPath createdAt fileSize contentHash uploadedAt
       assetId se_updatedAt] in R, H |- *.
  unfold entry_roundtrips in H.
  cbn [fingerprint repoPath previewRepoPath createdAt fileSize contentHash uploadedAt assetId] in H.
  repeat (apply andb_prop in H as [H ?]).
  eexists. unfold normalize_entry. rewrite R. cbv beta iota zeta.
  cbn [get_prop obj_lookup String.eqb Ascii.eqb Bool.eqb not_object is_nonempty_string].
  rewrite (optstr_field prev), (optstr_field aid), (optnum_field cr), (optnum_field fs),
    (optnum_field up), (hash_field ch) by assumption.
  cbn [toOptionalString]. apply negb_true_iff in H, H6. rewrite H, H6. cbv beta iota. rewrite ?H.
  reflexivity.
Qed.

Lemma entry_roundtrips_fp e :
  entry_roundtrips e = true -> fingerprint e <> "" /\ fingerprint e <> "__proto__".
Proof.
  unfold entry_roundtrips. intros H. repeat (apply andb_prop in H as [H ?]).
  apply negb_true_iff, String.eqb_neq in H.
  match goal with Hp : negb (fingerprint e =? "__proto__") = true |- _ =>
    apply negb_true_iff, String.eqb_neq in Hp end.
  auto.
Qed.

Lemma rt_obj_cons k v ps :
  v <> VUndef ->
  json_roundtrip (VObj ((k, v) :: ps))
  = match json_roundtrip (VObj ps) with VObj l => VObj ((k, json_roundtrip v) :: l) | x => x end.
Proof. intros H. destruct v; [congruence|..]; reflexivity. Qed.

Lemma rt_entries es :
  json_roundtrip (VObj (map (fun '(k, e) => (k, shard_entry_val e)) es))
  = VObj (map (fun '(k, e) => (k, json_roundtrip (shard_entry_val e))) es).
Proof.
  induction es as [|[k e] es IH]; [reflexivity|].
  cbn [map]. rewrite rt_obj_cons by (unfold shard_entry_val; discriminate).
  rewrite IH. reflexivity.
Qed.

Lemma fold_normalize_keep t fp l acc :
  Forall (fun '(k, e) => fingerprint (se_entry e) = k /\ k <> fp) l ->
  obj_lookup fp (fold_left (normalize_entry t)
                   (map (fun '(k, e) => (k, json_roundtrip (shard_entry_val e))) l) acc)
  = obj_lookup fp acc.
Proof.
  revert acc; induction l as [|[k e] l IH]; intros acc Hl; [reflexivity|].
  inversion Hl as [|? ? Hke Hl']; subst. cbv beta iota in Hke. destruct Hke as [Hk Hne]. subst k.
  cbn [map fold_left].
  rewrite IH by exact Hl'.
  destruct (normalize_entry_other t acc (fingerprint (se_entry e)) e eq_refl) as [-> | [v ->]];
    [reflexivity|].
  rewrite obj_lookup_set. destruct (String.eqb _ "__proto__"); [reflexivity|].
  destruct (String.eqb_spec (fingerprint (se_entry e)) fp); [congruence | reflexivity].
Qed.

Lemma fold_normalize_find t fp E l acc :
  NoDup (map fst l) -> Forall (fun '(k, e) => fingerprint (se_entry e) = k) l ->
  In (fp, E) l -> entry_roundtrips (se_entry E) = true ->
  exists u, obj_lookup fp (fold_left (normalize_entry t)
                             (map (fun '(k, e) => (k, json_roundtrip (shard_entry_val e))) l) acc)
            = Some (mkShardEntry (se_entry E) u).
Proof.
  revert acc; induction l as [|[k e] l IH]; intros acc Hn Hf Hin Hr; [destruct Hin|].
  inversion Hn as [|? ? Hnot Hn']; subst. inversion Hf as [|? ? Hk Hf']; subst.
  cbn [map fold_left]. destruct Hin as [Heq|Hin].
  - inversion Heq; subst.
    destruct (normalize_entry_self t acc E Hr) as [u Hu]. exists u. rewrite Hu.
    rewrite fold_normalize_keep.
    + rewrite obj_lookup_set. destruct (entry_roundtrips_fp _ Hr) as [_ Hp].
      apply String.eqb_neq in Hp. rewrite Hp, String.eqb_refl. reflexivity.
    + apply Forall_forall. intros [k' e'] Hin'. split.
      * exact (proj1 (Forall_forall _ _) Hf' _ Hin').
      * intros ->. apply Hnot. exact (in_map fst _ _ Hin').
  - apply IH; auto.
Qed.

Lemma normalize_roundtrip_doc t key d fp E :
  doc_ok d -> map_get fp (entries d) = Some E -> entry_roundtrips (se_entry E) = true ->
  exists u, map_get fp (entries (normalizeShardDocument t key (json_roundtrip (doc_val d))))
            = Some (mkShardEntry (se_entry E) u).
Proof.
  intros [Hn Hf] HE Hr. unfold doc_val.
  rewrite !rt_obj_cons by discriminate. rewrite rt_entries.
  unfold normalizeShardDocument, get_prop. cbn [obj_lookup String.eqb Ascii.eqb Bool.eqb entries].
  cbn [not_object]. apply fold_normalize_find; auto. apply obj_lookup_In. exact HE.
Qed.

(** ** Runs that succeed *)

Lemma bind_inl {A B} (m : M A) (k : A -> M B) w b w' :
  bind m k w = (inl b, w') -> exists a w1, m w = (inl a, w1) /\ k a w1 = (inl b, w').
Proof. unfold bind. destruct (m w) as [[a|e] w1]; [eauto | discriminate]. Qed.

Ltac binv0 H :=
  apply bind_inl in H;
  let a := fresh "a" in let w := fresh "w" in let E := fresh "E" in
  destruct H as (a & w & E & H); cbv beta in H.

Tactic Notation "binv" hyp(H) "as" ident(a) ident(w) ident(E) :=
  apply bind_inl in H; destruct H as (a & w & E & H); cbv beta in H.

Lemma ret_inl {A} (a b : A) w w' : ret a w = (inl b, w') -> b = a /\ w' = w.
Proof. intros H. inversion H. auto. Qed.

Lemma shard_of_cache key w : shard_of key w <> None -> cache (meta w) <> None.
Proof. unfold shard_of. destruct (cache (meta w)); congruence. Qed.

Lemma put_shard_inl key s w a w' :
  put_shard key s w = (inl a, w') -> cache (meta w) <> None ->
  cache (meta w') <> None /\ remote w' = remote w /\
  forall k, shard_of k w' = if String.eqb key k then Some s else shard_of k w.
Proof.
  unfold put_shard, modify_cache, modify_meta, modify. intros H Hc. inversion H; subst.
  unfold shard_of. simpl. destruct (cache (meta w)) as [c|]; [|congruence]. simpl.
  split; [discriminate|]. split; [reflexivity|]. intros k. apply map_get_set.
Qed.

Lemma modify_meta_inl f w a w' :
  modify_meta f w = (inl a, w') -> (forall m, cache (f m) = cache m) ->
  cache (meta w') = cache (meta w) /\ remote w' = remote w /\ forall k, shard_of k w' = shard_of k w.
Proof.
  unfold modify_meta, modify. intros H Hf. inversion H; subst. unfold shard_of. simpl.
  rewrite Hf. auto.
Qed.

Lemma modify_cache_inl f w a w' :
  modify_cache f w = (inl a, w') -> (forall c, cache_shards (f c) = cache_shards c) ->
  (cache (meta w') <> None <-> cache (meta w) <> None) /\ remote w' = remote w /\
  forall k, shard_of k w' = shard_of k w.
Proof.
  unfold modify_cache, modify_meta, modify. intros H Hf. inversion H; subst. unfold shard_of. simpl.
  destruct (cache (meta w)) as [c|] eqn:Ec; simpl; rewrite ?Ec, ?Hf.
  - split; [split; intros _; discriminate|]. auto.
  - split; [tauto|]. auto.
Qed.

Lemma createOrUpdate_inl p c sha w s w' :
  createOrUpdateFileContents p c sha w = (inl s, w') ->
  meta w' = meta w /\ files (remote w') = map_set p (s, c) (files (remote w)).
Proof.
  unfold createOrUpdateFileContents. destruct (path_blocked _ _); [discriminate|].
  destruct (sha_matches _ _); [|discriminate]. intros H. inversion H; subst. simpl. auto.
Qed.

Lemma fetchShardDocument_world b p w : snd (fetchShardDocument b p w) = w.
Proof.
  unfold fetchShardDocument, catch404, bind, getContent.
  destruct (map_get p _) as [[? ?]|]; [reflexivity|]. destruct (dir_items p _); reflexivity.
Qed.

Lemma ensureBaseState_inl w st w' :
  ensureBaseState w = (inl st, w') -> cache (meta w') = Some st.
Proof.
  unfold ensureBaseState. intros H. binv0 H. unfold get_cache in E. injection E as <- <-.
  destruct (cache (meta w)) as [c|] eqn:Ec.
  - apply ret_inl in H as [-> ->]. exact Ec.
  - binv0 H. binv0 H. binv0 H. binv0 H. destruct a2 as [[manifest sha] shards].
    binv0 H. apply ret_inl in H as [-> ->]. inversion E3; subst. reflexivity.
Qed.

Lemma shard_at_inl key w o w' : shard_at key w = (inl o, w') -> o = shard_of key w /\ w' = w.
Proof. intros H. inversion H. auto. Qed.

Lemma now_inl w t w' : now w = (inl t, w') -> w' = w.
Proof. intros H. inversion H. auto. Qed.

Lemma shard_of_meta key w w' : meta w' = meta w -> shard_of key w' = shard_of key w.
Proof. unfold shard_of. intros ->. reflexivity. Qed.

Lemma markManifestEntry_inl b s w a w' :
  markManifestEntry b s w = (inl a, w') ->
  (cache (meta w') <> None <-> cache (meta w) <> None) /\ remote w' = remote w /\
  forall k, shard_of k w' = shard_of k w.
Proof. unfold markManifestEntry. intros H. eapply modify_cache_inl; [exact H | reflexivity]. Qed.

Lemma touch_and_write_manifest_inl w a w' :
  touch_and_write_manifest w = (inl a, w') ->
  (forall k, shard_of k w' = shard_of k w) /\
  forall p, p <> META_MANIFEST_PATH -> map_get p (files (remote w')) = map_get p (files (remote w)).
Proof.
  unfold touch_and_write_manifest. intros H. binv H as t w1 E1. apply now_inl in E1 as ->.
  binv H as u w2 E2. apply modify_cache_inl in E2 as [_ [Er Es]]; [|reflexivity].
  binv H as c w3 E3. unfold get_cache in E3. injection E3 as <- <-.
  destruct (cache (meta w2)) as [st|].
  - binv H as sha w4 E4. unfold writeManifest in E4. binv E4 as s w5 E5.
    apply createOrUpdate_inl in E5 as [Em Ef]. apply ret_inl in E4 as [-> ->].
    apply modify_cache_inl in H as [_ [Er' Es']]; [|reflexivity].
    split.
    + intros k. rewrite Es', (shard_of_meta k _ _ Em), Es. reflexivity.
    + intros p Hp. rewrite Er', Ef, map_get_set, Er.
      destruct (String.eqb_spec META_MANIFEST_PATH p); [congruence | reflexivity].
  - apply ret_inl in H as [_ ->]. split; [exact Es | intros p _; rewrite Er; reflexivity].
Qed.

Lemma ensureShardLoaded_inl b w key w' :
  ensureShardLoaded b w = (inl key, w') -> key = sanitizeBucket b /\ shard_of key w' <> None.
Proof.
  unfold ensureShardLoaded. intros H. binv H as st w0 E0. apply ensureBaseState_inl in E0.
  assert (Hc : cache (meta w0) <> None) by congruence. clear E0.
  binv H as s0 w1 E1. apply shard_at_inl in E1 as [-> ->].
  binv H as shard w2 E2.
  assert (Hs : shard_of (sanitizeBucket b) w2 = Some shard /\ cache (meta w2) <> None).
  { destruct (shard_of (sanitizeBucket b) w0) as [s|] eqn:Es.
    - apply ret_inl in E2 as [-> ->]. auto.
    - binv E2 as u w3 E3. apply put_shard_inl in E3 as [Hc' [_ Hk]]; [|exact Hc].
      apply ret_inl in E2 as [-> ->]. rewrite Hk, String.eqb_refl. auto. }
  clear E2. destruct Hs as [Hs Hc2].
  assert (Htail : forall r, (let* (doc, sha) := fetchShardDocument (sanitizeBucket b) (shard_path shard) in
      let shard' := mkShard (shard_bucket shard) (shard_path shard) sha (count_of (entries doc))
                      (generatedAt doc) (Some doc) true in
      let* _ := put_shard (sanitizeBucket b) shard' in
      let* _ := modify_meta (if (0 <? length (entries doc))%nat then ingestShardDocument doc
                             else evictBucketEntries (sanitizeBucket b)) in
      let* _ := markManifestEntry (sanitizeBucket b) (Some shard') in
      ret (sanitizeBucket b)) w2 = (inl key, r) ->
      key = sanitizeBucket b /\ shard_of key r <> None).
  { intros r Hr. binv Hr as ds w3 E3.
    pose proof (fetchShardDocument_world (sanitizeBucket b) (shard_path shard) w2) as Ew.
    rewrite E3 in Ew. simpl in Ew. subst w3. destruct ds as [doc sha]. cbv beta iota in Hr.
    binv Hr as u4 w4 E4. apply put_shard_inl in E4 as [Hc4 [_ Hk4]]; [|exact Hc2].
    binv Hr as u5 w5 E5. apply modify_meta_inl in E5 as [_ [_ Hk5]];
      [|intros m; destruct (_ <? _)%nat; [apply ingestShardDocument_cache | apply evictBucketEntries_cache]].
    binv Hr as u6 w6 E6. apply markManifestEntry_inl in E6 as [_ [_ Hk6]].
    apply ret_inl in Hr as [-> ->]. split; [reflexivity|].
    rewrite Hk6, Hk5, Hk4, String.eqb_refl. discriminate. }
  destruct (shard_loaded shard), (shard_doc shard); try exact (Htail _ H).
  apply ret_inl in H as [-> ->]. split; [reflexivity | congruence].
Qed.

Lemma persistShard_inl key w a w' S d0 :
  persistShard key w = (inl a, w') -> shard_of key w = Some S -> shard_doc S = Some d0 ->
  exists S' d sha, shard_of key w' = Some S' /\ shard_path S' = shard_path S /\
    shard_doc S' = Some d /\ map_get (shard_path S) (files (remote w')) = Some (sha, encode (doc_val d)) /\
    entries d = entries d0.
Proof.
  unfold persistShard. intros H Hs Hd. assert (Hc : cache (meta w) <> None) by (apply (shard_of_cache key); congruence).
  binv H as o w1 E1. apply shard_at_inl in E1 as [-> ->]. rewrite Hs in H. cbv iota beta in H.
  binv H as t w2 E2. apply now_inl in E2 as ->. cbv zeta in H. rewrite Hd in H.
  binv H as u w3 E3. apply put_shard_inl in E3 as [Hc3 [Er3 Hk3]]; [|exact Hc].
  binv H as sha w4 E4. apply createOrUpdate_inl in E4 as [Em4 Ef4].
  apply put_shard_inl in H as [_ [Er5 Hk5]]; [|rewrite Em4; exact Hc3].
  do 3 eexists. split; [rewrite Hk5, String.eqb_refl; reflexivity|].
  split; [reflexivity|]. split; [reflexivity|].
  split; [rewrite Er5, Ef4, map_get_set, String.eqb_refl; reflexivity | reflexivity].
Qed.

(** After a successful [upsertMetaEntry], the shard of the entry's bucket
    is in the cache, and unless its path is the manifest's, its file holds
    a well-formed document with the entry under its fingerprint. *)
Lemma upsert_stores w entry a w' :
  Inv w -> upsertMetaEntry entry w = (inl a, w') ->
  entry_roundtrips entry = true ->
  exists s, shard_of (sanitizeBucket (resolveBucket entry)) w' = Some s /\
    (shard_path s <> META_MANIFEST_PATH ->
     exists sha d u, map_get (shard_path s) (files (remote w')) = Some (sha, encode (doc_val d)) /\
       doc_ok d /\ map_get (fingerprint entry) (entries d) = Some (mkShardEntry entry u)).
Proof.
  intros Hinv H Hr. unfold upsertMetaEntry in H.
  pose proof (spec_ensureBaseState w Hinv) as [Hi0 _].
  binv H as st w0 E0. rewrite E0 in Hi0. simpl in Hi0. clear E0.
  pose proof (spec_ensureShardLoaded (resolveBucket entry) w0 Hi0) as [Hi1 _].
  binv H as key w1 E1. rewrite E1 in Hi1. simpl in Hi1.
  apply ensureShardLoaded_inl in E1 as [-> Hne].
  set (key := sanitizeBucket (resolveBucket entry)) in *.
  binv H as o w2 E2. apply shard_at_inl in E2 as [-> ->].
  destruct (shard_of key w1) as [shard|] eqn:Es; [|congruence]. cbv iota beta in H.
  assert (Hok : shard_ok shard).
  { unfold shard_of in Es. destruct (cache (meta w1)) as [c|] eqn:Ec; [|discriminate].
    exact (shards_ok_get _ _ _ (Hi1 c Ec) Es). }
  binv H as t w3 E3. apply now_inl in E3 as ->. cbv zeta in H.
  set (doc := match shard_doc shard with Some d => d | None => makeEmptyShard t (resolveBucket entry) end) in *.
  assert (Hdoc : doc_ok doc).
  { subst doc. destruct (shard_doc shard) as [d|] eqn:Ed; [exact (Hok d Ed) | apply doc_ok_empty]. }
  set (es := obj_set (fingerprint entry) (mkShardEntry entry t) (entries doc)) in *.
  binv H as u4 w4 E4. apply put_shard_inl in E4 as [Hc4 [Er4 Hk4]];
    [|apply (shard_of_cache key); congruence].
  binv H as u5 w5 E5.
  edestruct (persistShard_inl key w4 u5 w5) as (S' & d & sha & Hs5 & Hp5 & _ & Hf5 & He5);
    [exact E5 | rewrite Hk4, String.eqb_refl; reflexivity | reflexivity |].
  binv H as s6 w6 E6. apply shard_at_inl in E6 as [-> ->].
  binv H as u7 w7 E7.
  assert (Hfr : (forall k, shard_of k w7 = shard_of k w5) /\ remote w7 = remote w5).
  { destruct (shard_of key w5) as [shard2|].
    - binv E7 as u8 w8 E8. apply modify_meta_inl in E8 as [_ [Er8 Hk8]];
        [|intros m; destruct (shard_doc shard2); [apply ingestShardDocument_cache | reflexivity]].
      apply markManifestEntry_inl in E7 as [_ [Er9 Hk9]].
      split; [intros k; rewrite Hk9, Hk8; reflexivity | congruence].
    - apply ret_inl in E7 as [_ ->]. auto. }
  destruct Hfr as [Hk7 Er7].
  apply touch_and_write_manifest_inl in H as [Hk Hf].
  exists S'. split; [rewrite Hk, Hk7; exact Hs5|].
  intros Hp. rewrite Hp5 in Hp |- *. exists sha, d, t.
  split; [rewrite Hf, Er7; [exact Hf5 | exact Hp]|].
  assert (Hfp := entry_roundtrips_fp entry Hr).
  destruct Hdoc as [Hn Hfa]. split.
  - unfold doc_ok. rewrite He5. simpl. split.
    + apply obj_set_NoDup. exact Hn.
    + apply obj_set_Forall; [exact Hfa | reflexivity].
  - rewrite He5. unfold es, map_get. cbn [entries]. rewrite obj_lookup_set.
    destruct Hfp as [_ Hp']. apply String.eqb_neq in Hp'. rewrite Hp', String.eqb_refl. reflexivity.
Qed.

Lemma fetchShardDocument_file b path sha v w :
  map_get path (files (remote w)) = Some (sha, encode v) ->
  fst (fetchShardDocument b path w)
  = inl (normalizeShardDocument (num_of_Z (clock w)) b (json_roundtrip v), Some sha).
Proof.
  intros Hf. unfold fetchShardDocument, catch404, bind, getContent, now. rewrite Hf. reflexivity.
Qed.

(** Claim C4 (amended). For an entry whose fields survive JSON
    serialisation and [normalizeShardDocument] ([entry_roundtrips]: a
    fingerprint and repoPath that are non-empty, a fingerprint other than
    ["__proto__"], optional strings null or non-empty, numbers finite),
    a successful [upsertMetaEntry] leaves a cached shard for the entry's
    bucket; when that shard's file is not the manifest file, fetching it
    afresh yields an entry under the fingerprint equal to [entry] in every
    field, only [updatedAt] being the time of the write. *)
Theorem upsertMetaEntry_round_trip w entry a w' :
  reachable w -> entry_roundtrips entry = true -> upsertMetaEntry entry w = (inl a, w') ->
  exists s, shard_of (sanitizeBucket (resolveBucket entry)) w' = Some s /\
    (shard_path s <> META_MANIFEST_PATH ->
     forall b, exists d sha u,
       fst (fetchShardDocument b (shard_path s) w') = inl (d, Some sha) /\
       map_get (fingerprint entry) (entries d) = Some (mkShardEntry entry u)).
Proof.
  intros Hr He H.
  destruct (upsert_stores w entry a w' (reachable_Inv w Hr) H He) as (s & Hs & Hp).
  exists s. split; [exact Hs|]. intros Hne b.
  destruct (Hp Hne) as (sha & d & u0 & Hf & Hok & Hget).
  destruct (normalize_roundtrip_doc (num_of_Z (clock w')) b d (fingerprint entry)
              (mkShardEntry entry u0) Hok Hget He) as [u Hu].
  eexists _, sha, u. split; [apply fetchShardDocument_file; exact Hf | exact Hu].
Qed.

Lemma upsertMetaEntry_round_trip_witness :
  reachable (fresh_world (day_C + 1000)) /\ entry_roundtrips c4_photo = true /\
  upsertMetaEntry c4_photo (fresh_world (day_C + 1000))
    = (inl tt, snd (upsertMetaEntry c4_photo (fresh_world (day_C + 1000)))) /\
  exists s, shard_of (sanitizeBucket (resolveBucket c4_photo))
              (snd (upsertMetaEntry c4_photo (fresh_world (day_C + 1000)))) = Some s /\
    (shard_path s <> META_MANIFEST_PATH ->
     forall b, exists d sha u,
       fst (fetchShardDocument b (shard_path s)
              (snd (upsertMetaEntry c4_photo (fresh_world (day_C + 1000))))) = inl (d, Some sha) /\
       map_get (fingerprint c4_photo) (entries d) = Some (mkShardEntry c4_photo u)).
Proof.
  assert (Hr : reachable (fresh_world (day_C + 1000))) by (apply reach_start; reflexivity).
  assert (He : entry_roundtrips c4_photo = true) by (vm_compute; reflexivity).
  assert (H : upsertMetaEntry c4_photo (fresh_world (day_C + 1000))
    = (inl tt, snd (upsertMetaEntry c4_photo (fresh_world (day_C + 1000))))) by (vm_compute; reflexivity).
  split; [exact Hr|]. split; [exact He|]. split; [exact H|].
  exact (upsertMetaEntry_round_trip _ _ _ _ Hr He H).
Defined.

(** ** Sanitised bucket names *)

Lemma sanitize_char_idem c : sanitize_char (sanitize_char c) = sanitize_char c.
Proof. destruct c as [[] [] [] [] [] [] [] []]; reflexivity. Qed.

Lemma sanitize_char_not_space c : is_js_space (sanitize_char c) = false.
Proof. destruct c as [[] [] [] [] [] [] [] []]; reflexivity. Qed.

Lemma map_string_In f s c : In c (list_ascii_of_string (map_string f s)) -> exists c0, c = f c0.
Proof.
  induction s as [|c' s IH]; simpl; [intros []|].
  intros [<-|H]; [eauto | exact (IH H)].
Qed.

Lemma trim_start_id s : (forall c, In c (list_ascii_of_string s) -> is_js_space c = false) -> trim_start s = s.
Proof.
  destruct s as [|c s]; [reflexivity|]. intros H. cbn [trim_start].
  rewrite (H c) by (left; reflexivity). reflexivity.
Qed.

Lemma trim_sanitized s : trim (map_string sanitize_char s) = map_string sanitize_char s.
Proof.
  assert (Hx : forall c, In c (list_ascii_of_string (map_string sanitize_char s)) -> is_js_space c = false).
  { intros c Hc. apply map_string_In in Hc as [c0 ->]. apply sanitize_char_not_space. }
  unfold trim. rewrite (trim_start_id _ Hx). unfold trim_end.
  rewrite trim_start_id.
  - rewrite list_ascii_of_string_of_list_ascii, rev_involutive, string_of_list_ascii_of_string.
    reflexivity.
  - intros c Hc. rewrite list_ascii_of_string_of_list_ascii, <- in_rev in Hc. exact (Hx c Hc).
Qed.

Lemma map_string_idem s : map_string sanitize_char (map_string sanitize_char s) = map_string sanitize_char s.
Proof. induction s as [|c s IH]; simpl; [reflexivity|]. rewrite sanitize_char_idem, IH. reflexivity. Qed.

Lemma sanitizeBucket_idem b : sanitizeBucket (sanitizeBucket b) = sanitizeBucket b.
Proof.
  unfold sanitizeBucket at 2 3. cbv zeta.
  destruct (String.eqb (map_string sanitize_char (trim b)) "") eqn:E; [reflexivity|].
  unfold sanitizeBucket. cbv zeta. rewrite trim_sanitized, map_string_idem, E. reflexivity.
Qed.

(** ** Removing one fingerprint from one bucket *)

Lemma get_meta_inl w m w' : get_meta w = (inl m, w') -> m = meta w /\ w' = w.
Proof. intros H. inversion H. auto. Qed.

Lemma modify_meta_inl' f w a w' :
  modify_meta f w = (inl a, w') -> meta w' = f (meta w) /\ remote w' = remote w /\ app w' = app w.
Proof. intros H. inversion H. auto. Qed.

Lemma deleteShardFile_meta s w a w' : deleteShardFile s w = (inl a, w') -> meta w' = meta w.
Proof.
  unfold deleteShardFile, deleteFile_api. intros H.
  destruct (shard_sha s) as [sha|]; [|inversion H; auto].
  destruct (String.eqb sha ""); [inversion H; auto|].
  destruct (map_get _ _) as [[s' ?]|]; [|discriminate].
  destruct (String.eqb s' sha); inversion H; auto.
Qed.

Lemma shard_ok_doc s d : doc_ok d -> shard_ok (set_doc (Some d) s).
Proof. intros Hd d' E. inversion E; subst. exact Hd. Qed.

Lemma delete_shard_gone key w a w' :
  Inv w -> modify_cache (with_shards (map_delete key)) w = (inl a, w') -> shard_of key w' = None.
Proof.
  unfold modify_cache, modify_meta, modify, shard_of. intros Hi H. inversion H; subst. simpl.
  destruct (cache (meta w)) as [c|] eqn:Ec; simpl; [|rewrite Ec; reflexivity].
  destruct (Hi c Ec) as [Hn _]. apply obj_lookup_delete_same. exact Hn.
Qed.

Lemma fold_remove_single fp doc m :
  doc_ok doc ->
  map_get fp (fst (fst (fold_left remove_step [fp] (entries doc, m, false)))) = None.
Proof.
  intros [Hn _]. cbn [fold_left]. unfold remove_step, obj_get_truthy, map_get.
  destruct (obj_lookup fp (entries doc)) eqn:E; cbn [fst].
  - apply obj_lookup_delete_same. exact Hn.
  - destruct (existsb (String.eqb fp) object_prototype_keys); cbn [fst];
      [apply obj_lookup_delete_same; exact Hn | exact E].
Qed.

(** After [remove_bucket] for a bucket key and one fingerprint, the
    shard cached under that key, if any, no longer holds the fingerprint. *)
Lemma remove_bucket_single w k fp dirty r w' :
  Inv w -> sanitizeBucket k = k -> remove_bucket dirty (k, [fp]) w = (inl r, w') ->
  forall S d, shard_of k w' = Some S -> shard_doc S = Some d -> map_get fp (entries d) = None.
Proof.
  intros Hi Hk H. unfold remove_bucket in H.
  pose proof (spec_ensureShardLoaded k w Hi) as [Hi1 _].
  binv H as key w1 E1. rewrite E1 in Hi1. simpl in Hi1.
  apply ensureShardLoaded_inl in E1 as [Ekey Hne]. rewrite Hk in Ekey. subst key.
  binv H as o w2 E2. apply shard_at_inl in E2 as [-> ->].
  destruct (shard_of k w1) as [shard|] eqn:Es; [|congruence]. cbv iota beta in H.
  assert (Hok : shard_ok shard).
  { unfold shard_of in Es. destruct (cache (meta w1)) as [c|] eqn:Ec; [|discriminate].
    exact (shards_ok_get _ _ _ (Hi1 c Ec) Es). }
  destruct (shard_doc shard) as [doc|] eqn:Ed.
  2:{ apply ret_inl in H as [_ ->]. intros S d HS Hd. congruence. }
  assert (Hdoc : doc_ok doc) by exact (Hok doc Ed).
  binv H as m w3 E3. apply get_meta_inl in E3 as [-> ->].
  pose proof (fold_remove_single fp doc (meta w1) Hdoc) as Hgone.
  pose proof (fold_remove_step_cache [fp] (entries doc) (meta w1) false) as Hcache.
  destruct Hdoc as [Hn Hf].
  pose proof (fold_remove_step_doc [fp] (entries doc) (meta w1) false Hn Hf) as Hes.
  destruct (fold_left remove_step [fp] (entries doc, meta w1, false)) as [[es m'] changed].
  cbv zeta in Hes. simpl in Hgone, Hcache, Hes. cbv iota beta in H.
  assert (Hesok : forall v b t, doc_ok (mkDoc v b t es)) by (intros; exact Hes).
  binv H as u4 w4 E4. apply modify_meta_inl' in E4 as [Em4 _].
  assert (Hc4 : cache (meta w4) = cache (meta w1)) by (rewrite Em4; exact Hcache).
  assert (Hi4 : Inv w4) by exact (Inv_same_cache _ _ Hc4 Hi1).
  assert (Hk4 : shard_of k w4 = Some shard) by (unfold shard_of in *; rewrite Hc4; exact Es).
  binv H as u5 w5 E5.
  pose proof (spec_put_shard k _ (shard_ok_doc shard _ (Hesok (doc_version doc) (doc_bucket doc) (generatedAt doc))) w4 Hi4) as [Hi5 _].
  rewrite E5 in Hi5. simpl in Hi5.
  apply put_shard_inl in E5 as [Hc5 [_ Hk5]]; [|apply (shard_of_cache k); congruence].
  destruct changed; simpl in H.
  2:{ apply ret_inl in H as [_ ->]. intros S d HS HdS. rewrite Hk5, String.eqb_refl in HS.
      inversion HS; subst S. simpl in HdS. inversion HdS; subst d. exact Hgone. }
  binv H as t w6 E6. apply now_inl in E6 as ->.
  binv H as u7 w7 E7.
  assert (Hs7ok : shard_ok (mkShard (shard_bucket shard) (shard_path shard) (shard_sha shard)
                     (count_of es) t (Some (mkDoc (doc_version doc) (doc_bucket doc) t es))
                     (shard_loaded shard))).
  { intros d' E'. inversion E'; subst. apply Hesok. }
  pose proof (spec_put_shard k _ Hs7ok w5 Hi5) as [Hi7 _]. rewrite E7 in Hi7. simpl in Hi7.
  apply put_shard_inl in E7 as [Hc7 [_ Hk7]]; [|exact Hc5].
  destruct ((length es =? 0)%nat).
  - binv H as u8 w8 E8. apply deleteShardFile_meta in E8.
    assert (Hi8 : Inv w8) by (apply (Inv_same_cache w7); [rewrite E8|]; auto).
    binv H as u9 w9 E9. apply (delete_shard_gone k w8 u9 w9 Hi8) in E9.
    binv H as u10 w10 E10.
    apply modify_meta_inl in E10 as [_ [_ Hk10]]; [|apply evictBucketEntries_cache].
    binv H as u11 w11 E11. apply markManifestEntry_inl in E11 as [_ [_ Hk11]].
    apply ret_inl in H as [_ ->]. intros S d HS. rewrite Hk11, Hk10, E9 in HS. discriminate.
  - binv H as u8 w8 E8.
    edestruct (persistShard_inl k w7 u8 w8) as (S' & d' & sha & Hs8 & _ & Hd8 & _ & He8);
      [exact E8 | rewrite Hk7, String.eqb_refl; reflexivity | reflexivity |].
    binv H as s3 w9 E9. apply shard_at_inl in E9 as [-> ->].
    binv H as u10 w10 E10.
    assert (Hk10 : forall k', shard_of k' w10 = shard_of k' w8).
    { destruct (shard_of k w8) as [shard3|].
      - binv E10 as u11 w11 E11. apply modify_meta_inl in E11 as [_ [_ Hk11]];
          [|intros m0; destruct (shard_doc shard3); [apply ingestShardDocument_cache | reflexivity]].
        apply markManifestEntry_inl in E10 as [_ [_ Hk12]].
        intros k'. rewrite Hk12, Hk11. reflexivity.
      - apply ret_inl in E10 as [_ ->]. auto. }
    apply ret_inl in H as [_ ->]. intros S d HS HdS. rewrite Hk10, Hs8 in HS.
    inversion HS; subst S. rewrite Hd8 in HdS. inversion HdS; subst d. rewrite He8. exact Hgone.
Qed.

Lemma group_single m fp :
  fold_left (group_step m) [fp] []
  = [(sanitizeBucket (match map_get fp (fingerprintToBucket m) with
                      | Some b => b
                      | None => bucketFromFingerprint fp
                      end), [fp])].
Proof. reflexivity. Qed.

Lemma ensureBaseState_cached w c : cache (meta w) = Some c -> ensureBaseState w = (inl c, w).
Proof. unfold ensureBaseState, bind, get_cache. intros ->. reflexivity. Qed.

(** [removeMetaEntries([fp])] on a loaded cache: the shard under the key
    of the bucket that [fingerprintToBucket] names for [fp] (or that its
    fingerprint encodes) no longer holds [fp]. *)
Lemma removeMetaEntries_single w fp a w' :
  Inv w -> cache (meta w) <> None -> removeMetaEntries [fp] w = (inl a, w') ->
  forall S d,
    shard_of (sanitizeBucket (match map_get fp (fingerprintToBucket (meta w)) with
                              | Some b => b
                              | None => bucketFromFingerprint fp
                              end)) w' = Some S ->
    shard_doc S = Some d -> map_get fp (entries d) = None.
Proof.
  intros Hi Hc H. unfold removeMetaEntries in H.
  destruct (cache (meta w)) as [c|] eqn:Ec; [|congruence].
  binv H as st w0 E0. rewrite (ensureBaseState_cached w c Ec) in E0. inversion E0; subst w0 st.
  binv H as m w1 E1. apply get_meta_inl in E1 as [-> ->].
  cbv zeta in H. rewrite group_single in H.
  set (k := sanitizeBucket _) in *.
  binv H as md w2 E2. cbn [foldM] in E2.
  binv E2 as r w3 E3. apply ret_inl in E2 as [-> ->].
  pose proof (remove_bucket_single w k fp false r w3 Hi (sanitizeBucket_idem _) E3) as Hgone.
  destruct r.
  - apply touch_and_write_manifest_inl in H as [Hk _]. intros S d HS. rewrite Hk in HS. exact (Hgone S d HS).
  - apply ret_inl in H as [_ ->]. exact Hgone.
Qed.

(** ** Operations of the meta index leave the app state alone *)


Lemma catch404_world {A} (m h : M A) w :
  snd (catch404 m h w) = snd (m w) \/ snd (catch404 m h w) = snd (h (snd (m w))).
Proof.
  unfold catch404. destruct (m w) as [[a|[st]] w1]; [left; reflexivity|].
  destruct (Z.eq_dec st 404) as [->|Hne]; [right; reflexivity|].
  destruct st as [|p|p]; try (left; reflexivity).
  repeat (destruct p as [p|p|]; try (left; reflexivity)). exfalso; apply Hne; reflexivity.
Qed.

Lemma keeps_ret {A} (a : A) : keeps_app (ret a).
Proof. intros w. reflexivity. Qed.

Lemma keeps_bind {A B} (m : M A) (k : A -> M B) :
  keeps_app m -> (forall a, keeps_app (k a)) -> keeps_app (bind m k).
Proof.
  intros Hm Hk w. unfold bind. specialize (Hm w).
  destruct (m w) as [[a|e] w1]; simpl in *; [rewrite Hk|]; exact Hm.
Qed.

Lemma keeps_catch404 {A} (m h : M A) : keeps_app m -> keeps_app h -> keeps_app (catch404 m h).
Proof.
  intros Hm Hh w. destruct (catch404_world m h w) as [-> | ->]; [|rewrite Hh]; apply Hm.
Qed.

Lemma keeps_foldM {A B} (f : A -> B -> M A) l a :
  (forall a x, keeps_app (f a x)) -> keeps_app (foldM f l a).
Proof.
  intros Hf. revert a. induction l as [|x l IH]; intros a; simpl; [apply keeps_ret|].
  apply keeps_bind; auto.
Qed.

Lemma keeps_get_meta : keeps_app get_meta.
Proof. intros w. reflexivity. Qed.

Lemma keeps_get_cache : keeps_app get_cache.
Proof. intros w. reflexivity. Qed.

Lemma keeps_now : keeps_app now.
Proof. intros w. reflexivity. Qed.

Lemma keeps_shard_at k : keeps_app (shard_at k).
Proof. intros w. reflexivity. Qed.

Lemma keeps_modify_meta f : keeps_app (modify_meta f).
Proof. intros w. reflexivity. Qed.

Lemma keeps_modify_cache f : keeps_app (modify_cache f).
Proof. intros w. reflexivity. Qed.

Lemma keeps_put_shard k s : keeps_app (put_shard k s).
Proof. intros w. reflexivity. Qed.

Lemma keeps_markManifestEntry b s : keeps_app (markManifestEntry b s).
Proof. intros w. reflexivity. Qed.

Lemma keeps_getContent p : keeps_app (getContent p).
Proof.
  intros w. unfold getContent. destruct (map_get p _) as [[? ?]|]; [reflexivity|].
  destruct (dir_items p _); reflexivity.
Qed.

Lemma keeps_createOrUpdate p c s : keeps_app (createOrUpdateFileContents p c s).
Proof.
  intros w. unfold createOrUpdateFileContents.
  destruct (path_blocked _ _); [reflexivity|]. destruct (sha_matches _ _); reflexivity.
Qed.

Lemma keeps_deleteFile_api p s : keeps_app (deleteFile_api p s).
Proof.
  intros w. unfold deleteFile_api. destruct (map_get p _) as [[s' ?]|]; [|reflexivity].
  destruct (String.eqb s' s); reflexivity.
Qed.

Lemma keeps_listShardFiles : keeps_app listShardFiles.
Proof. intros w. rewrite listShardFiles_world. reflexivity. Qed.

Create HintDb keeps.
#[local] Hint Resolve keeps_ret keeps_get_meta keeps_get_cache keeps_now keeps_shard_at
  keeps_modify_meta keeps_modify_cache keeps_put_shard keeps_markManifestEntry keeps_getContent
  keeps_createOrUpdate keeps_deleteFile_api keeps_listShardFiles keeps_foldM : keeps.

Ltac keeps_tac :=
  repeat first
    [ solve [eauto with keeps]
    | apply keeps_bind; [|intros ?]
    | apply keeps_catch404
    | match goal with
      | |- keeps_app (let _ := _ in _) => cbv zeta
      | |- keeps_app (match ?x with _ => _ end) => destruct x
      end ].

Lemma keeps_fetchShardDocument b p : keeps_app (fetchShardDocument b p).
Proof. unfold fetchShardDocument. keeps_tac. Qed.

Lemma keeps_persistShard k : keeps_app (persistShard k).
Proof. unfold persistShard. keeps_tac. Qed.

Lemma keeps_deleteShardFile s : keeps_app (deleteShardFile s).
Proof. unfold deleteShardFile. keeps_tac. Qed.

Lemma keeps_fetchManifest : keeps_app fetchManifest.
Proof. unfold fetchManifest. keeps_tac. Qed.

Lemma keeps_writeManifest m s : keeps_app (writeManifest m s).
Proof. unfold writeManifest. keeps_tac. Qed.

#[local] Hint Resolve keeps_fetchShardDocument keeps_persistShard keeps_deleteShardFile
  keeps_fetchManifest keeps_writeManifest : keeps.

Lemma keeps_build_step acc f : keeps_app (build_step acc f).
Proof. unfold build_step. keeps_tac. Qed.

#[local] Hint Resolve keeps_build_step : keeps.

Lemma keeps_buildManifestFromExistingShards : keeps_app buildManifestFromExistingShards.
Proof. unfold buildManifestFromExistingShards. keeps_tac. Qed.

#[local] Hint Resolve keeps_buildManifestFromExistingShards : keeps.

Lemma keeps_ensureBaseState : keeps_app ensureBaseState.
Proof. unfold ensureBaseState. keeps_tac. Qed.

#[local] Hint Resolve keeps_ensureBaseState : keeps.

Lemma keeps_ensureShardLoaded b : keeps_app (ensureShardLoaded b).
Proof. unfold ensureShardLoaded. keeps_tac. Qed.

#[local] Hint Resolve keeps_ensureShardLoaded : keeps.

Lemma keeps_preload_loop t bs : keeps_app (preload_loop t bs).
Proof. induction bs as [|b bs IH]; simpl; keeps_tac. Qed.

#[local] Hint Resolve keeps_preload_loop : keeps.

Lemma keeps_loadMetaIndex : keeps_app loadMetaIndex.
Proof. unfold loadMetaIndex, preloadRecentShards. keeps_tac. Qed.

Lemma keeps_touch_and_write_manifest : keeps_app touch_and_write_manifest.
Proof. unfold touch_and_write_manifest. keeps_tac. Qed.

#[local] Hint Resolve keeps_touch_and_write_manifest : keeps.

Lemma keeps_remove_bucket d g : keeps_app (remove_bucket d g).
Proof. unfold remove_bucket. keeps_tac. Qed.

#[local] Hint Resolve keeps_remove_bucket : keeps.

Lemma keeps_removeMetaEntries fps : keeps_app (removeMetaEntries fps).
Proof. unfold removeMetaEntries. keeps_tac. Qed.

Lemma keeps_fetchFileSha p : keeps_app (fetchFileSha p).
Proof. unfold fetchFileSha. keeps_tac. Qed.

#[local] Hint Resolve keeps_fetchFileSha : keeps.

Lemma keeps_deleteFile p : keeps_app (deleteFile p).
Proof. unfold deleteFile. keeps_tac. Qed.

(** ** Deleting a repository file *)

Lemma modify_app_inl f w a w' :
  modify_app f w = (inl a, w') -> app w' = f (app w) /\ meta w' = meta w.
Proof. intros H. inversion H. auto. Qed.

Lemma get_app_inl w x w' : get_app w = (inl x, w') -> x = app w /\ w' = w.
Proof. intros H. inversion H. auto. Qed.

Lemma fetchFileSha_world p w : snd (fetchFileSha p w) = w.
Proof.
  unfold fetchFileSha, catch404, bind, getContent.
  destruct (map_get p _) as [[s c]|]; [reflexivity|]. destruct (dir_items p _); reflexivity.
Qed.

Lemma deleteFile_noop p w : fst (fetchFileSha p w) = inl None -> deleteFile p w = (inl tt, w).
Proof.
  intros H. pose proof (fetchFileSha_world p w) as Hw. unfold deleteFile, bind.
  destruct (fetchFileSha p w) as [r w1]. simpl in H, Hw. subst r w1. reflexivity.
Qed.

Lemma deleteFile_removes p w sha :
  fst (fetchFileSha p w) = inl (Some sha) -> sha <> "" -> fst (deleteFile p w) = inl tt ->
  files (remote (snd (deleteFile p w))) = map_delete p (files (remote w)).
Proof.
  intros H Hne. pose proof (fetchFileSha_world p w) as Hw. unfold deleteFile, bind.
  destruct (fetchFileSha p w) as [r w1]. simpl in H, Hw. subst r w1.
  apply String.eqb_neq in Hne. rewrite Hne. unfold deleteFile_api.
  destruct (map_get p _) as [[s c]|]; [|discriminate].
  destruct (String.eqb s sha); [reflexivity | discriminate].
Qed.

Lemma deleteFile_inl p w a w' : deleteFile p w = (inl a, w') -> meta w' = meta w /\ app w' = app w.
Proof.
  intros H. unfold deleteFile in H. pose proof (fetchFileSha_world p w) as Hw.
  binv H as sha w1 E1. rewrite E1 in Hw. simpl in Hw. subst w1.
  destruct sha as [s|]; [|inversion H; auto].
  destruct (String.eqb s ""); [inversion H; auto|].
  unfold deleteFile_api in H. destruct (map_get p _) as [[s' c]|]; [|discriminate].
  destruct (String.eqb s' s); inversion H; auto.
Qed.

Lemma existsb_set_add x s : existsb (String.eqb x) (set_add x s) = true.
Proof.
  unfold set_add. destruct (existsb (String.eqb x) s) eqn:E; [exact E|].
  rewrite existsb_app. simpl. rewrite String.eqb_refl, orb_true_r. reflexivity.
Qed.

Lemma blockAutoSyncFingerprint_inl fp w a w' :
  blockAutoSyncFingerprint fp w = (inl a, w') ->
  meta w' = meta w /\ store_assets (app w') = store_assets (app w) /\
  cacheInvalidations (app w') = cacheInvalidations (app w) /\
  (fp <> "" -> existsb (String.eqb fp) (autoSyncBlocklist (app w')) = true).
Proof.
  unfold blockAutoSyncFingerprint. intros H.
  destruct (String.eqb_spec fp "") as [->|Hne].
  { apply ret_inl in H as [_ ->]. repeat split; auto; intros C; congruence. }
  binv H as u1 w1 E1. apply modify_app_inl in E1 as [Ea1 Em1].
  apply modify_app_inl in H as [Ea2 Em2]. rewrite Ea2, Em2, Em1.
  unfold ensureAutoSyncBlocklist in Ea1.
  destruct (existsb (String.eqb fp) (autoSyncBlocklist (app w1))) eqn:Ex.
  - rewrite Ea1 in Ex |- *. destruct (autoSyncBlocklistLoaded (app w)); simpl in *; auto.
  - simpl. rewrite existsb_set_add, Ea1.
    destruct (autoSyncBlocklistLoaded (app w)); simpl; auto.
Qed.

Lemma ensureMetaLoaded_app w :
  store_assets (app (snd (ensureMetaLoaded w))) = store_assets (app w) /\
  autoSyncBlocklist (app (snd (ensureMetaLoaded w))) = autoSyncBlocklist (app w) /\
  cacheInvalidations (app (snd (ensureMetaLoaded w))) = cacheInvalidations (app w).
Proof.
  unfold ensureMetaLoaded, bind, get_app. destruct (metaReady (app w)); [auto|].
  pose proof (keeps_loadMetaIndex w) as Hk.
  destruct (loadMetaIndex w) as [[c|e] w1]; simpl in Hk |- *; rewrite Hk; auto.
Qed.

(** Claim C8 (amended). [deleteFile(path)] does nothing, and raises
    nothing, when no sha is known for the path; with a non-empty sha it
    deletes the path. A successful [deleteRepoFile(path)] emits one
    cache-invalidation event unless [skipInvalidation] is set. When the
    path resolves through the in-memory meta index (as loaded by
    [ensureMetaLoaded]) to an entry with fingerprint [fp], the local
    record of [fp] is deleted, [fp] is in the auto-sync blocklist when
    non-empty, and, the shard cache being loaded, the shard under the key
    of the bucket the index names for [fp] no longer holds [fp]. When the
    path does not resolve, the meta index, the local records and the
    blocklist are left as they were. *)
Theorem deleteRepoFile_cleanup p skip w a w' :
  reachable w -> deleteRepoFile p skip w = (inl a, w') ->
  (forall w0, fst (fetchFileSha p w0) = inl None -> deleteFile p w0 = (inl tt, w0)) /\
  (forall w0 sha, fst (fetchFileSha p w0) = inl (Some sha) -> sha <> "" ->
     fst (deleteFile p w0) = inl tt ->
     files (remote (snd (deleteFile p w0))) = map_delete p (files (remote w0))) /\
  cacheInvalidations (app w') = ((if skip then 0 else 1) + cacheInvalidations (app w))%nat /\
  match getMetaEntryFromCache p (meta (snd (ensureMetaLoaded w))) with
  | Some cached =>
      store_assets (app w') = map_delete (fingerprint (se_entry cached)) (store_assets (app w)) /\
      (fingerprint (se_entry cached) <> "" ->
       existsb (String.eqb (fingerprint (se_entry cached))) (autoSyncBlocklist (app w')) = true) /\
      (cache (meta (snd (ensureMetaLoaded w))) <> None ->
       forall S d,
         shard_of (sanitizeBucket
                     (match map_get (fingerprint (se_entry cached))
                              (fingerprintToBucket (meta (snd (ensureMetaLoaded w)))) with
                      | Some b => b
                      | None => bucketFromFingerprint (fingerprint (se_entry cached))
                      end)) w' = Some S ->
         shard_doc S = Some d -> map_get (fingerprint (se_entry cached)) (entries d) = None)
  | None =>
      meta w' = meta (snd (ensureMetaLoaded w)) /\
      store_assets (app w') = store_assets (app w) /\
      autoSyncBlocklist (app w') = autoSyncBlocklist (app w)
  end.
Proof.
  intros Hr H. split; [exact (deleteFile_noop p)|]. split; [exact (deleteFile_removes p)|].
  pose proof (spec_ensureMetaLoaded w (reachable_Inv w Hr)) as [Hi1 _].
  pose proof (ensureMetaLoaded_app w) as (Ea1 & Eb1 & Ec1).
  unfold deleteRepoFile in H.
  binv H as u0 w1 E0. rewrite E0 in Hi1, Ea1, Eb1, Ec1 |- *. cbn [snd] in Hi1, Ea1, Eb1, Ec1 |- *.
  rewrite <- Ea1, <- Eb1, <- Ec1.
  binv H as u1 w2 E1. apply deleteFile_inl in E1 as [Em2 Ea2].
  binv H as m w3 E3. apply get_meta_inl in E3 as [-> ->]. rewrite Em2 in H.
  binv H as u4 w4 E4.
  assert (Hfin : meta w' = meta w4 /\ store_assets (app w') = store_assets (app w4) /\
                 autoSyncBlocklist (app w') = autoSyncBlocklist (app w4) /\
                 cacheInvalidations (app w') = ((if skip then 0 else 1) + cacheInvalidations (app w4))%nat).
  { destruct skip; [apply ret_inl in H as [_ ->]; auto|].
    unfold emitCacheInvalidated in H. apply modify_app_inl in H as [-> ->]. auto. }
  destruct Hfin as (Fm & Fs & Fb & Fc).
  destruct (getMetaEntryFromCache p (meta w1)) as [cached|] eqn:Eg.
  2:{ apply ret_inl in E4 as [_ ->]. rewrite Fm, Fs, Fb, Fc, Ea2, Em2. auto. }
  set (fp := fingerprint (se_entry cached)) in *.
  binv E4 as u5 w5 E5.
  pose proof (keeps_removeMetaEntries [fp] w2) as Ha5. rewrite E5 in Ha5. cbn [snd] in Ha5.
  assert (Hgone := removeMetaEntries_single w2 fp u5 w5).
  rewrite Em2 in Hgone.
  binv E4 as ex w6 E6. unfold getAsset in E6. binv E6 as x w6' E6'.
  apply get_app_inl in E6' as [-> ->]. apply ret_inl in E6 as [-> ->].
  binv E4 as u7 w7 E7. apply modify_app_inl in E7 as [Ea7 Em7].
  binv E4 as u8 w8 E8. apply modify_app_inl in E8 as [Ea8 Em8].
  apply blockAutoSyncFingerprint_inl in E4 as (Em4 & Es4 & Ec4 & Eb4).
  rewrite Fc, Ec4, Ea8, Ea7, Ha5, Ea2. cbn [cacheInvalidations]. split; [reflexivity|].
  split; [rewrite Fs, Es4, Ea8, Ea7, Ha5, Ea2; reflexivity|].
  split; [rewrite Fb; exact Eb4|].
  intros Hc S d HS. apply (Hgone (Inv_same_cache w1 w2 (f_equal cache Em2) Hi1) Hc E5 S d).
  rewrite <- HS. apply shard_of_meta. rewrite Fm, Em4, Em8, Em7. reflexivity.
Qed.

Lemma deleteRepoFile_cleanup_witness :
  reachable c8_ok_world /\
  deleteRepoFile (repoPath c4_photo) false c8_ok_world
    = (inl tt, snd (deleteRepoFile (repoPath c4_photo) false c8_ok_world)) /\
  cacheInvalidations (app (snd (deleteRepoFile (repoPath c4_photo) false c8_ok_world))) = 1%nat /\
  existsb (String.eqb (fingerprint c4_photo))
    (autoSyncBlocklist (app (snd (deleteRepoFile (repoPath c4_photo) false c8_ok_world)))) = true.
Proof.
  assert (Hr : reachable c8_ok_world) by (apply reach_upsert, reach_start; reflexivity).
  assert (H : deleteRepoFile (repoPath c4_photo) false c8_ok_world
    = (inl tt, snd (deleteRepoFile (repoPath c4_photo) false c8_ok_world))) by (vm_compute; reflexivity).
  destruct (deleteRepoFile_cleanup _ _ _ _ _ Hr H) as (_ & _ & Hc & Hm).
  split; [exact Hr|]. split; [exact H|]. split; [rewrite Hc; vm_compute; reflexivity|].
  destruct (getMetaEntryFromCache (repoPath c4_photo) (meta (snd (ensureMetaLoaded c8_ok_world))))
    as [cached|] eqn:Eg; vm_compute in Eg; [|discriminate].
  injection Eg as <-. destruct Hm as (_ & Hb & _). apply Hb. discriminate.
Defined.

(** ** The bootstrap manifest *)

Lemma fetchShardDocument_same b p w1 w2 :
  remote w1 = remote w2 -> clock w1 = clock w2 ->
  fst (fetchShardDocument b p w1) = fst (fetchShardDocument b p w2).
Proof.
  intros Hr Hc. unfold fetchShardDocument, catch404, bind, getContent, now. rewrite Hr.
  destruct (map_get p _) as [[? ?]|]; [cbv beta iota; rewrite Hc; reflexivity|].
  destruct (dir_items p _); cbv beta iota; rewrite Hc; reflexivity.
Qed.

Lemma walk_same fuel : forall p fs w1 w2, remote w1 = remote w2 ->
  fst (walk fuel p fs w1) = fst (walk fuel p fs w2).
Proof.
  induction fuel as [|f IH]; intros p fs w1 w2 Hr; [reflexivity|].
  cbn [walk].
  assert (Hb : forall {A B} (m : M A) (k : A -> M B) w,
             bind m k w = match m w with (inl a, w') => k a w' | (inr e, w') => (inr e, w') end)
    by reflexivity.
  rewrite 2!(Hb _ _ (catch404 (let* d := getContent p in ret (Some d)) (ret None))).
  assert (Hc : forall w, remote w = remote w1 ->
     catch404 (let* d := getContent p in ret (Some d)) (ret None) w
     = (fst (catch404 (let* d := getContent p in ret (Some d)) (ret None) w1), w)).
  { intros w Hw. unfold catch404, bind, getContent. rewrite Hw.
    destruct (map_get p _) as [[? ?]|]; [reflexivity|]. destruct (dir_items p _); reflexivity. }
  rewrite (Hc w1 eq_refl), (Hc w2 (eq_sym Hr)). clear Hc Hb.
  destruct (fst (catch404 _ _ w1)) as [[d|]|e]; [|reflexivity|reflexivity].
  destruct d as [p' sha c|items].
  - destruct (bucketFromShardFilePath _); reflexivity.
  - revert fs. induction items as [|[[|] q] rest IHi]; intros fs; [reflexivity| |].
    + destruct (bucketFromShardFilePath _); apply IHi.
    + unfold bind. pose proof (IH q fs w1 w2 Hr) as Hw.
      pose proof (walk_world f q fs w1) as Hw1. pose proof (walk_world f q fs w2) as Hw2.
      destruct (walk f q fs w1) as [r1 x1], (walk f q fs w2) as [r2 x2].
      simpl in Hw, Hw1, Hw2. subst r2 x1 x2. destruct r1 as [fs'|e]; [apply IHi | reflexivity].
Qed.

Lemma walk_fuel_same w1 w2 : remote w1 = remote w2 -> walk_fuel w1 = walk_fuel w2.
Proof. unfold walk_fuel. intros ->. reflexivity. Qed.

Lemma listShardFiles_same w1 w2 : remote w1 = remote w2 ->
  fst (listShardFiles w1) = fst (listShardFiles w2).
Proof. intros Hr. unfold listShardFiles. rewrite (walk_fuel_same w1 w2 Hr). apply walk_same, Hr. Qed.

Lemma sanitize_char_not_underscore c : sanitize_char c <> "_"%char.
Proof. destruct c as [[] [] [] [] [] [] [] []]; discriminate. Qed.

Lemma sanitizeBucket_not_proto b : sanitizeBucket b <> "__proto__".
Proof.
  unfold sanitizeBucket. cbv zeta.
  destruct (String.eqb (map_string sanitize_char (trim b)) "") eqn:E; [discriminate|].
  destruct (trim b) as [|c s]; [discriminate|]. simpl. intros H. injection H as Hc _.
  exact (sanitize_char_not_underscore c Hc).
Qed.

Lemma fetchShardDocument_bucket b p w d sha :
  fst (fetchShardDocument b p w) = inl (d, sha) -> doc_bucket d <> "__proto__".
Proof.
  unfold fetchShardDocument, catch404, bind, getContent, now.
  destruct (map_get p _) as [[s c]|].
  - cbv beta iota. intros H. injection H as <- _. unfold normalizeShardDocument. cbv zeta. simpl.
    destruct (is_nonempty_string _); apply sanitizeBucket_not_proto.
  - destruct (dir_items p _); cbv beta iota; intros H; injection H as <- _; apply sanitizeBucket_not_proto.
Qed.

(** The rows [buildManifestFromExistingShards] adds, file by file. *)
Lemma foldM_build_step_rows l : forall acc wx acc' wy,
  foldM build_step l acc wx = (inl acc', wy) ->
  forall wz, remote wz = remote wx -> clock wz = clock wx ->
  remote wy = remote wx /\ clock wy = clock wx /\
  manifest_shards (fst acc')
  = fold_left (fun ms '(b, p) =>
                 match fst (fetchShardDocument b p wz) with
                 | inl (d, sha) => obj_set (doc_bucket d) (mkInfo p (count_of (entries d)) (generatedAt d) sha) ms
                 | inr _ => ms
                 end) l (manifest_shards (fst acc)).
Proof.
  induction l as [|[b p] l IH]; intros acc wx acc' wy H wz Hr Hc.
  - apply ret_inl in H as [-> ->]. auto.
  - cbn [foldM] in H. binv H as a1 w1 E1.
    destruct acc as [man shs]. unfold build_step in E1.
    binv E1 as ds w2 E2. pose proof (fetchShardDocument_world b p wx) as Hw.
    rewrite E2 in Hw. simpl in Hw. subst w2.
    cbn [fold_left]. cbv beta iota.
    rewrite (fetchShardDocument_same b p wz wx Hr Hc), E2. cbn [fst].
    destruct ds as [d sha]. cbv beta iota in E1.
    binv E1 as u w3 E3. assert (Hc3 : clock w3 = clock wx) by (inversion E3; reflexivity).
    apply modify_meta_inl' in E3 as [_ [Er3 _]].
    apply ret_inl in E1 as [-> ->].
    destruct (IH _ _ _ _ H wz (eq_trans Hr (eq_sym Er3)) (eq_trans Hc (eq_sym Hc3))) as (Hr' & Hc' & Hm).
    split; [congruence|]. split; [congruence|]. exact Hm.
Qed.

Lemma rows_present wz l : forall ms K, obj_lookup K ms <> None ->
  obj_lookup K (fold_left (fun ms '(b, p) =>
                 match fst (fetchShardDocument b p wz) with
                 | inl (d, sha) => obj_set (doc_bucket d) (mkInfo p (count_of (entries d)) (generatedAt d) sha) ms
                 | inr _ => ms
                 end) l ms) <> None.
Proof.
  induction l as [|[b p] l IH]; intros ms K H; simpl; [exact H|].
  apply IH. destruct (fst (fetchShardDocument b p wz)) as [[d sha]|]; [|exact H].
  rewrite obj_lookup_set. destruct (String.eqb (doc_bucket d) "__proto__"); [exact H|].
  destruct (String.eqb (doc_bucket d) K); [discriminate | exact H].
Qed.

Lemma rows_keep wz l : forall ms K,
  (forall b p d sha, In (b, p) l -> fst (fetchShardDocument b p wz) = inl (d, sha) -> doc_bucket d <> K) ->
  obj_lookup K (fold_left (fun ms '(b, p) =>
                 match fst (fetchShardDocument b p wz) with
                 | inl (d, sha) => obj_set (doc_bucket d) (mkInfo p (count_of (entries d)) (generatedAt d) sha) ms
                 | inr _ => ms
                 end) l ms) = obj_lookup K ms.
Proof.
  induction l as [|[b p] l IH]; intros ms K H; simpl; [reflexivity|].
  rewrite IH by (intros; eapply H; [right|]; eauto).
  destruct (fst (fetchShardDocument b p wz)) as [[d sha]|] eqn:E; [|reflexivity].
  rewrite obj_lookup_set. destruct (String.eqb (doc_bucket d) "__proto__"); [reflexivity|].
  destruct (String.eqb_spec (doc_bucket d) K); [|reflexivity].
  exfalso. exact (H b p d sha (or_introl eq_refl) E e).
Qed.

Lemma rows_last wz l : forall ms i b p d sha,
  nth_error l i = Some (b, p) -> fst (fetchShardDocument b p wz) = inl (d, sha) ->
  (forall j b' p' d' sha', (i < j)%nat -> nth_error l j = Some (b', p') ->
     fst (fetchShardDocument b' p' wz) = inl (d', sha') -> doc_bucket d' <> doc_bucket d) ->
  obj_lookup (doc_bucket d) (fold_left (fun ms '(b, p) =>
                 match fst (fetchShardDocument b p wz) with
                 | inl (d, sha) => obj_set (doc_bucket d) (mkInfo p (count_of (entries d)) (generatedAt d) sha) ms
                 | inr _ => ms
                 end) l ms) = Some (mkInfo p (count_of (entries d)) (generatedAt d) sha).
Proof.
  induction l as [|[b0 p0] l IH]; intros ms i b p d sha Hi Hf Hlast; [destruct i; discriminate|].
  destruct i as [|i].
  - simpl in Hi. injection Hi as -> ->. simpl. rewrite Hf.
    rewrite rows_keep.
    + rewrite obj_lookup_set.
      pose proof (fetchShardDocument_bucket b p wz d sha Hf) as Hp. apply String.eqb_neq in Hp. rewrite Hp, String.eqb_refl.
      reflexivity.
    + intros b' p' d' sha' Hin Hf'. apply In_nth_error in Hin as [j Hj].
      exact (Hlast (S j) b' p' d' sha' (Nat.lt_0_succ j) Hj Hf').
  - simpl. apply (IH _ i b p d sha Hi Hf).
    intros j b' p' d' sha' Hlt Hj Hf'. exact (Hlast (S j) b' p' d' sha' (proj1 (Nat.succ_lt_mono _ _) Hlt) Hj Hf').
Qed.

Lemma rows_exist wz l : forall ms i b p d sha,
  nth_error l i = Some (b, p) -> fst (fetchShardDocument b p wz) = inl (d, sha) ->
  obj_lookup (doc_bucket d) (fold_left (fun ms '(b, p) =>
                 match fst (fetchShardDocument b p wz) with
                 | inl (d, sha) => obj_set (doc_bucket d) (mkInfo p (count_of (entries d)) (generatedAt d) sha) ms
                 | inr _ => ms
                 end) l ms) <> None.
Proof.
  induction l as [|[b0 p0] l IH]; intros ms i b p d sha Hi Hf; [destruct i; discriminate|].
  destruct i as [|i].
  - simpl in Hi. injection Hi as -> ->. simpl. rewrite Hf. apply rows_present.
    rewrite obj_lookup_set.
    pose proof (fetchShardDocument_bucket b p wz d sha Hf) as Hp. apply String.eqb_neq in Hp. rewrite Hp, String.eqb_refl.
    discriminate.
  - simpl. exact (IH _ i b p d sha Hi Hf).
Qed.

(** When no shard cache is loaded and the manifest file is missing (its
    read fails with 404), a successful [ensureBaseState] builds the
    manifest from the shard files that
    [listShardFiles] finds. Every file's document, fetched with
    [fetchShardDocument], gets a row under the document's own (sanitised)
    bucket; when several files lead to the same bucket, the last listed
    one wins. That row has that file's path, and its count is that
    document's number of entries. *)
Theorem bootstrap_manifest_rows w files c w' :
  cache (meta w) = None ->
  fst (getContent META_MANIFEST_PATH w) = inr (HttpError 404) ->
  fst (listShardFiles w) = inl files ->
  ensureBaseState w = (inl c, w') ->
  forall i b path d sha,
    nth_error files i = Some (b, path) ->
    fst (fetchShardDocument b path w) = inl (d, sha) ->
    map_get (doc_bucket d) (manifest_shards (cache_manifest c)) <> None /\
    ((forall j b' path' d' sha', (i < j)%nat -> nth_error files j = Some (b', path') ->
        fst (fetchShardDocument b' path' w) = inl (d', sha') -> doc_bucket d' <> doc_bucket d) ->
     map_get (doc_bucket d) (manifest_shards (cache_manifest c))
       = Some (mkInfo path (count_of (entries d)) (generatedAt d) sha)).
Proof.
  intros Hc Hm Hl H. unfold ensureBaseState in H.
  binv H as c0 w0 E0. unfold get_cache in E0. injection E0 as <- <-. rewrite Hc in H. cbv iota in H.
  binv H as u1 w1 E1. assert (Hr1 : remote w1 = remote w /\ clock w1 = clock w) by (inversion E1; auto).
  destruct Hr1 as [Hr1 Hc1]. clear E1.
  binv H as mr w2 E2.
  assert (Hg : getContent META_MANIFEST_PATH w1 = (inr (HttpError 404), w1)).
  { revert Hm. unfold getContent. rewrite Hr1.
    destruct (map_get _ _) as [[? ?]|]; [discriminate|].
    destruct (dir_items _ _); [reflexivity | discriminate]. }
  unfold catch404, fetchManifest, bind in E2. rewrite Hg in E2. cbv beta iota in E2.
  injection E2 as <- <-.
  binv H as t w3 E3. apply now_inl in E3 as ->. cbv iota in H.
  binv H as r w4 E4.
  binv E4 as me w5 E5. destruct me as [manifest existing]. cbv beta iota in E4.
  binv E4 as sha0 w6 E6. apply ret_inl in E4 as [-> ->]. cbv beta iota in H.
  binv H as u7 w7 E7. apply ret_inl in H as [-> ->]. cbn [cache_manifest].
  unfold buildManifestFromExistingShards in E5.
  binv E5 as fs w8 E8. pose proof (listShardFiles_world w1) as Hw8. rewrite E8 in Hw8. simpl in Hw8. subst w8.
  pose proof (listShardFiles_same w1 w Hr1) as Hfs. rewrite E8, Hl in Hfs. simpl in Hfs. injection Hfs as ->.
  binv E5 as t' w9 E9. apply now_inl in E9 as ->.
  destruct (foldM_build_step_rows files _ w1 _ w5 E5 w (eq_sym Hr1) (eq_sym Hc1)) as (_ & _ & Hrows).
  cbn [fst manifest_shards] in Hrows. unfold map_get. rewrite Hrows.
  intros i b path d sha Hi Hf. split.
  - exact (rows_exist w files [] i b path d sha Hi Hf).
  - intros Hlast. exact (rows_last w files [] i b path d sha Hi Hf Hlast).
Qed.


End MetaIndexFacts.

Module UtilsFacts.
Import JsStr Utils.

Lemma u_chars_rev s : list_ascii_of_string (rev_string s) = rev (list_ascii_of_string s).
Proof. unfold rev_string. apply list_ascii_of_string_of_list_ascii. Qed.

Lemma u_rev_rev s : rev_string (rev_string s) = s.
Proof.
  unfold rev_string. rewrite list_ascii_of_string_of_list_ascii, rev_involutive.
  apply string_of_list_ascii_of_string.
Qed.

Lemma u_get0 s : String.get 0 s = hd_error (list_ascii_of_string s).
Proof. destruct s; reflexivity. Qed.

Lemma u_get_In i s c : String.get i s = Some c -> In c (list_ascii_of_string s).
Proof.
  revert i; induction s as [|d s IH]; intros [|i]; cbn; try discriminate.
  - intros H; injection H as ->; now left.
  - intros H; right; exact (IH i H).
Qed.

Lemma u_map_string_app f a b :
  MetaIndex.map_string f (a ++ b) = MetaIndex.map_string f a ++ MetaIndex.map_string f b.
Proof. induction a as [|c a IH]; cbn; [reflexivity|now rewrite IH]. Qed.

Lemma u_map_string_id f s :
  (forall c, In c (list_ascii_of_string s) -> f c = c) -> MetaIndex.map_string f s = s.
Proof.
  induction s as [|c s IH]; cbn; intros H; [reflexivity|].
  rewrite (H c (or_introl eq_refl)), IH; [reflexivity|]. intros d Hd; exact (H d (or_intror Hd)).
Qed.

Lemma u_In_map_string f s c :
  In c (list_ascii_of_string (MetaIndex.map_string f s)) ->
  exists d, In d (list_ascii_of_string s) /\ c = f d.
Proof.
  induction s as [|d s IH]; cbn; [intros []|]. intros [<-|H].
  - exists d; split; [now left|reflexivity].
  - destruct (IH H) as (e & He & ->). exists e; split; [now right|reflexivity].
Qed.

Lemma u_strip_leading_suffix c0 s :
  exists pre, list_ascii_of_string s = (pre ++ list_ascii_of_string (strip_leading c0 s))%list.
Proof.
  induction s as [|c s IH]; cbn [strip_leading].
  - exists []. reflexivity.
  - destruct (Ascii.eqb c c0).
    + destruct IH as [pre H]. exists (c :: pre). cbn. now rewrite H.
    + exists []. reflexivity.
Qed.

Lemma u_strip_leading_head c0 s : String.get 0 (strip_leading c0 s) <> Some c0.
Proof.
  induction s as [|c s IH]; cbn [strip_leading]; [discriminate|].
  destruct (Ascii.eqb c c0) eqn:E; [exact IH|].
  cbn. intro H; injection H as ->. rewrite Ascii.eqb_refl in E. discriminate.
Qed.

Lemma u_strip_leading_id c0 s : String.get 0 s <> Some c0 -> strip_leading c0 s = s.
Proof.
  destruct s as [|c s]; [reflexivity|]. cbn. intro H.
  destruct (Ascii.eqb_spec c c0); [subst; congruence|reflexivity].
Qed.

Lemma u_In_strip_leading c0 s c :
  In c (list_ascii_of_string (strip_leading c0 s)) -> In c (list_ascii_of_string s).
Proof.
  destruct (u_strip_leading_suffix c0 s) as [pre H]. rewrite H. intro. apply in_or_app; now right.
Qed.

Lemma u_In_strip_hyphens s c :
  In c (list_ascii_of_string (strip_hyphens s)) -> In c (list_ascii_of_string s).
Proof.
  unfold strip_hyphens. rewrite u_chars_rev, <- in_rev. intros H.
  apply u_In_strip_leading in H. rewrite u_chars_rev, <- in_rev in H.
  now apply u_In_strip_leading in H.
Qed.

Lemma u_strip_hyphens_edges s :
  String.get 0 (strip_hyphens s) <> Some "-"%char /\
  String.get 0 (rev_string (strip_hyphens s)) <> Some "-"%char.
Proof.
  unfold strip_hyphens. rewrite u_rev_rev. split; [|apply u_strip_leading_head].
  pose proof (u_strip_leading_head "-" s) as Ha.
  remember (strip_leading "-" s) as a eqn:Ea. clear Ea.
  destruct (u_strip_leading_suffix "-" (rev_string a)) as [pre Hp].
  remember (strip_leading "-" (rev_string a)) as b eqn:Eb. clear Eb.
  rewrite u_get0, u_chars_rev. rewrite u_get0 in Ha. rewrite u_chars_rev in Hp.
  assert (Hab : list_ascii_of_string a = (rev (list_ascii_of_string b) ++ rev pre)%list)
    by (rewrite <- (rev_involutive (list_ascii_of_string a)), Hp, rev_app_distr; reflexivity).
  rewrite Hab in Ha. destruct (rev (list_ascii_of_string b)); cbn in *; [discriminate|exact Ha].
Qed.

Lemma u_In_replace_runs p r b s c :
  In c (list_ascii_of_string (replace_runs p r b s)) ->
  c = r \/ (p c = false /\ In c (list_ascii_of_string s)).
Proof.
  revert b; induction s as [|d s IH]; intros b; cbn [replace_runs]; [intros []|].
  destruct (p d) eqn:E; [destruct b|]; cbn; intros H.
  - destruct (IH _ H) as [?|[? ?]]; [now left|right; split; auto].
  - destruct H as [<-|H]; [now left|]. destruct (IH _ H) as [?|[? ?]]; [now left|right; split; auto].
  - destruct H as [<-|H]; [right; split; auto|].
    destruct (IH _ H) as [?|[? ?]]; [now left|right; split; auto].
Qed.

Lemma u_replace_runs_id p r : forall s b,
  (forall i c, String.get i s = Some c -> p c = true ->
     c = r /\ forall d, String.get (S i) s = Some d -> p d = false) ->
  (b = true -> forall c, String.get 0 s = Some c -> p c = false) ->
  replace_runs p r b s = s.
Proof.
  induction s as [|c s IH]; intros b H Hb; cbn [replace_runs]; [reflexivity|].
  destruct (p c) eqn:E.
  - destruct b. { pose proof (Hb eq_refl c eq_refl); congruence. }
    destruct (H 0 c eq_refl E) as [-> Hn]. f_equal. apply IH.
    + intros i d Hd Hpd. exact (H (S i) d Hd Hpd).
    + intros _ d Hd. exact (Hn d Hd).
  - f_equal. apply IH; [intros i d Hd Hpd; exact (H (S i) d Hd Hpd) | discriminate].
Qed.

Lemma u_remove_controls_id s :
  (forall c, In c (list_ascii_of_string s) -> is_control c = false) -> remove_controls s = s.
Proof.
  induction s as [|c s IH]; cbn; intros H; [reflexivity|].
  rewrite (H c (or_introl eq_refl)), IH; [reflexivity|]. intros d Hd; exact (H d (or_intror Hd)).
Qed.

Lemma u_allowed_facts c : is_allowed c = true ->
  is_control c = false /\ is_separator c = false /\
  (MetaIndex.is_js_space c = true -> c = " "%char) /\ Ascii.eqb c "092"%char = false.
Proof.
  destruct c as [[|] [|] [|] [|] [|] [|] [|] [|]]; vm_compute;
    first [discriminate | intros _; repeat split; intros; first [reflexivity | discriminate]].
Qed.

(** The cases of [sanitizeFilename]'s result. *)
Lemma u_sanitize_cases (filename fallback : string) :
  sanitizeFilename filename fallback = fallback \/
  (let r := sanitizeFilename filename fallback in
   r <> "" /\ r <> "." /\ r <> ".." /\ forallb is_allowed (list_ascii_of_string r) = true /\
   String.get 0 r <> Some "-"%char /\ String.get 0 (rev_string r) <> Some "-"%char).
Proof.
  unfold sanitizeFilename.
  lazymatch goal with |- context [if ?b then _ else _] => destruct b eqn:E end;
    [now left|right].
  cbv zeta. apply orb_false_iff in E as [E E3]. apply orb_false_iff in E as [E1 E2].
  apply String.eqb_neq in E1, E2, E3.
  split; [exact E1|]. split; [exact E2|]. split; [exact E3|]. split.
  - apply forallb_forall. intros c Hc. apply u_In_strip_hyphens in Hc.
    destruct (u_In_replace_runs _ _ _ _ _ Hc) as [->|[Hp _]]; [reflexivity|].
    now apply negb_false_iff in Hp.
  - apply u_strip_hyphens_edges.
Qed.

Lemma u_trim_id s :
  (forall c, String.get 0 s = Some c -> MetaIndex.is_js_space c = false) ->
  (forall c, String.get 0 (rev_string s) = Some c -> MetaIndex.is_js_space c = false) ->
  MetaIndex.trim s = s.
Proof.
  intros H1 H2. unfold MetaIndex.trim.
  assert (Hs : forall t, (forall c, String.get 0 t = Some c -> MetaIndex.is_js_space c = false) ->
                 MetaIndex.trim_start t = t).
  { intros [|c t] Ht; [reflexivity|]. cbn. now rewrite (Ht c eq_refl). }
  rewrite (Hs s H1). change (rev_string (MetaIndex.trim_start (rev_string s)) = s).
  rewrite (Hs _ H2). apply u_rev_rev.
Qed.

Lemma u_sanitized_nonempty name fallback :
  fallback <> "" -> sanitizeFilename name fallback <> "".
Proof.
  intros Hf. destruct (u_sanitize_cases name fallback) as [->|(H & _)]; assumption.
Qed.

Lemma u_sanitized_allowed name fallback :
  forallb is_allowed (list_ascii_of_string fallback) = true ->
  forallb is_allowed (list_ascii_of_string (sanitizeFilename name fallback)) = true.
Proof.
  intros Hf. destruct (u_sanitize_cases name fallback) as [->|(_ & _ & _ & H & _)]; assumption.
Qed.

(** [sanitizeFilename] returns its fallback or a non-empty name other than
    [.] and [..], made of letters, digits, dots, underscores, spaces and
    hyphens, that neither starts nor ends with a hyphen. *)
Theorem sanitizeFilename_output (filename fallback : string) :
  sanitizeFilename filename fallback = fallback \/
  (let r := sanitizeFilename filename fallback in
   r <> "" /\ r <> "." /\ r <> ".." /\ forallb is_allowed (list_ascii_of_string r) = true /\
   String.get 0 r <> Some "-"%char /\ String.get 0 (rev_string r) <> Some "-"%char).
Proof. apply u_sanitize_cases. Qed.

(** A name that is already clean (allowed characters only, no hyphen or
    space at either end, no two spaces in a row, not empty, [.] or [..])
    is returned unchanged by [sanitizeFilename]. *)
Theorem sanitizeFilename_clean_fixed (name fallback : string)
  (Hne : name <> "") (Hdot : name <> ".") (Hdots : name <> "..")
  (Hall : forallb is_allowed (list_ascii_of_string name) = true)
  (Hfirst : forall c, String.get 0 name = Some c -> c <> "-"%char /\ c <> " "%char)
  (Hlast : forall c, String.get 0 (rev_string name) = Some c -> c <> "-"%char /\ c <> " "%char)
  (Hdouble : forall i, String.get i name = Some " "%char -> String.get (S i) name <> Some " "%char) :
  sanitizeFilename name fallback = name.
Proof.
  assert (HA : forall c, In c (list_ascii_of_string name) -> is_allowed c = true)
    by (apply forallb_forall; exact Hall).
  assert (HArev : forall c, String.get 0 (rev_string name) = Some c -> is_allowed c = true).
  { intros c Hc. apply HA. apply u_get_In in Hc. rewrite u_chars_rev, <- in_rev in Hc. exact Hc. }
  assert (Hsp : forall c, is_allowed c = true -> c <> " "%char -> MetaIndex.is_js_space c = false).
  { intros c Hc Hn. destruct (MetaIndex.is_js_space c) eqn:E; [|reflexivity].
    exfalso. apply Hn. exact (proj1 (proj2 (proj2 (u_allowed_facts c Hc))) E). }
  unfold sanitizeFilename.
  rewrite u_remove_controls_id
    by (intros c Hc; exact (proj1 (u_allowed_facts c (HA c Hc)))).
  unfold dash_separators. rewrite u_map_string_id
    by (intros c Hc; now rewrite (proj1 (proj2 (u_allowed_facts c (HA c Hc))))).
  rewrite (u_replace_runs_id MetaIndex.is_js_space " " name false).
  2:{ intros i c Hc Hp. pose proof (HA c (u_get_In _ _ _ Hc)) as Hac.
      assert (Hc' : c = " "%char) by exact (proj1 (proj2 (proj2 (u_allowed_facts c Hac))) Hp).
      split; [exact Hc'|]. subst c. intros d Hd.
      apply Hsp; [exact (HA d (u_get_In _ _ _ Hd))|]. intros ->. exact (Hdouble i Hc Hd). }
  2:{ discriminate. }
  rewrite u_trim_id.
  2:{ intros c Hc. apply Hsp; [exact (HA c (u_get_In _ _ _ Hc))|exact (proj2 (Hfirst c Hc))]. }
  2:{ intros c Hc. apply Hsp; [exact (HArev c Hc)|exact (proj2 (Hlast c Hc))]. }
  rewrite (u_replace_runs_id (fun c => negb (is_allowed c)) "-" name false).
  2:{ intros i c Hc Hp. rewrite (HA c (u_get_In _ _ _ Hc)) in Hp. discriminate. }
  2:{ discriminate. }
  unfold strip_hyphens. rewrite (u_strip_leading_id "-" name).
  2:{ intros Hc. exact (proj1 (Hfirst _ Hc) eq_refl). }
  rewrite (u_strip_leading_id "-" (rev_string name)).
  2:{ intros Hc. exact (proj1 (Hlast _ Hc) eq_refl). }
  rewrite u_rev_rev.
  apply String.eqb_neq in Hne, Hdot, Hdots. now rewrite Hne, Hdot, Hdots.
Qed.

Lemma sanitizeFilename_clean_fixed_witness :
  sanitizeFilename "IMG 0001.jpg" "asset" = "IMG 0001.jpg".
Proof.
  apply sanitizeFilename_clean_fixed; try discriminate; try reflexivity.
  - intros c H. injection H as <-. split; discriminate.
  - intros c H. vm_compute in H. injection H as <-. split; discriminate.
  - intros i. do 13 (destruct i as [|i]; [cbn; discriminate|]). cbn. discriminate.
Defined.

Lemma u_chars_app a b :
  list_ascii_of_string (a ++ b) = (list_ascii_of_string a ++ list_ascii_of_string b)%list.
Proof. induction a as [|c a IH]; cbn; [reflexivity|now rewrite IH]. Qed.

Lemma u_has_char_app c a b : has_char c (a ++ b) = (has_char c a || has_char c b)%bool.
Proof.
  induction a as [|d a IH]; cbn; [reflexivity|]. destruct (Ascii.eqb c d); [reflexivity|exact IH].
Qed.

Lemma u_forallb_app f a b :
  forallb f (list_ascii_of_string (a ++ b)) =
  (forallb f (list_ascii_of_string a) && forallb f (list_ascii_of_string b))%bool.
Proof. rewrite u_chars_app. apply forallb_app. Qed.

Lemma u_folder_facts folder :
  sanitizeFolderName folder <> "" /\
  forallb is_allowed (list_ascii_of_string (sanitizeFolderName folder)) = true.
Proof.
  unfold sanitizeFolderName.
  pose proof (u_sanitized_nonempty folder "Unsorted" ltac:(discriminate)) as H.
  apply String.eqb_neq in H as H'. rewrite H'. split; [exact H|].
  apply u_sanitized_allowed. reflexivity.
Qed.

(** [determineRepoPath] puts the file under [gitgallery/images/] in one
    folder segment, which is non-empty and made of allowed characters only
    (so it holds no slash); the file segment contains a dot and is either
    made of allowed characters or is the fallback [asset-<fingerprint>],
    with [.jpg] appended when that has no dot; backslashes in it become
    slashes. *)
Theorem determineRepoPath_shape (folderName filename fingerprint : string) :
  let F := sanitizeFolderName folderName in
  let S := buildFileSegment filename fingerprint in
  determineRepoPath folderName filename fingerprint =
    "gitgallery/images/" ++ F ++ "/" ++ backslash_to_slash S /\
  F <> "" /\ forallb is_allowed (list_ascii_of_string F) = true /\
  has_char "." S = true /\
  (forallb is_allowed (list_ascii_of_string S) = true \/
   S = "asset-" ++ fingerprint \/ S = "asset-" ++ fingerprint ++ ".jpg").
Proof.
  cbv zeta. destruct (u_folder_facts folderName) as [HF1 HF2].
  split; [|split; [exact HF1|split; [exact HF2|]]].
  - unfold determineRepoPath, normalizePath, backslash_to_slash.
    rewrite !u_map_string_app.
    rewrite (u_map_string_id _ (sanitizeFolderName folderName)); [reflexivity|].
    intros c Hc. apply forallb_forall with (x := c) in HF2; [|exact Hc].
    now rewrite (proj2 (proj2 (proj2 (u_allowed_facts c HF2)))).
  - unfold buildFileSegment.
    set (original := if String.eqb (MetaIndex.trim filename) "" then "" else filename).
    destruct (u_sanitize_cases original ("asset-" ++ fingerprint)) as [E|(_ & _ & _ & Ha & _)].
    + rewrite E. destruct (has_char "." ("asset-" ++ fingerprint)) eqn:Hd.
      * split; [exact Hd|right; left; reflexivity].
      * split; [now rewrite u_has_char_app, Hd|right; right; now rewrite JsStrFacts.sapp_assoc].
    + destruct (has_char "." (sanitizeFilename original ("asset-" ++ fingerprint))) eqn:Hd.
      * split; [exact Hd|now left].
      * split; [now rewrite u_has_char_app, Hd|left; now rewrite u_forallb_app, Ha].
Qed.

Lemma u_split_on_parts sep s w :
  In w (MetaIndex.split_on sep s) ->
  has_char sep w = false /\
  (forall c, In c (list_ascii_of_string w) -> In c (list_ascii_of_string s)).
Proof.
  revert w; induction s as [|c s IH]; intros w; cbn [MetaIndex.split_on].
  - intros [<-|[]]. split; [reflexivity|intros _ []].
  - destruct (Ascii.eqb_spec c sep) as [->|Hne].
    + intros [<-|Hw]; [split; [reflexivity|intros _ []]|].
      destruct (IH w Hw) as [H1 H2]. split; [exact H1|intros d Hd; right; exact (H2 d Hd)].
    + destruct (MetaIndex.split_on sep s) as [|w0 ws] eqn:Es.
      * intros [<-|[]]. cbn. destruct (Ascii.eqb_spec sep c); [congruence|].
        split; [reflexivity|intros d [<-|[]]; now left].
      * intros [<-|Hw].
        -- destruct (IH w0 (or_introl eq_refl)) as [H1 H2]. cbn.
           destruct (Ascii.eqb_spec sep c); [congruence|].
           split; [exact H1|]. intros d [<-|Hd]; [now left|right; exact (H2 d Hd)].
        -- destruct (IH w (or_intror Hw)) as [H1 H2].
           split; [exact H1|intros d Hd; right; exact (H2 d Hd)].
Qed.

Lemma u_split_on_nonempty sep s : MetaIndex.split_on sep s <> [].
Proof.
  destruct s as [|c s]; cbn; [discriminate|].
  destruct (Ascii.eqb c sep); [discriminate|]. destruct (MetaIndex.split_on sep s); discriminate.
Qed.

Lemma u_last_In {A} (l : list A) d : l <> [] -> In (last l d) l.
Proof.
  induction l as [|x l IH]; intros H; [congruence|]. destruct l as [|y l]; [now left|].
  right. apply IH. discriminate.
Qed.

Lemma u_In_removelast {A} (l : list A) x : In x (removelast l) -> In x l.
Proof.
  induction l as [|y l IH]; cbn; [intros []|]. destruct l as [|z l]; [intros []|].
  intros [<-|H]; [now left|right; exact (IH H)].
Qed.

Lemma u_concat_chars sep l c :
  In c (list_ascii_of_string (String.concat sep l)) ->
  In c (list_ascii_of_string sep) \/ exists w, In w l /\ In c (list_ascii_of_string w).
Proof.
  induction l as [|w l IH]; cbn [String.concat]; [intros []|].
  destruct l as [|w' l].
  - intros H. right. exists w. split; [now left|exact H].
  - rewrite !u_chars_app. intros H. apply in_app_or in H as [H|H].
    + right. exists w. split; [now left|exact H].
    + apply in_app_or in H as [H|H]; [now left|].
      destruct (IH H) as [?|(v & Hv & Hc)]; [now left|right; exists v; split; [now right|exact Hc]].
Qed.

Lemma u_dec_digits_chars f n acc c :
  In c (list_ascii_of_string (dec_digits f n acc)) ->
  is_allowed c = true \/ In c (list_ascii_of_string acc).
Proof.
  revert n acc; induction f as [|f IH]; intros n acc H; cbn [dec_digits] in H; [now right|].
  assert (Hd : is_allowed (ascii_of_N (48 + n mod 10)) = true).
  { assert (Hm := N.mod_lt n 10 ltac:(discriminate)). revert Hm.
    generalize (n mod 10)%N. intros k Hm.
    unfold is_allowed. rewrite N_ascii_embedding by lia.
    replace (N.leb 48 (48 + k) && N.leb (48 + k) 57)%bool with true
      by (symmetry; apply andb_true_iff; split; apply N.leb_le; lia).
    rewrite orb_true_r. reflexivity. }
  destruct (N.eqb (n / 10) 0).
  - cbn [list_ascii_of_string In] in H. destruct H as [<-|H]; [now left|now right].
  - destruct (IH _ _ H) as [?|H']; [now left|]. cbn [list_ascii_of_string In] in H'.
    destruct H' as [<-|H']; [now left|now right].
Qed.

Lemma u_string_of_Z_allowed z : forallb is_allowed (list_ascii_of_string (string_of_Z z)) = true.
Proof.
  apply forallb_forall. intros c Hc. unfold string_of_Z, string_of_N in Hc.
  destruct (Z.ltb z 0); [cbn [list_ascii_of_string] in Hc; destruct Hc as [<-|Hc]; [reflexivity|]|];
    (destruct (u_dec_digits_chars _ _ _ _ Hc) as [?|[]]; assumption).
Qed.

(** [buildAndroidDownloadName] returns [<name>-<timestamp>.<ext>] and the
    MIME type guessed from [<ext>], where [<name>] is non-empty and made of
    the characters [sanitizeFilename] allows, and [<ext>] is non-empty and
    contains no dot. *)
Theorem buildAndroidDownloadName_shape (baseName : string) (timestamp : Z) :
  exists namePart ext,
    buildAndroidDownloadName baseName timestamp =
      (namePart ++ "-" ++ string_of_Z timestamp ++ "." ++ ext, guessMimeTypeFromExtension ext) /\
    namePart <> "" /\ forallb is_allowed (list_ascii_of_string namePart) = true /\
    ext <> "" /\ has_char "." ext = false.
Proof.
  unfold buildAndroidDownloadName.
  pose proof (u_sanitized_nonempty baseName "asset" ltac:(discriminate)) as Hne.
  pose proof (u_sanitized_allowed baseName "asset" eq_refl) as Hal.
  remember (sanitizeFilename baseName "asset") as s eqn:Es. clear Es.
  apply String.eqb_neq in Hne as Hne'. rewrite Hne'.
  assert (Hext : forall e, e = "" \/ has_char "." e = false ->
            (if String.eqb e "" then "bin" else e) <> "" /\
            has_char "." (if String.eqb e "" then "bin" else e) = false).
  { intros e He. destruct (String.eqb_spec e ""); [split; [discriminate|reflexivity]|].
    destruct He; [contradiction|split; assumption]. }
  assert (Hdl : forall t, "download-" ++ string_of_Z t <> "" /\
            forallb is_allowed (list_ascii_of_string ("download-" ++ string_of_Z t)) = true).
  { intros t. split; [discriminate|]. rewrite u_forallb_app, u_string_of_Z_allowed. reflexivity. }
  destruct (Nat.ltb 1 (length (MetaIndex.split_on "." s))) eqn:Hlen.
  - set (e := last (MetaIndex.split_on "." s) "").
    set (np := String.concat "." (removelast (MetaIndex.split_on "." s))).
    assert (He : e = "" \/ has_char "." e = false).
    { right. apply (u_split_on_parts "." s). apply u_last_In, u_split_on_nonempty. }
    destruct (Hext e He) as [He1 He2].
    exists (if String.eqb np "" then "download-" ++ string_of_Z timestamp else np),
      (if String.eqb e "" then "bin" else e).
    split; [reflexivity|]. split; [|split; [|split; assumption]].
    + destruct (String.eqb_spec np ""); [apply Hdl|assumption].
    + destruct (String.eqb_spec np ""); [apply Hdl|].
      apply forallb_forall. intros c Hc. apply u_concat_chars in Hc as [Hc|(w & Hw & Hc)].
      * destruct Hc as [<-|[]]. reflexivity.
      * apply u_In_removelast in Hw. apply (u_split_on_parts "." s w Hw) in Hc.
        apply forallb_forall with (x := c) in Hal; assumption.
  - set (e := if has_char "." baseName then last (MetaIndex.split_on "." baseName) "" else "").
    assert (He : e = "" \/ has_char "." e = false).
    { unfold e. destruct (has_char "." baseName); [|now left]. right.
      apply (u_split_on_parts "." baseName). apply u_last_In, u_split_on_nonempty. }
    destruct (Hext e He) as [He1 He2].
    exists s, (if String.eqb e "" then "bin" else e).
    split; [reflexivity|]. repeat split; assumption.
Qed.

Lemma u_chunk_concat {T} (items : list T) k (Hk : 0 < k) : forall fuel i,
  length items - i <= fuel -> concat (chunk_from fuel items k i) = skipn i items.
Proof.
  induction fuel as [|f IH]; intros i Hf; cbn [chunk_from].
  - rewrite skipn_all2 by lia. reflexivity.
  - destruct (Nat.ltb_spec i (length items)).
    + cbn [concat]. rewrite IH by lia. rewrite Nat.add_comm, <- skipn_skipn. apply firstn_skipn.
    + rewrite skipn_all2 by lia. reflexivity.
Qed.

Lemma u_chunk_elems {T} (items : list T) k (Hk : 0 < k) : forall fuel i c,
  In c (chunk_from fuel items k i) -> c <> [] /\ length c <= k.
Proof.
  induction fuel as [|f IH]; intros i c H; cbn [chunk_from] in H; [contradiction|].
  destruct (Nat.ltb_spec i (length items)); [|contradiction].
  destruct H as [<-|H]; [|exact (IH _ _ H)].
  rewrite length_firstn. split; [|lia].
  intros E. apply (f_equal (@length T)) in E. rewrite length_firstn, length_skipn in E.
  cbn in E. lia.
Qed.

Lemma u_chunk_from_nonempty {T} (items : list T) k fuel i :
  chunk_from fuel items k i <> [] -> i < length items.
Proof.
  destruct fuel as [|f]; cbn [chunk_from]; [intros Hn; exfalso; exact (Hn eq_refl)|].
  destruct (Nat.ltb_spec i (length items)); [auto|intros Hn; exfalso; exact (Hn eq_refl)].
Qed.

Lemma u_chunk_full {T} (items : list T) k : forall fuel i j c,
  nth_error (chunk_from fuel items k i) j = Some c ->
  S j < length (chunk_from fuel items k i) -> length c = k.
Proof.
  induction fuel as [|f IH]; intros i j c H1 H2; cbn [chunk_from] in *; [cbn in H2; lia|].
  destruct (Nat.ltb_spec i (length items)); [|cbn in H2; lia].
  destruct j as [|j]; cbn in H1, H2.
  - injection H1 as <-. assert (Hr : chunk_from f items k (i + k) <> []).
    { intros E. rewrite E in H2. cbn in H2. lia. }
    apply u_chunk_from_nonempty in Hr.
    rewrite length_firstn, length_skipn. lia.
  - apply (IH (i + k) j c H1). lia.
Qed.

(** For a positive [size], [chunk(items, size)] splits [items] into
    consecutive non-empty pieces of at most [size] items, in order; every
    piece but the last has exactly [size] items. *)
Theorem chunk_partition {T} (items : list T) (size : Z) (Hsize : (0 < size)%Z) :
  concat (chunk items size) = items /\
  (forall c, In c (chunk items size) -> c <> [] /\ (length c <= Z.to_nat size)%nat) /\
  (forall i c, nth_error (chunk items size) i = Some c ->
     (S i < length (chunk items size))%nat -> length c = Z.to_nat size).
Proof.
  unfold chunk. destruct (Z.leb_spec size 0); [lia|].
  assert (Hk : 0 < Z.to_nat size) by lia.
  split; [|split].
  - rewrite u_chunk_concat by (auto; lia). reflexivity.
  - intros c Hc. exact (u_chunk_elems items _ Hk _ _ _ Hc).
  - intros i c H1 H2. exact (u_chunk_full items _ _ _ _ _ H1 H2).
Qed.

Lemma chunk_partition_witness : concat (chunk [1; 2; 3; 4; 5] 2) = [1; 2; 3; 4; 5].
Proof. exact (proj1 (chunk_partition [1; 2; 3; 4; 5] 2 ltac:(lia))). Defined.

End UtilsFacts.

Module CloudCacheFacts.
Import JsStr Utils CloudCachePaths.

Lemma cc_rev_app a b : rev_string (a ++ b) = rev_string b ++ rev_string a.
Proof.
  unfold rev_string. rewrite UtilsFacts.u_chars_app, rev_app_distr.
  induction (rev (list_ascii_of_string b)) as [|c l IH]; cbn; [reflexivity|now rewrite IH].
Qed.

Lemma cc_drop_slashes_id s : String.get 0 s <> Some "/"%char -> drop_slashes s = s.
Proof.
  destruct s as [|c s]; [reflexivity|]. cbn. intro H.
  destruct (Ascii.eqb_spec c "/"); [subst; congruence|reflexivity].
Qed.

Lemma cc_segment_chars s c :
  In c (list_ascii_of_string (sanitizeSegment s)) -> is_segment_char c = true.
Proof.
  intros H. apply UtilsFacts.u_In_map_string in H as (d & _ & ->).
  destruct (is_segment_char d) eqn:E; [exact E|reflexivity].
Qed.

Lemma cc_no_slash s :
  (forall c, In c (list_ascii_of_string s) -> is_segment_char c = true) -> has_char "/" s = false.
Proof.
  induction s as [|c s IH]; intros H; cbn [has_char]; [reflexivity|].
  destruct (Ascii.eqb_spec "/" c) as [<-|_].
  - specialize (H "/"%char (or_introl eq_refl)). discriminate.
  - apply IH. intros d Hd. exact (H d (or_intror Hd)).
Qed.

Lemma cc_repoKey_chars repo c :
  In c (list_ascii_of_string (repoKey repo)) -> is_segment_char c = true.
Proof.
  unfold repoKey. rewrite !UtilsFacts.u_chars_app. intros H.
  repeat (apply in_app_or in H as [H|H]; [try (now apply cc_segment_chars in H);
    destruct H as [<-|[<-|[]]]; reflexivity|]).
  now apply cc_segment_chars in H.
Qed.

Lemma cc_trim_keeps s c :
  In c (list_ascii_of_string s) -> MetaIndex.is_js_space c = false ->
  MetaIndex.trim s <> "".
Proof.
  intros H Hsp E.
  assert (Hs : forall t, In c (list_ascii_of_string t) ->
             In c (list_ascii_of_string (MetaIndex.trim_start t))).
  { intros t Ht. induction t as [|d t IH]; [destruct Ht|]. cbn [MetaIndex.trim_start].
    destruct (MetaIndex.is_js_space d) eqn:Edd; [|exact Ht].
    destruct Ht as [<-|Ht]; [congruence|exact (IH Ht)]. }
  unfold MetaIndex.trim in E.
  change (rev_string (MetaIndex.trim_start (rev_string (MetaIndex.trim_start s))) = "") in E.
  assert (Hc : In c (list_ascii_of_string
                 (rev_string (MetaIndex.trim_start (rev_string (MetaIndex.trim_start s)))))).
  { rewrite UtilsFacts.u_chars_rev, <- in_rev. apply Hs.
    rewrite UtilsFacts.u_chars_rev, <- in_rev. apply Hs; exact H. }
  rewrite E in Hc. destruct Hc.
Qed.

Lemma cc_resolveBranch_sep b x sep :
  MetaIndex.is_js_space sep = false -> resolveBranch (b ++ String sep x) = b ++ String sep x.
Proof.
  intros Hsp. unfold resolveBranch.
  destruct (String.eqb_spec (MetaIndex.trim (b ++ String sep x)) "") as [E|]; [|reflexivity].
  exfalso. apply (cc_trim_keeps (b ++ String sep x) sep); [|exact Hsp|exact E].
  rewrite UtilsFacts.u_chars_app. apply in_or_app. right. now left.
Qed.

Lemma cc_get0_rev_app a b : b <> "" -> String.get 0 (rev_string (a ++ b)) = String.get 0 (rev_string b).
Proof.
  intros Hb. rewrite cc_rev_app. rewrite !UtilsFacts.u_get0, UtilsFacts.u_chars_app, UtilsFacts.u_chars_rev.
  destruct b as [|c b]; [congruence|]. cbn [list_ascii_of_string rev].
  destruct (rev (list_ascii_of_string b)); reflexivity.
Qed.

Lemma cc_strip_trailing_id s :
  String.get 0 (rev_string s) <> Some "/"%char -> strip_trailing_slashes s = s.
Proof.
  intros H. unfold strip_trailing_slashes. rewrite cc_drop_slashes_id by exact H.
  apply UtilsFacts.u_rev_rev.
Qed.

Lemma cc_strip_trailing_one s :
  String.get 0 (rev_string s) <> Some "/"%char -> strip_trailing_slashes (s ++ "/") = s.
Proof.
  intros H. unfold strip_trailing_slashes. rewrite cc_rev_app. cbn [drop_slashes].
  change (rev_string "/") with "/". cbn [append drop_slashes Ascii.eqb].
  rewrite cc_drop_slashes_id by exact H. apply UtilsFacts.u_rev_rev.
Qed.

(** The cache directory of an asset is
    [<baseDir>gitgallery/cloud-cache/<repoKey>/<segment>], where neither
    the repository key nor the segment (the sanitized fingerprint) holds a
    slash: both consist of letters, digits, [_], [-] and [.] only. *)
Theorem ensureEntryDir_path (baseDir : string) (repo : RepoInfo) (fingerprint : string) :
  ensureEntryDir baseDir repo fingerprint =
    baseDir ++ "gitgallery/cloud-cache/" ++ repoKey repo ++ "/" ++ sanitizeSegment fingerprint /\
  forallb is_segment_char (list_ascii_of_string (repoKey repo)) = true /\
  forallb is_segment_char (list_ascii_of_string (sanitizeSegment fingerprint)) = true /\
  has_char "/" (repoKey repo) = false /\ has_char "/" (sanitizeSegment fingerprint) = false.
Proof.
  assert (Hk := cc_repoKey_chars repo). assert (Hs := cc_segment_chars fingerprint).
  split; [|split; [apply forallb_forall; exact Hk|split; [apply forallb_forall; exact Hs|
    split; apply cc_no_slash; assumption]]].
  assert (Hd : forall s, (forall c, In c (list_ascii_of_string s) -> is_segment_char c = true) ->
             drop_slashes s = s).
  { intros s Hc. apply cc_drop_slashes_id. intros E. apply UtilsFacts.u_get_In in E.
    specialize (Hc _ E). discriminate. }
  assert (Hne : repoKey repo <> "").
  { unfold repoKey. destruct (sanitizeSegment (owner repo)); discriminate. }
  assert (Hlast : forall a, String.get 0 (rev_string (a ++ repoKey repo)) <> Some "/"%char).
  { intros a. rewrite cc_get0_rev_app by exact Hne. intros E. apply UtilsFacts.u_get_In in E.
    rewrite UtilsFacts.u_chars_rev, <- in_rev in E. specialize (Hk _ E). discriminate. }
  assert (Hroot : ROOT_DIR baseDir = (baseDir ++ "gitgallery/cloud-cache") ++ "/").
  { unfold ROOT_DIR, normalizeDir. rewrite cc_rev_app. reflexivity. }
  unfold ensureEntryDir, repoDirectory, joinPath. rewrite Hroot.
  rewrite cc_strip_trailing_one by (rewrite cc_rev_app; discriminate).
  rewrite (Hd (repoKey repo) Hk), (Hd (sanitizeSegment fingerprint) Hs).
  rewrite cc_strip_trailing_id.
  2:{ rewrite <- JsStrFacts.sapp_assoc. apply Hlast. }
  rewrite !JsStrFacts.sapp_assoc. reflexivity.
Qed.

(** Branch names that differ only in a slash versus an underscore at the
    same place get the same repository key, hence the same cache
    directory and the same lock keys. *)
Theorem repoKey_branch_collision (owner name b x : string) :
  repoKey (mkRepoInfo owner name (b ++ "/" ++ x)) =
  repoKey (mkRepoInfo owner name (b ++ "_" ++ x)).
Proof.
  unfold repoKey. cbn [CloudCachePaths.branch CloudCachePaths.owner CloudCachePaths.name].
  change ("/" ++ x) with (String "/" x). change ("_" ++ x) with (String "_" x).
  rewrite !cc_resolveBranch_sep by reflexivity.
  unfold sanitizeSegment. rewrite !UtilsFacts.u_map_string_app. reflexivity.
Qed.

End CloudCacheFacts.

Module EmitterFacts.
Import Emitter.

Definition subs_of (e : string) (l : Listeners) : list Subscription :=
  match MetaIndex.map_get e l with Some s => s | None => [] end.

Definition cnt (cb : nat) (o : bool) (subs : list Subscription) : nat :=
  length (filter (fun s => (Nat.eqb (callback s) cb && Bool.eqb (once_flag s) o)%bool) subs).

(** The calls of [cb] for [e] as a function of how many [on] and [once]
    subscriptions of [cb] to [e] are live. *)
Fixpoint model (e : string) (cb : nat) (a b : nat) (ops : list Op) : nat :=
  match ops with
  | [] => 0
  | OpOn e' c :: r =>
      if (String.eqb e' e && Nat.eqb c cb)%bool then model e cb (S a) b r else model e cb a b r
  | OpOnce e' c :: r =>
      if (String.eqb e' e && Nat.eqb c cb)%bool then model e cb a (S b) r else model e cb a b r
  | OpOff e' c :: r =>
      if (String.eqb e' e && Nat.eqb c cb)%bool then model e cb 0 0 r else model e cb a b r
  | OpEmit e' :: r => if String.eqb e' e then a + b + model e cb a 0 r else model e cb a b r
  | OpClear :: r => model e cb 0 0 r
  end.

Lemma em_subs_set e e' v l :
  subs_of e (MetaIndex.map_set e' v l) = if String.eqb e' e then v else subs_of e l.
Proof. unfold subs_of. rewrite MetaIndexFacts.map_get_set. now destruct (String.eqb e' e). Qed.

Lemma em_cnt_app cb o a b : cnt cb o (a ++ b) = cnt cb o a + cnt cb o b.
Proof. unfold cnt. rewrite filter_app, length_app. reflexivity. Qed.

Lemma em_cnt_filter_off cb c o s :
  cnt cb o (filter (fun x => negb (Nat.eqb (callback x) c)) s) =
  if Nat.eqb c cb then 0 else cnt cb o s.
Proof.
  unfold cnt. destruct (Nat.eqb_spec c cb) as [<-|Hc];
    induction s as [|x s IH]; cbn; try reflexivity.
  - destruct (Nat.eqb_spec (callback x) c) as [Hx|Hx]; cbn; [exact IH|].
    rewrite (proj2 (Nat.eqb_neq _ _) Hx). cbn. exact IH.
  - destruct (Nat.eqb_spec (callback x) c) as [Hx|Hx]; cbn.
    + rewrite Hx, (proj2 (Nat.eqb_neq _ _) Hc). cbn. exact IH.
    + destruct (Nat.eqb (callback x) cb && Bool.eqb (once_flag x) o)%bool; cbn; rewrite IH; reflexivity.
Qed.

Lemma em_cnt_filter_once cb o s :
  cnt cb o (filter (fun x => negb (once_flag x)) s) = if o then 0 else cnt cb o s.
Proof.
  unfold cnt. destruct o; induction s as [|x s IH]; cbn; try reflexivity;
    destruct (once_flag x) eqn:Ex; cbn; rewrite ?Ex, ?andb_false_r, ?andb_true_r; try exact IH;
    destruct (Nat.eqb (callback x) cb); cbn; rewrite ?IH; reflexivity.
Qed.

Lemma em_times_app e cb a b : times_called e cb (a ++ b) = times_called e cb a + times_called e cb b.
Proof. unfold times_called. rewrite filter_app, length_app. reflexivity. Qed.

Lemma em_times_emit e e' cb subs :
  times_called e cb (map (fun c => (e', c)) (map callback subs)) =
  if String.eqb e' e then cnt cb false subs + cnt cb true subs else 0.
Proof.
  unfold times_called, cnt. destruct (String.eqb e' e) eqn:Ee;
    induction subs as [|x s IH]; cbn; rewrite ?Ee; try reflexivity; cbn; [|exact IH].
  destruct (Nat.eqb (callback x) cb), (once_flag x); cbn; rewrite IH; lia.
Qed.

Lemma em_run_cons op r l :
  fst (run (op :: r) l) = (fst (step op l) ++ fst (run r (snd (step op l))))%list.
Proof. cbn [run]. destruct (step op l) as [c l1]. cbn. destruct (run r l1). reflexivity. Qed.

Lemma em_step_emit e' l :
  step (OpEmit e') l = (map (fun c => (e', c)) (map callback (subs_of e' l)),
    match MetaIndex.map_get e' l with
    | None | Some [] => l
    | Some subs => MetaIndex.map_set e' (filter (fun s => negb (once_flag s)) subs) l
    end).
Proof. unfold step, emit, subs_of. destruct (MetaIndex.map_get e' l) as [[|x s]|]; reflexivity. Qed.

Lemma em_run_model e cb : forall ops l,
  times_called e cb (fst (run ops l)) =
  model e cb (cnt cb false (subs_of e l)) (cnt cb true (subs_of e l)) ops.
Proof.
  induction ops as [|op r IH]; intros l; [reflexivity|].
  rewrite em_run_cons, em_times_app, IH.
  destruct op as [e' c|e' c|e' c|e'|]; cbn [model].
  - cbn [step fst snd]. unfold on. rewrite em_subs_set. change (match MetaIndex.map_get e' l with
      Some s => s | None => [] end) with (subs_of e' l).
    destruct (String.eqb_spec e' e) as [<-|]; cbn [andb];
      [|reflexivity].
    rewrite !em_cnt_app. cbn.
    destruct (Nat.eqb c cb); cbn; rewrite ?Nat.add_0_r, ?Nat.add_1_r; reflexivity.
  - cbn [step fst snd]. unfold once. rewrite em_subs_set. change (match MetaIndex.map_get e' l with
      Some s => s | None => [] end) with (subs_of e' l).
    destruct (String.eqb_spec e' e) as [<-|]; cbn [andb];
      [|reflexivity].
    rewrite !em_cnt_app. cbn.
    destruct (Nat.eqb c cb); cbn; rewrite ?Nat.add_0_r, ?Nat.add_1_r; reflexivity.
  - cbn [step fst snd]. unfold off.
    destruct (MetaIndex.map_get e' l) as [subs|] eqn:Eg.
    + rewrite em_subs_set. destruct (String.eqb_spec e' e) as [<-|]; cbn [andb]; [|reflexivity].
      unfold subs_of. rewrite Eg. rewrite !em_cnt_filter_off.
      destruct (Nat.eqb c cb); reflexivity.
    + destruct (String.eqb_spec e' e) as [<-|]; cbn [andb]; [|reflexivity].
      unfold subs_of. rewrite Eg. cbn. destruct (Nat.eqb c cb); reflexivity.
  - rewrite em_step_emit. cbn [fst snd]. rewrite em_times_emit.
    destruct (MetaIndex.map_get e' l) as [[|x s]|] eqn:Eg.
    + destruct (String.eqb_spec e' e) as [<-|]; [|reflexivity].
      unfold subs_of. rewrite Eg. reflexivity.
    + rewrite em_subs_set. destruct (String.eqb_spec e' e) as [<-|]; [|reflexivity].
      unfold subs_of. rewrite Eg. rewrite !em_cnt_filter_once. lia.
    + destruct (String.eqb_spec e' e) as [<-|]; [|reflexivity].
      unfold subs_of. rewrite Eg. reflexivity.
  - reflexivity.
Qed.

Lemma em_emits_cons e op r :
  emits e (op :: r) =
  (match op with OpEmit e' => if String.eqb e' e then 1 else 0 | _ => 0 end) + emits e r.
Proof. unfold emits. cbn [filter]. destruct op; try reflexivity. now destruct (String.eqb _ e). Qed.

Lemma em_model_quiet e cb a : forall rest b,
  existsb (touches e cb) rest = false ->
  model e cb a b rest = a * emits e rest + (if Nat.eqb (emits e rest) 0 then 0 else b).
Proof.
  induction rest as [|op r IH]; intros b H; [cbn; lia|].
  cbn [existsb] in H. apply orb_false_iff in H as [Ht Hr].
  rewrite em_emits_cons.
  destruct op as [e' c|e' c|e' c|e'|]; cbn [touches] in Ht; cbn [model]; rewrite ?Ht; try discriminate;
    try (apply IH; exact Hr).
  destruct (String.eqb e' e); [|apply IH; exact Hr].
  rewrite IH by exact Hr. destruct (Nat.eqb (emits e r) 0); cbn; lia.
Qed.

Lemma em_model_off e cb : forall rest,
  existsb (subscribes e cb) rest = false -> model e cb 0 0 rest = 0.
Proof.
  induction rest as [|op r IH]; intros H; [reflexivity|].
  cbn [existsb] in H. apply orb_false_iff in H as [Ht Hr].
  destruct op as [e' c|e' c|e' c|e'|]; cbn [subscribes] in Ht; cbn [model]; rewrite ?Ht;
    try (apply IH; exact Hr).
  - destruct (_ && _)%bool; apply IH; exact Hr.
  - destruct (String.eqb e' e); [cbn; apply IH; exact Hr|apply IH; exact Hr].
Qed.

Lemma em_fresh_cnt e cb l o :
  (forall subs, MetaIndex.map_get e l = Some subs -> forall s, In s subs -> callback s <> cb) ->
  cnt cb o (subs_of e l) = 0.
Proof.
  intros H. unfold subs_of. destruct (MetaIndex.map_get e l) as [subs|]; [|reflexivity].
  specialize (H subs eq_refl). unfold cnt. induction subs as [|x s IH]; [reflexivity|]. cbn.
  rewrite (proj2 (Nat.eqb_neq _ _) (H x (or_introl eq_refl))). cbn.
  apply IH. intros y Hy. exact (H y (or_intror Hy)).
Qed.

(** A callback not yet subscribed to [event] and registered with
    [once(event, cb)] is called exactly once if some later [emit(event)]
    happens and never otherwise; registered with [on(event, cb)] it is
    called once for every later [emit(event)]; this holds as long as no
    later call subscribes or unsubscribes [cb] for [event] or clears the
    emitter. *)
Theorem emitter_once_and_on (event : string) (cb : nat) (l : Listeners) (rest : list Op)
  (Hfresh : forall subs, MetaIndex.map_get event l = Some subs ->
              forall s, In s subs -> callback s <> cb)
  (Hrest : existsb (touches event cb) rest = false) :
  times_called event cb (fst (run (OpOnce event cb :: rest) l)) = Nat.min 1 (emits event rest) /\
  times_called event cb (fst (run (OpOn event cb :: rest) l)) = emits event rest.
Proof.
  rewrite !em_run_model, !em_fresh_cnt by exact Hfresh. cbn [model].
  rewrite String.eqb_refl, Nat.eqb_refl. cbn [andb].
  rewrite !em_model_quiet by exact Hrest.
  destruct (emits event rest) as [|n]; cbn; lia.
Qed.

Lemma emitter_once_and_on_witness :
  times_called "completion" 7
    (fst (run [OpOnce "completion" 7; OpEmit "completion"; OpOn "completion" 8;
               OpEmit "completion"] [])) = 1.
Proof.
  pose proof (emitter_once_and_on "completion" 7 []
    [OpEmit "completion"; OpOn "completion" 8; OpEmit "completion"]) as H.
  refine (eq_trans (proj1 (H _ _)) _).
  - intros subs Hs. discriminate.
  - reflexivity.
  - reflexivity.
Defined.

(** [off(event, cb)], which is also what the function returned by [on] or
    [once] calls, removes every subscription of [cb] to [event], however
    many [on] and [once] calls made them: no later [emit(event)] calls
    [cb] until it subscribes to [event] again. *)
Theorem emitter_off_silences (event : string) (cb : nat) (l : Listeners) (rest : list Op)
  (Hrest : existsb (subscribes event cb) rest = false) :
  times_called event cb (fst (run (OpOff event cb :: rest) l)) = 0.
Proof.
  rewrite em_run_model. cbn [model]. rewrite String.eqb_refl, Nat.eqb_refl. cbn [andb].
  exact (em_model_off event cb rest Hrest).
Qed.

Lemma emitter_off_silences_witness :
  times_called "completion" 7
    (fst (run [OpOff "completion" 7; OpEmit "completion"; OpClear; OpEmit "completion"]
      [("completion", [mkSubscription 7 false; mkSubscription 7 false; mkSubscription 7 true])])) = 0.
Proof. apply emitter_off_silences. reflexivity. Defined.

End EmitterFacts.

Module MetaIndexMore.
Import QArith MetaIndex MetaIndexFacts.
Local Open Scope nat_scope.

(** The upload time an entry is sorted by ([uploadedAt ?? 0]), as a rational. *)
Definition uploaded_q (e : MetaShardEntry) : Q :=
  match uploaded_or_zero e with NFin q => q | _ => 0%Q end.

(** The order [getCachedMetaEntries] sorts by: newer uploads first. *)
Definition newer_first (a b : MetaShardEntry) : Prop := (uploaded_q b <= uploaded_q a)%Q.

(** A normalised manifest row: a sanitised bucket key, a non-empty shard
    path and finite counters. *)
Definition manifest_row_ok (kv : string * ManifestShardInfo) : Prop :=
  sanitizeBucket (fst kv) = fst kv /\ info_path (snd kv) <> "" /\
  isFinite (info_count (snd kv)) = true /\ isFinite (info_updatedAt (snd kv)) = true.

(** A reloaded index: the cache rebuilt from the manifest, its shard not
    yet fetched. *)
Definition mx_reloaded_world : World :=
  snd (ensureBaseState (snd (invalidateMetaCache c8_ok_world))).

(** Three cached entries uploaded at 5, 9 and 7. *)
Definition mx_meta : MetaState :=
  mkMetaState None
    [shard_entry_for (photo "a" "p/a" "1" None 5) 0;
     shard_entry_for (photo "b" "p/b" "2" None 9) 0;
     shard_entry_for (photo "c" "p/c" "3" None 7) 0] [] [] [] [].

Lemma mx_digits_n_spec n s d r :
  digits_n n s = Some (d, r) ->
  s = d ++ r /\ String.length d = n /\ (forall c, In c (list_ascii_of_string d) -> is_digit c = true).
Proof.
  revert s d r; induction n as [|n IH]; intros s d r H; cbn [digits_n] in H.
  - injection H as <- <-. split; [reflexivity|]. split; [reflexivity|]. intros c [].
  - destruct s as [|c s]; [discriminate|].
    destruct (is_digit c) eqn:Ec; [|discriminate].
    destruct (digits_n n s) as [[d' r']|] eqn:E; [|discriminate].
    injection H as <- <-. destruct (IH _ _ _ E) as (-> & Hl & Hd).
    split; [reflexivity|split; [cbn; now rewrite Hl|]].
    intros c' [<-|Hc]; [exact Ec|exact (Hd c' Hc)].
Qed.

Lemma mx_digits_n_app n d r :
  String.length d = n -> (forall c, In c (list_ascii_of_string d) -> is_digit c = true) ->
  digits_n n (d ++ r) = Some (d, r).
Proof.
  revert n; induction d as [|c d IH]; intros n Hl Hd; cbn in Hl; subst n; cbn [digits_n].
  - reflexivity.
  - cbn [append]. rewrite (Hd c (or_introl eq_refl)).
    rewrite (IH _ eq_refl (fun c' Hc => Hd c' (or_intror Hc))). reflexivity.
Qed.

Lemma mx_prefix_app p s : String.prefix p (p ++ s) = true.
Proof. induction p as [|c p IH]; cbn; [destruct s; reflexivity|]. destruct (ascii_dec c c); congruence. Qed.

Lemma mx_substring_all s m : String.length s <= m -> substring 0 m s = s.
Proof.
  revert m; induction s as [|c s IH]; intros [|m] Hm; cbn in *; try lia; try reflexivity.
  f_equal. apply IH. lia.
Qed.

Lemma mx_substring_skip a b n m : substring (String.length a + n) m (a ++ b) = substring n m b.
Proof. induction a as [|c a IH]; [reflexivity|]. cbn. exact IH. Qed.

Lemma mx_substring_prefix a b : substring 0 (String.length a) (a ++ b) = a.
Proof. induction a as [|c a IH]; [destruct b; reflexivity|]. cbn. now rewrite IH. Qed.

Lemma mx_length_app a b : String.length (a ++ b) = String.length a + String.length b.
Proof. induction a as [|c a IH]; cbn; [reflexivity|now rewrite IH]. Qed.

Lemma mx_strip_prefix_app p s : strip_prefix p (p ++ s) = Some s.
Proof.
  unfold strip_prefix. rewrite mx_prefix_app. f_equal.
  rewrite <- (Nat.add_0_r (String.length p)), mx_substring_skip.
  apply mx_substring_all. rewrite mx_length_app. lia.
Qed.

Lemma mx_split_last_app a b : split_last (String.length b) (a ++ b) = (a, b).
Proof.
  unfold split_last. rewrite mx_length_app.
  replace (String.length a + String.length b - String.length b) with (String.length a) by lia.
  rewrite mx_substring_prefix.
  rewrite <- (Nat.add_0_r (String.length a)). rewrite mx_substring_skip, mx_substring_all by lia.
  reflexivity.
Qed.

Lemma mx_sanitize_fixed s :
  (forall c, In c (list_ascii_of_string s) -> sanitize_char c = c) -> s <> "" -> sanitizeBucket s = s.
Proof.
  intros H Hne. assert (Hm : map_string sanitize_char s = s) by exact (UtilsFacts.u_map_string_id _ _ H).
  assert (Ht : trim s = s) by (pose proof (trim_sanitized s) as T; rewrite Hm in T; exact T).
  unfold sanitizeBucket. rewrite Ht, Hm.
  destruct (String.eqb_spec s ""); [contradiction|reflexivity].
Qed.

Lemma mx_sanitized_chars b c :
  In c (list_ascii_of_string (sanitizeBucket b)) -> sanitize_char c = c.
Proof.
  unfold sanitizeBucket. destruct (String.eqb _ "").
  - intros H. repeat (destruct H as [<-|H]; [reflexivity|]). destruct H.
  - intros H. apply map_string_In in H as [c0 ->]. apply sanitize_char_idem.
Qed.

Lemma mx_sanitized_nonempty b : sanitizeBucket b <> "".
Proof. unfold sanitizeBucket. destruct (String.eqb_spec (map_string sanitize_char (trim b)) ""); congruence. Qed.

Lemma mx_fixed_not_special c : sanitize_char c = c -> c <> "092"%char /\ is_line_terminator c = false.
Proof.
  intros H. split.
  - intros ->. discriminate H.
  - destruct (is_line_terminator c) eqn:E; [|reflexivity].
    unfold is_line_terminator in E. apply orb_true_iff in E.
    destruct E as [E|E]; apply Ascii.eqb_eq in E; subst c; discriminate H.
Qed.

Lemma mx_digit_fixed c : is_digit c = true -> sanitize_char c = c.
Proof. intros H. unfold sanitize_char. rewrite H. reflexivity. Qed.

Lemma mx_norm_id p :
  Forall (fun c => Ascii.eqb c "092"%char = false) (list_ascii_of_string p) ->
  map_string (fun c => if Ascii.eqb c "092"%char then "/"%char else c) p = p.
Proof.
  intros H. apply UtilsFacts.u_map_string_id. intros c Hc.
  rewrite (proj1 (Forall_forall _ _) H c Hc). reflexivity.
Qed.

Lemma mx_fixed_not_bs c : sanitize_char c = c -> Ascii.eqb c "092"%char = false.
Proof.
  intros H. destruct (Ascii.eqb_spec c "092"%char); [|reflexivity].
  exfalso. exact (proj1 (mx_fixed_not_special _ H) e).
Qed.

(** Splits a [Forall] over the characters of a concatenation of
    concrete strings and variable parts, closing each part with [tac]. *)
Ltac mx_forall_chars tac :=
  rewrite ?UtilsFacts.u_chars_app;
  repeat first [ apply Forall_app; split
               | apply Forall_nil
               | apply Forall_cons; [reflexivity|]
               | apply Forall_forall; let c := fresh in let Hc := fresh in intros c Hc; tac c Hc ].

Lemma mx_sapp_nil s : s ++ "" = s.
Proof. induction s as [|c s IH]; cbn; [reflexivity|now rewrite IH]. Qed.

(** *** Cached entries *)

Lemma mx_insert_perm x l : Permutation (insert_uploaded x l) (x :: l).
Proof.
  induction l as [|y l IH]; cbn [insert_uploaded]; [reflexivity|].
  destruct (num_positive _); [reflexivity|].
  rewrite IH. apply perm_swap.
Qed.

Lemma mx_fold_insert_perm l acc :
  Permutation (fold_left (fun acc e => insert_uploaded e acc) l acc) (l ++ acc).
Proof.
  revert acc; induction l as [|x l IH]; intros acc; cbn [fold_left]; [reflexivity|].
  rewrite IH, mx_insert_perm. symmetry. apply Permutation_middle.
Qed.

Lemma mx_fin e : isFinite (uploaded_or_zero e) = true -> uploaded_or_zero e = NFin (uploaded_q e).
Proof. unfold uploaded_q. destruct (uploaded_or_zero e); cbn; congruence. Qed.

Lemma mx_positive_sub x y :
  isFinite (uploaded_or_zero x) = true -> isFinite (uploaded_or_zero y) = true ->
  num_positive (num_sub (uploaded_or_zero x) (uploaded_or_zero y)) = negb (Qle_bool (uploaded_q x) (uploaded_q y)).
Proof.
  intros Hx Hy. rewrite (mx_fin x Hx), (mx_fin y Hy). cbn [num_sub num_positive]. f_equal.
  destruct (Qle_bool (uploaded_q x - uploaded_q y) 0) eqn:E1, (Qle_bool (uploaded_q x) (uploaded_q y)) eqn:E2;
    try reflexivity; exfalso.
  - apply Qle_bool_iff in E1. apply Bool.not_true_iff_false in E2. apply E2, Qle_bool_iff.
    apply (Qplus_le_l _ _ (- uploaded_q y)). rewrite Qplus_opp_r. exact E1.
  - apply Qle_bool_iff in E2. apply Bool.not_true_iff_false in E1. apply E1, Qle_bool_iff.
    apply (Qplus_le_l _ _ (uploaded_q y)).
    setoid_replace (uploaded_q x - uploaded_q y + uploaded_q y)%Q with (uploaded_q x) by ring.
    setoid_replace (0 + uploaded_q y)%Q with (uploaded_q y) by ring. exact E2.
Qed.

Lemma mx_insert_sorted x l :
  isFinite (uploaded_or_zero x) = true -> Forall (fun e => isFinite (uploaded_or_zero e) = true) l ->
  Sorted newer_first l -> Sorted newer_first (insert_uploaded x l).
Proof.
  intros Hx; induction l as [|y l IH]; intros Hl Hs; cbn [insert_uploaded]; [repeat constructor|].
  inversion Hl as [|? ? Hy Hl']; subst.
  rewrite (mx_positive_sub x y Hx Hy).
  destruct (Qle_bool (uploaded_q x) (uploaded_q y)) eqn:E; cbn [negb].
  - apply Qle_bool_iff in E. apply Sorted_inv in Hs as [Hs Hh].
    constructor; [exact (IH Hl' Hs)|].
    destruct l as [|z l]; cbn [insert_uploaded]; [constructor; exact E|].
    inversion Hl' as [|? ? Hz _]; subst.
    destruct (num_positive _); constructor; [exact E|]. inversion Hh; assumption.
  - constructor; [exact Hs|]. constructor. unfold newer_first.
    apply Qlt_le_weak, Qnot_le_lt. intros Hle. apply Bool.not_true_iff_false in E. apply E, Qle_bool_iff, Hle.
Qed.

Lemma mx_fold_sorted l acc :
  Forall (fun e => isFinite (uploaded_or_zero e) = true) l ->
  Forall (fun e => isFinite (uploaded_or_zero e) = true) acc ->
  Sorted newer_first acc -> Sorted newer_first (fold_left (fun acc e => insert_uploaded e acc) l acc).
Proof.
  revert acc; induction l as [|x l IH]; intros acc Hl Hacc Hs; cbn [fold_left]; [exact Hs|].
  inversion Hl as [|? ? Hx Hl']; subst. apply IH; [exact Hl'| |].
  - apply (Permutation_Forall (Permutation_sym (mx_insert_perm x acc))). constructor; assumption.
  - apply mx_insert_sorted; assumption.
Qed.

(** *** Loading every shard *)

Lemma mx_esl_step b w key w' :
  cache (meta w) <> None -> ensureShardLoaded b w = (inl key, w') ->
  key = sanitizeBucket b /\ cache (meta w') <> None /\
  (exists s, shard_of key w' = Some s /\ shard_loaded s = true /\ shard_doc s <> None) /\
  (forall k, k <> key -> shard_of k w' = shard_of k w).
Proof.
  intros Hc H.
  assert (Ec : exists c, cache (meta w) = Some c) by (destruct (cache (meta w)); [eauto|congruence]).
  destruct Ec as [c Ec].
  unfold ensureShardLoaded in H. binv H as st w0 E0.
  rewrite (ensureBaseState_cached w c Ec) in E0. injection E0 as <- <-.
  binv H as s0 w1 E1. apply shard_at_inl in E1 as [-> ->].
  binv H as shard w2 E2.
  assert (Hs : shard_of (sanitizeBucket b) w2 = Some shard /\ cache (meta w2) <> None /\
               forall k, k <> sanitizeBucket b -> shard_of k w2 = shard_of k w).
  { destruct (shard_of (sanitizeBucket b) w) as [s|] eqn:Es.
    - apply ret_inl in E2 as [-> ->]. split; [exact Es|split; [exact Hc|reflexivity]].
    - binv E2 as u w3 E3. apply put_shard_inl in E3 as [Hc' [_ Hk]]; [|exact Hc].
      apply ret_inl in E2 as [-> ->]. rewrite Hk, String.eqb_refl. split; [reflexivity|split; [exact Hc'|]].
      intros k Hne. rewrite Hk. apply String.eqb_neq in Hne. rewrite String.eqb_sym, Hne. reflexivity. }
  clear E2. destruct Hs as [Hs [Hc2 Hoth]].
  destruct (shard_loaded shard) eqn:El, (shard_doc shard) as [d0|] eqn:Ed.
  2, 3, 4:
    binv H as ds w3 E3;
    pose proof (fetchShardDocument_world (sanitizeBucket b) (shard_path shard) w2) as Ew;
    rewrite E3 in Ew; simpl in Ew; subst w3; destruct ds as [doc sha]; cbv beta iota in H;
    binv H as u4 w4 E4; apply put_shard_inl in E4 as [Hc4 [_ Hk4]]; [|exact Hc2];
    binv H as u5 w5 E5; apply modify_meta_inl in E5 as [Hc5 [_ Hk5]];
      [|intros m; destruct (_ <? _)%nat; [apply ingestShardDocument_cache | apply evictBucketEntries_cache]];
    binv H as u6 w6 E6; apply markManifestEntry_inl in E6 as [Hc6 [_ Hk6]];
    apply ret_inl in H as [-> ->];
    (split; [reflexivity|]);
    (split; [apply Hc6; rewrite Hc5; exact Hc4|]);
    (split; [eexists; rewrite Hk6, Hk5, Hk4, String.eqb_refl; split; [reflexivity|split; [reflexivity|discriminate]]|]);
    intros k Hne; rewrite Hk6, Hk5, Hk4;
    (destruct (String.eqb_spec (sanitizeBucket b) k); [congruence|]);
    exact (Hoth k Hne).
  apply ret_inl in H as [-> ->]. split; [reflexivity|]. split; [exact Hc2|].
  split; [exists shard; split; [exact Hs|split; [exact El|rewrite Ed; discriminate]]|].
  exact Hoth.
Qed.

Lemma mx_load_loop l : forall w a w',
  foldM (fun _ bucket => let* _ := ensureShardLoaded bucket in ret tt) l tt w = (inl a, w') ->
  cache (meta w) <> None -> (forall b, In b l -> sanitizeBucket b = b) ->
  cache (meta w') <> None /\
  (forall b, In b l -> exists s, shard_of b w' = Some s /\ shard_loaded s = true /\ shard_doc s <> None) /\
  (forall k, ~ In k l -> shard_of k w' = shard_of k w).
Proof.
  induction l as [|x l IH]; intros w a w' H Hc Hsan; cbn [foldM] in H.
  - apply ret_inl in H as [_ ->]. split; [exact Hc|]. split; [intros b []|]. reflexivity.
  - binv H as u w1 E1. binv E1 as key w0 E0. apply ret_inl in E1 as [-> ->].
    destruct (mx_esl_step x w key w0 Hc E0) as (-> & Hc0 & Hload & Hoth).
    rewrite (Hsan x (or_introl eq_refl)) in Hload, Hoth.
    destruct (IH w0 a w' H Hc0 (fun b Hb => Hsan b (or_intror Hb))) as (Hc' & Hl' & Ho').
    split; [exact Hc'|]. split.
    + intros b [<-|Hb]; [|exact (Hl' b Hb)].
      destruct (in_dec String.string_dec x l) as [Hin|Hnin]; [exact (Hl' x Hin)|].
      rewrite (Ho' x Hnin). exact Hload.
    + intros k Hk. rewrite (Ho' k (fun Hin => Hk (or_intror Hin))).
      apply Hoth. intros ->. exact (Hk (or_introl eq_refl)).
Qed.

Lemma mx_insert_fresh_perm x l : Permutation (insert_fresh x l) (x :: l).
Proof.
  induction l as [|y l IH]; cbn [insert_fresh]; [reflexivity|].
  destruct (num_positive _); [reflexivity|].
  rewrite IH. apply perm_swap.
Qed.

Lemma mx_sortBuckets_In ss b :
  In b (sortBucketsByFreshness ss) <-> exists s, In s ss /\ shard_bucket s = b.
Proof.
  assert (Hp : forall l acc, Permutation (fold_left (fun acc s => insert_fresh s acc) l acc) (l ++ acc)).
  { induction l as [|x l IH]; intros acc; cbn [fold_left]; [reflexivity|].
    rewrite IH, mx_insert_fresh_perm. symmetry. apply Permutation_middle. }
  unfold sortBucketsByFreshness. rewrite in_map_iff. split.
  - intros (s & <- & Hs). exists s. split; [|reflexivity].
    apply (Permutation_in _ (Hp ss [])) in Hs. rewrite app_nil_r in Hs. exact Hs.
  - intros (s & Hs & <-). exists s. split; [reflexivity|].
    apply (Permutation_in _ (Permutation_sym (Hp ss []))). rewrite app_nil_r. exact Hs.
Qed.

(** *** Bucket names and the manifest *)

Lemma mx_fixed_class c :
  sanitize_char c = c ->
  (is_digit c || (N.leb 97 (N_of_ascii c) && N.leb (N_of_ascii c) 122) || Ascii.eqb c "-")%bool = true.
Proof.
  destruct c as [[] [] [] [] [] [] [] []]; vm_compute; intros H; first [reflexivity | discriminate H].
Qed.

Lemma mx_getShardPath_nonempty b : getShardPath b <> "".
Proof.
  unfold getShardPath. destruct (bucketDateParts b) as [[[y m] d]|]; [discriminate|].
  destruct (String.eqb b "unknown"); discriminate.
Qed.

Lemma mx_toNumber_finite v n : isFinite n = true -> isFinite (toNumber v n) = true.
Proof. intros H. unfold toNumber. destruct v as [| | |[]| | |]; try reflexivity; exact H. Qed.

Lemma mx_fold_normalize_info l acc :
  NoDup (map fst acc) -> Forall manifest_row_ok acc ->
  NoDup (map fst (fold_left normalize_info l acc)) /\ Forall manifest_row_ok (fold_left normalize_info l acc).
Proof.
  revert acc; induction l as [|[key raw] l IH]; intros acc Hn Hf; cbn [fold_left]; [auto|].
  apply IH; unfold normalize_info; destruct (not_object raw); try assumption.
  - apply obj_set_NoDup. exact Hn.
  - apply obj_set_Forall; [exact Hf|]. unfold manifest_row_ok; cbn [fst snd info_path info_count info_updatedAt].
    split; [apply sanitizeBucket_idem|]. split; [|split; apply mx_toNumber_finite; reflexivity].
    destruct (is_nonempty_string (get_prop raw "path")) as [p|] eqn:E; [|apply mx_getShardPath_nonempty].
    unfold is_nonempty_string in E. destruct (get_prop raw "path"); try discriminate.
    destruct (String.eqb_spec s ""); [discriminate|]. injection E as <-. exact n.
Qed.

Lemma mx_tail_false r : uninterpolated_tail r = false.
Proof. unfold uninterpolated_tail. destruct (String.eqb_spec r ""); [subst|]; reflexivity. Qed.

Lemma mx_dated_none s : dated_shard_bucket s = None.
Proof.
  unfold dated_shard_bucket.
  destruct (strip_prefix "gitgallery/meta/" s) as [r|]; [|reflexivity].
  destruct (digits_n 4 r) as [[y [|c1 r1]]|]; try reflexivity.
  destruct c1 as [[] [] [] [] [] [] [] []]; try reflexivity.
  destruct (digits_n 2 r1) as [[m [|c2 r2]]|]; try reflexivity.
  destruct c2 as [[] [] [] [] [] [] [] []]; try reflexivity.
  destruct (digits_n 2 r2) as [[d [|c3 r3]]|]; try reflexivity.
  destruct c3 as [[] [] [] [] [] [] [] []]; try reflexivity.
  cbv iota. rewrite mx_tail_false. reflexivity.
Qed.

Lemma mx_greedy_from_none k f r : (forall t, f t = false) -> greedy_from k f r = None.
Proof.
  intros Hf. induction k as [|k IH]; cbn [greedy_from]; [reflexivity|].
  rewrite Hf, andb_false_r. exact IH.
Qed.

Lemma mx_misc_rest_false t :
  (fun t => match t with String "/" f => uninterpolated_tail f | _ => false end) t = false.
Proof.
  cbv beta. destruct t as [|c f]; [reflexivity|].
  destruct c as [[] [] [] [] [] [] [] []]; try reflexivity. apply mx_tail_false.
Qed.

(** Only the legacy regex of [bucketFromShardFilePath] can match. *)
Lemma mx_bfsp_legacy p :
  bucketFromShardFilePath (Some p) =
  if String.eqb p "" then None else
  match strip_prefix "gitgallery/meta/shards/"
          (map_string (fun c => if Ascii.eqb c "092"%char then "/"%char else c) p) with
  | Some r => option_map sanitizeBucket (greedy_capture 5 (fun t => String.eqb t ".json") r)
  | None => None
  end.
Proof.
  unfold bucketFromShardFilePath. destruct (String.eqb p ""); [reflexivity|].
  rewrite mx_dated_none. cbn [or_else].
  destruct (strip_prefix "gitgallery/meta/unknown/" _) as [r|];
    [rewrite mx_tail_false|]; cbn [or_else];
  (destruct (strip_prefix "gitgallery/meta/shards/" _) as [r2|];
   [destruct (option_map sanitizeBucket _) as [x|]; cbn [or_else]; [reflexivity|] | cbn [or_else]]);
  (destruct (strip_prefix "gitgallery/meta/misc/" _) as [r'|]; [|reflexivity]);
  rewrite mx_greedy_from_none by apply mx_misc_rest_false; reflexivity.
Qed.

Lemma mx_prefix_inv p : forall s, String.prefix p s = true -> exists r, s = p ++ r.
Proof.
  induction p as [|c p IH]; intros s E.
  - exists s. reflexivity.
  - destruct s as [|c' s]; [discriminate|]. cbn in E. destruct (ascii_dec c c') as [<-|]; [|discriminate].
    destruct (IH s E) as [r ->]. exists r. reflexivity.
Qed.

Lemma mx_strip_prefix_inv p s r : strip_prefix p s = Some r -> s = p ++ r.
Proof.
  unfold strip_prefix. destruct (String.prefix p s) eqn:E; [|discriminate].
  intros H. injection H as <-. destruct (mx_prefix_inv p s E) as [r ->]. f_equal.
  rewrite <- (Nat.add_0_r (String.length p)) at 1. rewrite mx_substring_skip.
  symmetry. apply mx_substring_all. rewrite mx_length_app. lia.
Qed.

Lemma mx_substring_split k s :
  k <= String.length s -> substring 0 k s ++ substring k (String.length s - k) s = s.
Proof.
  revert k. induction s as [|c s IH]; intros k Hk.
  - destruct k; [reflexivity|cbn in Hk; lia].
  - destruct k as [|k].
    + cbn [substring append String.length]. rewrite Nat.sub_0_r. f_equal. apply mx_substring_all. lia.
    + cbn [substring append String.length Nat.sub]. f_equal. apply IH. cbn in Hk. lia.
Qed.

Lemma mx_substring_len k n s : k + n <= String.length s -> String.length (substring k n s) = n.
Proof.
  revert k n. induction s as [|c s IH]; intros k n Hk.
  - cbn in Hk. assert (k = 0 /\ n = 0) as [-> ->] by lia. reflexivity.
  - destruct k as [|k]; [destruct n as [|n]|]; cbn [substring String.length]; [reflexivity| |].
    + f_equal. apply IH. cbn in Hk. lia.
    + apply IH. cbn in Hk. lia.
Qed.

Lemma mx_greedy_capture_inv n f r mid :
  greedy_capture n f r = Some mid ->
  exists tail, r = mid ++ tail /\ String.length tail = n /\ f tail = true /\
               no_line_terminator mid = true /\ mid <> "".
Proof.
  unfold greedy_capture, split_last. destruct (n <? String.length r)%nat eqn:Hl; [|discriminate].
  apply Nat.ltb_lt in Hl.
  destruct (no_line_terminator (substring 0 (String.length r - n) r)) eqn:Hn; [|discriminate].
  destruct (f (substring (String.length r - n) n r)) eqn:Hf; [|discriminate].
  intros H. injection H as <-. exists (substring (String.length r - n) n r).
  assert (Hsub : String.length r - (String.length r - n) = n) by lia.
  split; [|split; [|split; [exact Hf|split; [exact Hn|]]]].
  - pose proof (mx_substring_split (String.length r - n) r ltac:(lia)) as E.
    rewrite Hsub in E. symmetry. exact E.
  - apply mx_substring_len. lia.
  - intros E. assert (Hlen : String.length (substring 0 (String.length r - n) r) = String.length r - n)
      by (apply mx_substring_len; lia).
    rewrite E in Hlen. cbn in Hlen. lia.
Qed.

(** getShardPath and bucketFromShardFilePath (metaIndex.ts): reading the
    bucket back from the path getShardPath gives for a bucket returns null
    for a date-shaped bucket and for unknown, whose paths end in
    meta_dict.json and are never matched, and returns the sanitised bucket
    for every other bucket, whose path is in the legacy flat layout. *)
Theorem getShardPath_parsed_back (bucket : string) :
  bucketFromShardFilePath (Some (getShardPath bucket)) =
  match bucketDateParts bucket with
  | Some _ => None
  | None => if String.eqb bucket "unknown" then None else Some (sanitizeBucket bucket)
  end.
Proof.
  unfold getShardPath. destruct (bucketDateParts bucket) as [[[y m] d]|] eqn:Ep.
  - unfold bucketDateParts in Ep.
    destruct (digits_n 4 bucket) as [[y' r1]|] eqn:E1; [|discriminate].
    apply mx_digits_n_spec in E1 as (_ & Hly & Hdy).
    destruct r1 as [|c1 r1]; [discriminate|].
    destruct c1 as [[] [] [] [] [] [] [] []]; try discriminate.
    destruct (digits_n 2 r1) as [[m' r2]|]; [|discriminate].
    destruct r2 as [|c2 r2]; [discriminate|].
    destruct c2 as [[] [] [] [] [] [] [] []]; try discriminate.
    destruct (digits_n 2 r2) as [[d' r3]|]; [|discriminate].
    destruct r3; [|discriminate].
    injection Ep as -> _ _.
    destruct y as [|c y]; [discriminate|].
    assert (Hc : is_digit c = true) by (apply Hdy; left; reflexivity).
    rewrite mx_bfsp_legacy.
    set (X := y ++ "/" ++ m ++ "/" ++ d ++ "/" ++ SHARD_FILENAME).
    change (META_ROOT ++ "/" ++ String c y ++ "/" ++ m ++ "/" ++ d ++ "/" ++ SHARD_FILENAME)
      with ("gitgallery/meta/" ++ String c X).
    cbn [String.eqb append map_string Ascii.eqb Bool.eqb andb].
    rewrite (mx_fixed_not_bs c (mx_digit_fixed c Hc)).
    unfold strip_prefix. cbn [String.prefix ascii_dec].
    destruct (ascii_dec "s" c) as [<-|Hne]; [discriminate Hc|]. reflexivity.
  - destruct (String.eqb_spec bucket "unknown") as [->|Hu]; [vm_compute; reflexivity|].
    set (s := sanitizeBucket bucket).
    assert (Hs : forall c, In c (list_ascii_of_string s) -> sanitize_char c = c)
      by (intros c; apply mx_sanitized_chars).
    set (P := "gitgallery/meta/shards/" ++ (s ++ ".json")).
    change (LEGACY_META_SHARD_DIR ++ "/" ++ s ++ ".json") with P.
    unfold bucketFromShardFilePath.
    rewrite (proj2 (String.eqb_neq P "")) by (unfold P; cbn; discriminate).
    rewrite mx_norm_id.
    2:{ unfold P. mx_forall_chars ltac:(fun c Hc => apply mx_fixed_not_bs; exact (Hs _ Hc)). }
    assert (Hd : dated_shard_bucket P = None) by reflexivity.
    assert (Hk : strip_prefix "gitgallery/meta/unknown/" P = None) by reflexivity.
    rewrite Hd. cbn [or_else]. rewrite Hk. cbn [or_else].
    unfold P. rewrite mx_strip_prefix_app. unfold greedy_capture.
    rewrite mx_length_app.
    assert (Hne : 0 < String.length s) by (unfold s; destruct (sanitizeBucket bucket) eqn:E; [exfalso; exact (mx_sanitized_nonempty bucket E)|cbn; lia]).
    replace (5 <? String.length s + String.length ".json")%nat with true by (symmetry; apply Nat.ltb_lt; cbn; lia).
    change 5%nat with (String.length ".json"). rewrite mx_split_last_app.
    assert (Hnl : no_line_terminator s = true).
    { unfold no_line_terminator. apply forallb_forall. intros c Hc.
      rewrite (proj2 (mx_fixed_not_special _ (Hs _ Hc))). reflexivity. }
    rewrite Hnl. cbn [andb String.eqb option_map Ascii.eqb Bool.eqb or_else]. unfold s. rewrite sanitizeBucket_idem. reflexivity.
Qed.

(** bucketFromShardFilePath (metaIndex.ts): a path gives a bucket only when,
    with its backslashes turned into slashes, it has the legacy form
    gitgallery/meta/shards/X.json with a non-empty X free of line
    terminators, and the bucket is then sanitizeBucket(X). Dated, unknown
    and misc shard paths are never recognised. *)
Theorem bucketFromShardFilePath_legacy_only (p b : string)
  (H : bucketFromShardFilePath (Some p) = Some b) :
  exists x, map_string (fun c => if Ascii.eqb c "092"%char then "/"%char else c) p
            = "gitgallery/meta/shards/" ++ x ++ ".json" /\
         x <> "" /\ no_line_terminator x = true /\ b = sanitizeBucket x.
Proof.
  rewrite mx_bfsp_legacy in H. destruct (String.eqb p ""); [discriminate|].
  destruct (strip_prefix _ _) as [r|] eqn:Es; [|discriminate].
  destruct (greedy_capture 5 _ r) as [x|] eqn:Eg; [|discriminate].
  injection H as <-. apply mx_strip_prefix_inv in Es.
  apply mx_greedy_capture_inv in Eg as (t & -> & _ & Ht & Hn & Hx).
  apply String.eqb_eq in Ht. subst t.
  exists x. auto.
Qed.

(** getCachedMetaEntries (metaIndex.ts): when every cached entry has a
    finite upload time, the entries are returned newest upload first and
    are exactly the cached entries (a permutation of them); a positive
    integer limit keeps that many of the first ones, and a zero or
    negative limit returns them all. *)
Theorem getCachedMetaEntries_sorted (m : MetaState)
  (Hfin : forall e, In e (map snd (metaByFingerprint m)) -> isFinite (uploaded_or_zero e) = true) :
  Permutation (getCachedMetaEntries None m) (map snd (metaByFingerprint m)) /\
  Sorted newer_first (getCachedMetaEntries None m) /\
  (forall k, (0 < k)%Z ->
     getCachedMetaEntries (Some (num_of_Z k)) m = firstn (Z.to_nat k) (getCachedMetaEntries None m)) /\
  (forall k, (k <= 0)%Z -> getCachedMetaEntries (Some (num_of_Z k)) m = getCachedMetaEntries None m).
Proof.
  split; [|split; [|split]].
  - unfold getCachedMetaEntries. rewrite mx_fold_insert_perm, app_nil_r. reflexivity.
  - apply mx_fold_sorted; [apply Forall_forall; exact Hfin|constructor|constructor].
  - intros k Hk. unfold getCachedMetaEntries at 1, num_of_Z. cbn [num_falsy].
    replace (Qeq_bool (inject_Z k) 0) with false
      by (symmetry; apply Bool.not_true_iff_false; intros E; apply Qeq_bool_eq in E;
          unfold Qeq in E; cbn in E; lia).
    replace (Qle_bool (inject_Z k) 0) with false
      by (symmetry; apply Bool.not_true_iff_false; intros E; apply Qle_bool_iff in E;
          unfold Qle in E; cbn in E; lia).
    unfold Qtrunc. replace (Qle_bool 0 (inject_Z k)) with true
      by (symmetry; apply Qle_bool_iff; unfold Qle; cbn; lia).
    cbn [Qnum Qden inject_Z]. rewrite Z.div_1_r. reflexivity.
  - intros k Hk. unfold getCachedMetaEntries at 1, num_of_Z. cbn [num_falsy].
    destruct (Qeq_bool (inject_Z k) 0); [reflexivity|].
    replace (Qle_bool (inject_Z k) 0) with true
      by (symmetry; apply Qle_bool_iff; unfold Qle; cbn; lia). reflexivity.
Qed.

(** ensureAllMetaShardsLoaded (metaIndex.ts): starting from a cached index
    whose shards are stored under their own sanitised bucket names, a
    successful run loads every shard of the cache with its document and adds
    or removes no shard. *)
Theorem ensureAllMetaShardsLoaded_loads w c a w'
  (Hc : cache (meta w) = Some c)
  (Hkeyed : forall k s, In (k, s) (cache_shards c) -> shard_bucket s = k /\ sanitizeBucket k = k)
  (H : ensureAllMetaShardsLoaded w = (inl a, w')) :
  forall k, (shard_of k w' <> None <-> shard_of k w <> None) /\
    (shard_of k w <> None ->
     exists s, shard_of k w' = Some s /\ shard_loaded s = true /\ shard_doc s <> None).
Proof.
  unfold ensureAllMetaShardsLoaded in H. binv H as st w0 E0.
  rewrite (ensureBaseState_cached w c Hc) in E0. injection E0 as <- <-.
  set (l := sortBucketsByFreshness (map snd (cache_shards c))) in H.
  assert (HA : forall b, In b l -> exists s, In (b, s) (cache_shards c)).
  { intros b Hb. apply mx_sortBuckets_In in Hb as (s & Hs & <-).
    apply in_map_iff in Hs as ([k s'] & <- & Hks). cbn [snd].
    destruct (Hkeyed k s' Hks) as [-> _]. eauto. }
  assert (Hsan : forall b, In b l -> sanitizeBucket b = b).
  { intros b Hb. destruct (HA b Hb) as [s Hs]. exact (proj2 (Hkeyed b s Hs)). }
  destruct (mx_load_loop l w a w' H ltac:(congruence) Hsan) as (_ & Hload & Hoth).
  assert (Hget : forall k, shard_of k w <> None <-> exists s, In (k, s) (cache_shards c)).
  { intros k. unfold shard_of. rewrite Hc. unfold map_get. split.
    - destruct (obj_lookup k (cache_shards c)) as [s|] eqn:E; [|congruence].
      intros _. exists s. exact (obj_lookup_In _ _ _ E).
    - intros [s Hs] E. apply (obj_lookup_None k _ E). apply in_map_iff. exists (k, s). auto. }
  intros k. destruct (in_dec String.string_dec k l) as [Hin|Hnin].
  - destruct (Hload k Hin) as (s & Hs & Hl). split; [split; intros _; [apply Hget; exact (HA k Hin)|congruence]|].
    intros _. exists s. auto.
  - rewrite (Hoth k Hnin). split; [tauto|]. intros Hk. exfalso. apply Hnin.
    apply Hget in Hk as [s Hs]. apply mx_sortBuckets_In. exists s. split.
    + apply in_map_iff. exists (k, s). auto.
    + exact (proj1 (Hkeyed k s Hs)).
Qed.

(** sanitizeBucket (metaIndex.ts): the result is never empty, consists only of
    digits, lowercase ASCII letters and dashes, and sanitising it again
    changes nothing. *)
Theorem sanitizeBucket_output (bucket : string) :
  sanitizeBucket bucket <> "" /\
  forallb (fun c => is_digit c || (N.leb 97 (N_of_ascii c) && N.leb (N_of_ascii c) 122) || Ascii.eqb c "-")%bool
    (list_ascii_of_string (sanitizeBucket bucket)) = true /\
  sanitizeBucket (sanitizeBucket bucket) = sanitizeBucket bucket.
Proof.
  split; [apply mx_sanitized_nonempty|]. split; [|apply sanitizeBucket_idem].
  apply forallb_forall. intros c Hc. apply mx_fixed_class, (mx_sanitized_chars bucket c Hc).
Qed.

(** normalizeManifest (metaIndex.ts): whatever the input, the shards of the
    normalised manifest have distinct keys, each key is a sanitised bucket
    name, each path is non-empty and the count and update time are finite
    numbers. *)
Theorem normalizeManifest_shards (t : number) (input : Val) :
  NoDup (map fst (manifest_shards (normalizeManifest t input))) /\
  Forall manifest_row_ok (manifest_shards (normalizeManifest t input)).
Proof.
  unfold normalizeManifest. cbn [manifest_shards].
  destruct (not_object _); [split; constructor|].
  apply mx_fold_normalize_info; constructor.
Qed.

Lemma ensureAllMetaShardsLoaded_loads_witness :
  exists s, shard_of "2024-01-02" (snd (ensureAllMetaShardsLoaded mx_reloaded_world)) = Some s /\
            shard_loaded s = true /\ shard_doc s <> None.
Proof.
  destruct (cache (meta mx_reloaded_world)) as [c|] eqn:Ec;
    [|vm_compute in Ec; discriminate Ec].
  pose proof Ec as Ec'. vm_compute in Ec'. injection Ec' as Ec'. subst c.
  refine (proj2 (ensureAllMetaShardsLoaded_loads mx_reloaded_world _ tt
                   (snd (ensureAllMetaShardsLoaded mx_reloaded_world)) Ec _ _ "2024-01-02") _).
  - intros k s Hin. destruct Hin as [Hin|[]]. injection Hin as <- <-.
    split; vm_compute; reflexivity.
  - vm_compute. reflexivity.
  - vm_compute. discriminate.
Defined.

Lemma getCachedMetaEntries_sorted_witness :
  map (fun e => fingerprint (se_entry e)) (getCachedMetaEntries (Some (num_of_Z 2)) mx_meta) = ["b"; "c"].
Proof.
  rewrite (proj1 (proj2 (proj2 (getCachedMetaEntries_sorted mx_meta
             ltac:(intros e He; cbn in He; repeat (destruct He as [<-|He]; [reflexivity|]); destruct He))))
             2%Z eq_refl).
  vm_compute. reflexivity.
Defined.
Lemma bucketFromShardFilePath_legacy_only_witness :
  bucketFromShardFilePath (Some "gitgallery\meta\shards\2024-01-02.json") = Some "2024-01-02" /\
  exists x, map_string (fun c => if Ascii.eqb c "092"%char then "/"%char else c)
              "gitgallery\meta\shards\2024-01-02.json"
            = "gitgallery/meta/shards/" ++ x ++ ".json" /\
         x <> "" /\ no_line_terminator x = true /\ "2024-01-02" = sanitizeBucket x.
Proof.
  assert (H : bucketFromShardFilePath (Some "gitgallery\meta\shards\2024-01-02.json") = Some "2024-01-02")
    by (vm_compute; reflexivity).
  split; [exact H|]. exact (bucketFromShardFilePath_legacy_only _ _ H).
Defined.

End MetaIndexMore.

Module UploadIndexMore.
Import UploadIndex.

Lemma ui_get_set k k' v m : get k (set k' v m) = if String.eqb k' k then Some v else get k m.
Proof.
  induction m as [|[k0 w] m IH]; cbn [set get].
  - destruct (String.eqb k' k); reflexivity.
  - destruct (String.eqb_spec k0 k') as [->|Hne]; cbn [get].
    + destruct (String.eqb k' k); reflexivity.
    + rewrite IH. destruct (String.eqb_spec k0 k) as [->|]; [|reflexivity].
      destruct (String.eqb_spec k' k); [congruence|reflexivity].
Qed.

Lemma ui_merge_one_other m e k : k <> meta_fingerprint e -> get k (merge_one m e) = get k m.
Proof.
  intros Hk. unfold merge_one. destruct (negb (truthy _)); [reflexivity|].
  assert (Hs : forall v, get k (set (meta_fingerprint e) v m) = get k m).
  { intros v. rewrite ui_get_set. destruct (String.eqb_spec (meta_fingerprint e) k); [congruence|reflexivity]. }
  destruct (get (meta_fingerprint e) m) as [c|]; [|apply Hs].
  destruct (_ || _)%bool; [apply Hs|reflexivity].
Qed.

Lemma ui_merge_one_keeps m e k x :
  get k m = Some x -> uploaded x = true -> exists y, get k (merge_one m e) = Some y /\ uploaded y = true.
Proof.
  intros Hx Hu. destruct (String.eqb_spec k (meta_fingerprint e)) as [->|Hne].
  2:{ exists x. rewrite ui_merge_one_other by exact Hne. auto. }
  unfold merge_one. destruct (negb (truthy _)); [eauto|]. rewrite Hx.
  destruct (_ || _)%bool; [|eauto].
  exists (mkEntry true (meta_repoPath e) (meta_contentHash e)). rewrite ui_get_set, String.eqb_refl. auto.
Qed.

Lemma ui_merge_one_sets m e :
  truthy (meta_fingerprint e) = true ->
  exists y, get (meta_fingerprint e) (merge_one m e) = Some y /\ uploaded y = true.
Proof.
  intros Ht. unfold merge_one. rewrite Ht. cbn [negb].
  set (next := mkEntry true (meta_repoPath e) (meta_contentHash e)).
  assert (Hs : get (meta_fingerprint e) (set (meta_fingerprint e) next m) = Some next)
    by (rewrite ui_get_set, String.eqb_refl; reflexivity).
  destruct (get (meta_fingerprint e) m) as [c|] eqn:Ec; [|eauto].
  destruct (negb (uploaded c) || _ || _)%bool eqn:Eb; [eauto|].
  exists c. split; [exact Ec|]. destruct (uploaded c); [reflexivity|discriminate].
Qed.

Lemma ui_merge_keeps es : forall m k x,
  get k m = Some x -> uploaded x = true ->
  exists y, get k (mergeMetaEntriesIntoUploadIndex es m) = Some y /\ uploaded y = true.
Proof.
  induction es as [|e es IH]; intros m k x Hx Hu; cbn [mergeMetaEntriesIntoUploadIndex fold_left]; [eauto|].
  destruct (ui_merge_one_keeps m e k x Hx Hu) as (y & Hy & Huy). exact (IH _ _ _ Hy Huy).
Qed.

Lemma ui_merge_other es : forall m k,
  ~ In k (map meta_fingerprint es) -> get k (mergeMetaEntriesIntoUploadIndex es m) = get k m.
Proof.
  induction es as [|e es IH]; intros m k Hk; cbn [mergeMetaEntriesIntoUploadIndex fold_left]; [reflexivity|].
  unfold mergeMetaEntriesIntoUploadIndex in IH. rewrite IH by (intros H; apply Hk; right; exact H).
  apply ui_merge_one_other. intros ->. apply Hk. left. reflexivity.
Qed.

(** [updateIndexCacheForRecord] writes the record's entry under its
    fingerprint and, when the record has a non-empty asset id, under that
    id; every other key reads as before. *)
Theorem updateIndexCacheForRecord_lookup (record : AssetRecord) (m : Index) (k : string) :
  get k (updateIndexCacheForRecord record m) =
  if String.eqb (rec_fingerprint record) k
  then Some (mkEntry (rec_uploaded record) (rec_repoPath record) (rec_contentHash record))
  else match rec_assetId record with
       | Some id => if truthy id && String.eqb id k
                    then Some (mkEntry (rec_uploaded record) (rec_repoPath record) (rec_contentHash record))
                    else get k m
       | None => get k m
       end.
Proof.
  unfold updateIndexCacheForRecord. rewrite ui_get_set.
  destruct (String.eqb (rec_fingerprint record) k); [reflexivity|].
  destruct (rec_assetId record) as [id|]; [|reflexivity].
  destruct (truthy id); cbn [andb]; [apply ui_get_set|reflexivity].
Qed.

(** After [mergeMetaEntriesIntoUploadIndex], the fingerprint of every
    meta entry with a non-empty fingerprint maps to an entry marked
    uploaded; keys that are no entry's fingerprint read as before. *)
Theorem mergeMetaEntriesIntoUploadIndex_marks (metaEntries : list MetaEntry) (m : Index) :
  (forall e, In e metaEntries -> truthy (meta_fingerprint e) = true ->
     exists y, get (meta_fingerprint e) (mergeMetaEntriesIntoUploadIndex metaEntries m) = Some y /\
               uploaded y = true) /\
  (forall k, ~ In k (map meta_fingerprint metaEntries) ->
     get k (mergeMetaEntriesIntoUploadIndex metaEntries m) = get k m).
Proof.
  split; [|apply ui_merge_other].
  revert m; induction metaEntries as [|e es IH]; intros m e' Hin Ht; [destruct Hin|].
  cbn [mergeMetaEntriesIntoUploadIndex fold_left]. destruct Hin as [<-|Hin].
  - destruct (ui_merge_one_sets m e Ht) as (y & Hy & Hu). exact (ui_merge_keeps es _ _ _ Hy Hu).
  - exact (IH (merge_one m e) e' Hin Ht).
Qed.

End UploadIndexMore.

Module DeleteMore.
Local Open Scope list_scope.
Import MetaIndex MetaIndexFacts.

(** Count of cache-invalidation events, read off the app state. *)
Definition keeps_invalidations {A} (m : M A) : Prop :=
  forall w, cacheInvalidations (app (snd (m w))) = cacheInvalidations (app w).

(** The in-memory blocklist agrees with the persisted one on every
    non-empty fingerprint once it has been loaded. *)
Definition bl_sync (a : AppState) : Prop :=
  autoSyncBlocklistLoaded a = true ->
  forall x, x <> "" -> (In x (autoSyncBlocklist a) <-> In x (store_blocklist a)).

(** A start where the persisted blocklist holds two fingerprints and the
    in-memory one has not been loaded yet. *)
Definition bl_world : World :=
  mkWorld (mkRemote [] 1) 0%Z empty_meta (mkAppState false [] ["a"; "b"] [] false [] O).

Lemma ki_of_keeps {A} (m : M A) : keeps_app m -> keeps_invalidations m.
Proof. intros H w. rewrite H. reflexivity. Qed.

Lemma ki_ret {A} (a : A) : keeps_invalidations (ret a).
Proof. intros w. reflexivity. Qed.

Lemma ki_bind {A B} (m : M A) (k : A -> M B) :
  keeps_invalidations m -> (forall a, keeps_invalidations (k a)) -> keeps_invalidations (bind m k).
Proof.
  intros Hm Hk w. unfold bind. specialize (Hm w).
  destruct (m w) as [[a|e] w'] eqn:E; cbn [snd] in *; [rewrite Hk|]; exact Hm.
Qed.

Lemma ki_modify_app f :
  (forall a, cacheInvalidations (f a) = cacheInvalidations a) -> keeps_invalidations (modify_app f).
Proof. intros Hf w. apply Hf. Qed.

Lemma ki_get_app : keeps_invalidations get_app.
Proof. intros w. reflexivity. Qed.

Lemma ki_get_meta : keeps_invalidations get_meta.
Proof. intros w. reflexivity. Qed.

Ltac ki_tac :=
  repeat first
    [ apply ki_of_keeps; solve [apply keeps_loadMetaIndex | apply keeps_deleteFile | apply keeps_removeMetaEntries]
    | apply ki_bind; [|intros ?]
    | apply ki_ret | apply ki_get_app | apply ki_get_meta
    | apply ki_modify_app; intros ?; cbn;
      repeat match goal with |- context [if ?b then _ else _] => destruct b end;
      repeat match goal with |- context [match ?o with Some _ => _ | None => _ end] => destruct o end;
      reflexivity
    | match goal with |- keeps_invalidations (if ?b then _ else _) => destruct b end
    | match goal with |- keeps_invalidations (match ?o with Some _ => _ | None => _ end) => destruct o end ].

Lemma ki_deleteRepoFile_skip p : keeps_invalidations (deleteRepoFile p true).
Proof.
  unfold deleteRepoFile, ensureMetaLoaded, getAsset, deleteAsset, removeFromIndexCache,
    blockAutoSyncFingerprint, ensureAutoSyncBlocklist.
  ki_tac.
Qed.

Lemma bulk_delete_loop_spec paths : forall deleted failed w,
  (exists d f, fst (bulk_delete_loop paths deleted failed w) = inl (d, f) /\
               Permutation (d ++ f) (deleted ++ failed ++ paths) /\
               (length deleted <= length d)%nat) /\
  cacheInvalidations (app (snd (bulk_delete_loop paths deleted failed w))) = cacheInvalidations (app w).
Proof.
  induction paths as [|p rest IH]; intros deleted failed w.
  - split; [|reflexivity]. exists deleted, failed. rewrite app_nil_r. auto.
  - cbn [bulk_delete_loop]. pose proof (ki_deleteRepoFile_skip p w) as Hk.
    destruct (deleteRepoFile p true w) as [[u|e] w1] eqn:E; cbn [snd] in Hk.
    + destruct (IH (deleted ++ [p]) failed w1) as [(d & f & Hr & Hp & Hl) Hc].
      split; [|congruence]. exists d, f. split; [exact Hr|]. split.
      * rewrite Hp, <- app_assoc. apply Permutation_app_head. cbn. apply Permutation_middle.
      * rewrite length_app in Hl. lia.
    + destruct (IH deleted (failed ++ [p]) w1) as [(d & f & Hr & Hp & Hl) Hc].
      split; [|congruence]. exists d, f. split; [exact Hr|]. split; [|exact Hl].
      rewrite Hp, <- app_assoc. reflexivity.
Qed.

Lemma set_add_In x y s : In y (set_add x s) <-> y = x \/ In y s.
Proof.
  unfold set_add. destruct (existsb (String.eqb x) s) eqn:E.
  - apply existsb_exists in E as [z [Hz Hzx]]. apply String.eqb_eq in Hzx. subst z.
    split; [auto|]. intros [->|H]; auto.
  - rewrite in_app_iff. cbn. intuition.
Qed.

Lemma set_delete_In x y s : In y (set_delete x s) <-> y <> x /\ In y s.
Proof.
  unfold set_delete. rewrite filter_In. rewrite negb_true_iff, String.eqb_neq. tauto.
Qed.

Lemma load_blocklist_In l : forall acc x, x <> "" ->
  (In x (fold_left (fun s fp => if String.eqb fp "" then s else set_add fp s) l acc) <->
   In x acc \/ In x l).
Proof.
  induction l as [|y l IH]; intros acc x Hx; cbn [fold_left].
  - cbn. tauto.
  - rewrite IH by exact Hx. destruct (String.eqb_spec y "") as [->|Hy].
    + cbn. intuition congruence.
    + rewrite set_add_In. cbn. intuition.
Qed.

Lemma ensureAutoSyncBlocklist_sync w :
  bl_sync (app w) ->
  let a' := app (exec ensureAutoSyncBlocklist w) in
  autoSyncBlocklistLoaded a' = true /\ store_blocklist a' = store_blocklist (app w) /\
  forall x, x <> "" -> (In x (autoSyncBlocklist a') <-> In x (store_blocklist a')).
Proof.
  intros Hs. unfold exec, ensureAutoSyncBlocklist, modify_app, modify. cbn [snd app set_app].
  destruct (autoSyncBlocklistLoaded (app w)) eqn:L.
  - cbn. split; [exact L|]. split; [reflexivity|]. apply Hs, L.
  - cbn. split; [reflexivity|]. split; [reflexivity|].
    intros x Hx. rewrite load_blocklist_In by exact Hx. cbn. tauto.
Qed.

Lemma blockAutoSyncFingerprint_sync fp w :
  fp <> "" -> bl_sync (app w) ->
  let a' := app (exec (blockAutoSyncFingerprint fp) w) in
  autoSyncBlocklistLoaded a' = true /\
  (forall x, x <> "" -> (In x (autoSyncBlocklist a') <-> In x (store_blocklist a'))) /\
  (forall x, x <> "" -> (In x (store_blocklist a') <-> x = fp \/ In x (store_blocklist (app w)))).
Proof.
  intros Hfp Hs. pose proof (ensureAutoSyncBlocklist_sync w Hs) as (L & St & Sy).
  unfold exec, blockAutoSyncFingerprint in *. apply String.eqb_neq in Hfp as Hfp'. rewrite Hfp'.
  unfold bind. destruct (ensureAutoSyncBlocklist w) as [r w1] eqn:E.
  assert (r = inl tt) as -> by (unfold ensureAutoSyncBlocklist, modify_app, modify in E; congruence).
  cbn [snd] in *. unfold modify_app, modify. cbn [snd app set_app].
  destruct (existsb (String.eqb fp) (autoSyncBlocklist (app w1))) eqn:X.
  - apply existsb_exists in X as [z [Hz Hzx]]. apply String.eqb_eq in Hzx. subst z.
    split; [exact L|]. split; [exact Sy|]. intros x Hx. rewrite St. split; [auto|].
    intros [->|H]; [rewrite <- St; apply Sy; assumption|exact H].
  - cbn. split; [exact L|]. split.
    + intros x Hx. rewrite !set_add_In. rewrite Sy by exact Hx. tauto.
    + intros x Hx. rewrite set_add_In, St. tauto.
Qed.

Lemma unblockAutoSyncFingerprint_sync fp w :
  fp <> "" -> bl_sync (app w) ->
  let a' := app (exec (unblockAutoSyncFingerprint fp) w) in
  autoSyncBlocklistLoaded a' = true /\
  (forall x, x <> "" -> (In x (autoSyncBlocklist a') <-> In x (store_blocklist a'))) /\
  (forall x, In x (store_blocklist a') <-> x <> fp /\ In x (store_blocklist (app w))).
Proof.
  intros Hfp Hs. pose proof (ensureAutoSyncBlocklist_sync w Hs) as (L & St & Sy).
  unfold exec, unblockAutoSyncFingerprint in *. apply String.eqb_neq in Hfp as Hfp'. rewrite Hfp'.
  unfold bind. destruct (ensureAutoSyncBlocklist w) as [r w1] eqn:E.
  assert (r = inl tt) as -> by (unfold ensureAutoSyncBlocklist, modify_app, modify in E; congruence).
  cbn [snd] in *. unfold modify_app, modify. cbn [snd app set_app].
  destruct (existsb (String.eqb fp) (autoSyncBlocklist (app w1))) eqn:X; cbn [negb].
  - cbn. split; [exact L|]. split.
    + intros x Hx. rewrite !set_delete_In. rewrite Sy by exact Hx. tauto.
    + intros x. rewrite set_delete_In, St. tauto.
  - split; [exact L|]. split; [exact Sy|]. intros x. rewrite <- St. split.
    + intros H. split; [|exact H]. intros ->. rewrite <- Sy in H by exact Hfp.
      assert (existsb (String.eqb fp) (autoSyncBlocklist (app w1)) = true)
        by (apply existsb_exists; exists fp; rewrite String.eqb_refl; auto).
      congruence.
    + tauto.
Qed.

(** deleteRepoFilesBulk (types.ts): the call never throws; every path ends up
    in exactly one of the returned deleted and failed lists, and the
    cache-invalidated event is emitted exactly once when at least one path
    was deleted, and not at all otherwise. *)
Theorem deleteRepoFilesBulk_partition (paths : list string) (w : World) :
  exists deleted failed,
    fst (deleteRepoFilesBulk paths w) = inl (deleted, failed) /\
    Permutation (deleted ++ failed) paths /\
    cacheInvalidations (app (snd (deleteRepoFilesBulk paths w))) =
      (if (0 <? length deleted)%nat then S (cacheInvalidations (app w))
       else cacheInvalidations (app w)).
Proof.
  destruct paths as [|p rest].
  - exists [], []. cbn. auto.
  - unfold deleteRepoFilesBulk, bind.
    destruct (bulk_delete_loop_spec (p :: rest) [] [] w) as [(d & f & Hr & Hp & _) Hc].
    destruct (bulk_delete_loop (p :: rest) [] [] w) as [r w1] eqn:E. cbn [fst snd] in Hr, Hc.
    subst r. exists d, f. cbn [app] in Hp. split; [|split; [exact Hp|]].
    + destruct (0 <? length d)%nat; reflexivity.
    + destruct (0 <? length d)%nat; cbn; rewrite Hc; reflexivity.
Qed.

(** blockAutoSyncFingerprint followed by unblockAutoSyncFingerprint (types.ts):
    for a non-empty fingerprint, the first call puts it in both the in-memory
    and the persisted blocklist, and after the second it is in neither; any
    other non-empty fingerprint ends up in both lists exactly when it was in
    the persisted blocklist to begin with. This holds from any state where a
    loaded in-memory blocklist agrees with the persisted one. *)
Theorem block_unblock_roundtrip (fp : string) (w : World)
  (Hfp : fp <> "") (Hsync : bl_sync (app w)) :
  let w1 := exec (blockAutoSyncFingerprint fp) w in
  let a1 := app w1 in
  let a2 := app (exec (unblockAutoSyncFingerprint fp) w1) in
  In fp (autoSyncBlocklist a1) /\ In fp (store_blocklist a1) /\
  ~ In fp (autoSyncBlocklist a2) /\ ~ In fp (store_blocklist a2) /\
  forall x, x <> "" -> x <> fp ->
    (In x (autoSyncBlocklist a2) <-> In x (store_blocklist (app w))) /\
    (In x (store_blocklist a2) <-> In x (store_blocklist (app w))).
Proof.
  intros w1 a1 a2. unfold a2, a1, w1.
  destruct (blockAutoSyncFingerprint_sync fp w Hfp Hsync) as (L1 & Sy1 & St1).
  assert (Hs1 : bl_sync (app (exec (blockAutoSyncFingerprint fp) w))) by (intros _; exact Sy1).
  destruct (unblockAutoSyncFingerprint_sync fp _ Hfp Hs1) as (L2 & Sy2 & St2).
  assert (Hin : In fp (store_blocklist (app (exec (blockAutoSyncFingerprint fp) w))))
    by (apply St1; auto).
  split; [apply Sy1; assumption|]. split; [exact Hin|].
  split; [rewrite Sy2 by exact Hfp; rewrite St2; tauto|].
  split; [rewrite St2; tauto|].
  intros x Hx Hxf. rewrite Sy2 by exact Hx. rewrite St2, St1 by exact Hx. tauto.
Qed.

Lemma block_unblock_roundtrip_witness :
  let w1 := exec (blockAutoSyncFingerprint "b") bl_world in
  let a1 := app w1 in
  let a2 := app (exec (unblockAutoSyncFingerprint "b") w1) in
  In "b" (autoSyncBlocklist a1) /\ In "b" (store_blocklist a1) /\
  ~ In "b" (autoSyncBlocklist a2) /\ ~ In "b" (store_blocklist a2) /\
  forall x, x <> "" -> x <> "b" ->
    (In x (autoSyncBlocklist a2) <-> In x (store_blocklist (app bl_world))) /\
    (In x (store_blocklist a2) <-> In x (store_blocklist (app bl_world))).
Proof.
  apply (block_unblock_roundtrip "b" bl_world).
  - discriminate.
  - intros H. discriminate H.
Defined.

End DeleteMore.
